(** * Secure file access layer of the MCP source-code server

    A shallow embedding of [SecureFileManager] (src/index.ts, the enhanced
    server) together with the parts of the Node.js platform it calls:
    [String.prototype] methods, the POSIX flavour of the [path] module and
    the [fs/promises] calls.

    Conventions.
    - A JavaScript string is modelled by the list of the bytes of its
      UTF-8 encoding ([list ascii]); [Buffer.byteLength (s, 'utf-8')] is
      then [length s], and a file holds exactly such a list.
    - JavaScript numbers used as indices, sizes and counters are [Z]; the
      sentinel [-1] of [indexOf] is kept.
    - A thrown [Error] is a record with its [message] and the optional
      [code] that Node attaches to file-system errors. *)

From Stdlib Require Import ZArith Ascii String Lia DecimalString Sorted.
From stdpp Require Import gmap strings list fin_maps.

Local Open Scope Z_scope.

(** ** JavaScript strings *)

Abbreviation str := (list ascii).

(** String literals of the source, as lists of characters. *)
Definition js (s : string) : str := list_ascii_of_string s.
Arguments js : simpl never.

Definition ascii_eqb (a b : ascii) : bool := bool_decide (a = b).

Definition str_eqb (a b : str) : bool := bool_decide (a = b).

(** [s.startsWith (p)] *)
Fixpoint startsWith (s p : str) {struct p} : bool :=
  match p, s with
  | [], _ => true
  | _ :: _, [] => false
  | c :: p', d :: s' => ascii_eqb c d && startsWith s' p'
  end.

(** [s.endsWith (p)] *)
Definition endsWith (s p : str) : bool := startsWith (rev s) (rev p).

(** First index [k >= 0] of an occurrence of [p] in [s], counted from the
    head of [s]; [None] when there is none. *)
Fixpoint find_from (s p : str) : option nat :=
  if startsWith s p then Some O
  else match s with
       | [] => None
       | _ :: s' => S <$> find_from s' p
       end.

(** [s.indexOf (p, position)]: the position is clamped to [0 .. length s],
    the answer is the least index at or after it where [p] occurs, or [-1]. *)
Definition indexOf (s p : str) (position : Z) : Z :=
  let start := Z.to_nat (Z.min (Z.max position 0) (Z.of_nat (length s))) in
  match find_from (drop start s) p with
  | Some k => Z.of_nat (start + k)
  | None => -1
  end.

(** [s.includes (p)] *)
Definition includes (s p : str) : bool :=
  match find_from s p with Some _ => true | None => false end.

(** [s.substring (start, end)]: both ends are clamped to [0 .. length s]
    and swapped when out of order. *)
Definition substring (s : str) (start finish : Z) : str :=
  let len := Z.of_nat (length s) in
  let a := Z.min (Z.max start 0) len in
  let b := Z.min (Z.max finish 0) len in
  let from := Z.min a b in
  let to := Z.max a b in
  take (Z.to_nat (to - from)) (drop (Z.to_nat from) s).

(** [s.substring (start)] *)
Definition substring_from (s : str) (start : Z) : str :=
  substring s start (Z.of_nat (length s)).

(** [s.toLowerCase ()] on the ASCII letters; bytes of other characters are
    left as they are. *)
Definition lower_char (c : ascii) : ascii :=
  let n := nat_of_ascii c in
  if (Nat.leb 65 n && Nat.leb n 90)%bool then ascii_of_nat (n + 32) else c.

Definition toLowerCase (s : str) : str := map lower_char s.

(** [s.split (c)] for a one-character separator: never the empty list. *)
Fixpoint split_on (c : ascii) (s : str) : list str :=
  match s with
  | [] => [[]]
  | d :: s' =>
      if ascii_eqb d c then [] :: split_on c s'
      else match split_on c s' with
           | seg :: rest => (d :: seg) :: rest
           | [] => [[d]]
           end
  end.

(** [segs.join (sep)] *)
Fixpoint join_with (sep : str) (segs : list str) : str :=
  match segs with
  | [] => []
  | [seg] => seg
  | seg :: rest => seg ++ sep ++ join_with sep rest
  end.

(** [`${n}`] for an integer: its decimal numeral. *)
Definition showZ (n : Z) : str := js (NilZero.string_of_int (Z.to_int n)).

(** ** The POSIX [path] module of Node.js

    The functions work on the segments between separators, which is what
    Node's character loops compute. *)
Module path.

Definition sep : str := js "/".
Definition slash : ascii := "/"%char.
Definition dot : ascii := "."%char.

Definition isAbsolute (p : str) : bool :=
  match p with c :: _ => ascii_eqb c slash | [] => false end.

Definition hasTrailingSep (p : str) : bool :=
  match last p with Some c => ascii_eqb c slash | None => false end.

(** One step of [normalizeString]: [stack] holds the segments kept so
    far, the last one first. Empty segments and [.] are dropped; [..]
    removes the segment before it unless there is none or it is itself
    [..], in which case [..] is kept only for a relative path. *)
Definition push_segment (allowAboveRoot : bool) (stack : list str) (seg : str)
  : list str :=
  if str_eqb seg [] || str_eqb seg (js ".") then stack
  else if str_eqb seg (js "..") then
    match stack with
    | top :: below =>
        if str_eqb top (js "..")
        then (if allowAboveRoot then seg :: stack else stack)
        else below
    | [] => if allowAboveRoot then [seg] else []
    end
  else seg :: stack.

Definition normalize_segments (allowAboveRoot : bool) (segs : list str)
  : list str :=
  rev (fold_left (push_segment allowAboveRoot) segs []).

Definition normalizeString (p : str) (allowAboveRoot : bool) : str :=
  join_with sep (normalize_segments allowAboveRoot (split_on slash p)).

(** [path.normalize (p)] *)
Definition normalize (p : str) : str :=
  match p with
  | [] => js "."
  | _ =>
      let absolute := isAbsolute p in
      let trailing := hasTrailingSep p in
      let n := normalizeString p (negb absolute) in
      match n with
      | [] => if absolute then js "/" else if trailing then js "./" else js "."
      | _ =>
          let n' := if trailing then n ++ js "/" else n in
          if absolute then js "/" ++ n' else n'
      end
  end.

(** The right-to-left scan of [path.resolve]: arguments are prepended
    until an absolute one has been seen. *)
Fixpoint resolve_scan (right_to_left : list str) (resolvedPath : str)
  : str * bool :=
  match right_to_left with
  | [] => (resolvedPath, false)
  | p :: rest =>
      match p with
      | [] => resolve_scan rest resolvedPath
      | _ =>
          let r := p ++ js "/" ++ resolvedPath in
          if isAbsolute p then (r, true) else resolve_scan rest r
      end
  end.

(** [path.resolve (...args)] in a process whose working directory is
    [cwd]. *)
Definition resolve (cwd : str) (args : list str) : str :=
  let '(resolvedPath, resolvedAbsolute) := resolve_scan (rev args ++ [cwd]) [] in
  let n := normalizeString resolvedPath (negb resolvedAbsolute) in
  if resolvedAbsolute then js "/" ++ n
  else match n with [] => js "." | _ => n end.

(** Segments of an absolute normalized path. *)
Definition segments (p : str) : list str :=
  filter (λ seg, seg ≠ []) (split_on slash p).

Fixpoint drop_common (a b : list str) : list str * list str :=
  match a, b with
  | x :: a', y :: b' => if str_eqb x y then drop_common a' b' else (a, b)
  | _, _ => (a, b)
  end.

(** [path.relative (from, to)] *)
Definition relative (cwd : str) (from to : str) : str :=
  if str_eqb from to then []
  else
    let from' := resolve cwd [from] in
    let to' := resolve cwd [to] in
    if str_eqb from' to' then []
    else
      let '(up, down) := drop_common (segments from') (segments to') in
      join_with sep (map (λ _, js "..") up ++ down).

(** [path.basename (p)]: the last non-empty segment. *)
Definition basename (p : str) : str :=
  match rev (segments p) with
  | b :: _ => b
  | [] => []
  end.

(** Index-free reading of the scan of [path.extname] over a base name
    given last character first: the characters after the last dot, and
    what is left of it. *)
Fixpoint split_last_dot (rev_name : str) (after : str) : option (str * str) :=
  match rev_name with
  | [] => None
  | c :: before =>
      if ascii_eqb c dot then Some (rev before, after)
      else split_last_dot before (c :: after)
  end.

(** [path.extname (p)]: from the last dot of the base name to its end;
    empty when there is no dot, when the dot starts the base name, and
    for [..]. *)
Definition extname (p : str) : str :=
  let b := basename p in
  match split_last_dot (rev b) [] with
  | None => []
  | Some (before, after) =>
      match before with
      | [] => []
      | _ => if str_eqb b (js "..") then [] else dot :: after
      end
  end.

Fixpoint skip_while (f : ascii -> bool) (s : str) : str :=
  match s with
  | c :: s' => if f c then skip_while f s' else s
  | [] => []
  end.

(** [path.dirname (p)]: the scan runs from the last character down to
    index 1, first over trailing separators, then over the base name,
    and cuts at the separator before it. *)
Definition dirname (p : str) : str :=
  match p with
  | [] => js "."
  | c0 :: rest =>
      let hasRoot := ascii_eqb c0 slash in
      let name_on := skip_while (λ c, ascii_eqb c slash) (rev rest) in
      match skip_while (λ c, negb (ascii_eqb c slash)) name_on with
      | [] => if hasRoot then js "/" else js "."
      | _ :: kept =>
          match kept with
          | [] => if hasRoot then js "//" else [c0]
          | _ => c0 :: rev kept
          end
      end
  end.

(** [path.join (...args)] *)
Definition join (args : list str) : str :=
  match filter (λ a, a ≠ []) args with
  | [] => js "."
  | parts => normalize (join_with sep parts)
  end.

End path.

(** ** Errors and results *)

(** A thrown JavaScript [Error]: [code] is set by Node on file-system
    errors only. *)
Record JsError := mkError { code : option str; message : str }.

(** [new Error (msg)] *)
Definition Error (msg : str) : JsError := {| code := None; message := msg |}.

Inductive result (A : Type) : Type :=
| Ok (a : A)
| Throw (e : JsError).
Arguments Ok {A} a.
Arguments Throw {A} e.

Definition rbind {A B} (r : result A) (k : A -> result B) : result B :=
  match r with
  | Ok a => k a
  | Throw e => Throw e
  end.

(** [if (c) throw e;] *)
Definition throw_if (c : bool) (e : JsError) : result unit :=
  if c then Throw e else Ok tt.

Declare Scope result_scope.
Delimit Scope result_scope with result.
Notation "x <- r ;; k" := (rbind r (fun x => k))
  (at level 100, r at next level, right associativity) : result_scope.
Notation "r ;; k" := (rbind r (fun _ => k))
  (at level 100, right associativity) : result_scope.

(** ** Configuration and the manager object *)

Record SecurityConfig := {
  allowedDirectory : str;
  maxFileSize : Z;
  maxConcurrentOperations : Z;
  allowedExtensions : list str;
  blacklistedPaths : list str
}.

Record SecureFileManager := {
  config : SecurityConfig;
  normalizedAllowedDir : str;
  activeOperations : Z
}.

(** [this.activeOperations = n] *)
Definition set_activeOperations (n : Z) (this : SecureFileManager) : SecureFileManager := {|
  config := config this;
  normalizedAllowedDir := normalizedAllowedDir this;
  activeOperations := n
|}.

(** The default configuration of [SourceCodeMCPServer]'s constructor;
    [MCP_WORKSPACE_DIR] is the environment variable of that name. *)
Definition defaultConfig (MCP_WORKSPACE_DIR : option str) : SecurityConfig := {|
  allowedDirectory :=
    match MCP_WORKSPACE_DIR with
    | Some (c :: d) => c :: d
    | _ => js "./workspace"
    end;
  maxFileSize := 10 * 1024 * 1024;
  maxConcurrentOperations := 10;
  allowedExtensions := map js [
    ".js"; ".ts"; ".jsx"; ".tsx"; ".py"; ".cpp"; ".cc"; ".cxx"; ".c"; ".h"; ".hpp";
    ".java"; ".cs"; ".php"; ".rb"; ".go"; ".rs"; ".swift"; ".kt"; ".scala";
    ".html"; ".css"; ".scss"; ".less"; ".json"; ".xml"; ".yaml"; ".yml";
    ".md"; ".txt"; ".rst"; ".adoc";
    ".sh"; ".bat"; ".ps1"; ".sql"; ".r"; ".matlab"; ".pl";
    ".template"; ".example"; ".sample"; ".config";
    ""
  ]%string;
  blacklistedPaths := map js [
    ".."; ".git/"; "node_modules/"; ".env."; "secrets/"; ".DS_Store"; "Thumbs.db"
  ]%string
|}.

Section Process.

(** [process.cwd ()] *)
Variable cwd : str.

(** The constructor of [SecureFileManager]. *)
Definition new_SecureFileManager (cfg : SecurityConfig) : SecureFileManager := {|
  config := cfg;
  normalizedAllowedDir := path.resolve cwd [path.normalize (allowedDirectory cfg)];
  activeOperations := 0
|}.

Section Methods.

Variable this : SecureFileManager.

Definition isFileExtensionAllowed (fileName : str) : bool :=
  match allowedExtensions (config this) with
  | [] => true
  | exts =>
      let ext := toLowerCase (path.extname fileName) in
      bool_decide (ext ∈ exts)
  end.

(** The body of the loop of [isPathBlacklisted] for one entry: [true]
    is the early [return true]. *)
Definition blacklist_entry_hits (fileName relativePath blacklisted : str) : bool :=
  if str_eqb blacklisted (js ".env.") then
    startsWith fileName (js ".env.")
    && negb (endsWith fileName (js ".template"))
    && negb (endsWith fileName (js ".example"))
    && negb (endsWith fileName (js ".sample"))
  else includes relativePath blacklisted.

Definition isPathBlacklisted (relativePath : str) : bool :=
  let fileName := path.basename relativePath in
  existsb (blacklist_entry_hits fileName relativePath)
          (blacklistedPaths (config this)).

Definition msg_outside_root (filePath : str) : str :=
  js "Access denied: Path '" ++ filePath ++ js "' is outside allowed directory".

Definition msg_blacklisted : str :=
  js "Access denied: Path contains blacklisted pattern".

Definition msg_extension (ext : str) : str :=
  js "Access denied: File extension '"
  ++ (match ext with [] => js "no extension" | _ => ext end)
  ++ js "' is not allowed".

(** The containment test of [validatePath]. *)
Definition within_root (resolvedPath : str) : bool :=
  startsWith resolvedPath (normalizedAllowedDir this ++ path.sep)
  || str_eqb resolvedPath (normalizedAllowedDir this).

Definition validatePath (filePath : str) (isFileOperation : bool) : result str :=
  (let normalizedPath := path.normalize filePath in
   let resolvedPath := path.resolve cwd [normalizedAllowedDir this; normalizedPath] in
   throw_if (negb (startsWith resolvedPath (normalizedAllowedDir this ++ path.sep))
             && negb (str_eqb resolvedPath (normalizedAllowedDir this)))
            (Error (msg_outside_root filePath)) ;;
   (if negb (str_eqb filePath []) && negb (str_eqb filePath (js "."))
    then
      let relativePath := path.relative cwd (normalizedAllowedDir this) resolvedPath in
      throw_if (isPathBlacklisted relativePath) (Error msg_blacklisted)
    else Ok tt) ;;
   (if isFileOperation
    then
      let fileName := path.basename resolvedPath in
      throw_if (negb (isFileExtensionAllowed fileName))
               (Error (msg_extension (toLowerCase (path.extname fileName))))
    else Ok tt) ;;
   Ok resolvedPath)%result.

End Methods.

End Process.

(** ** Notions used in the statements *)

(** A segment that [normalizeString] can keep: not empty, no separator. *)
Definition plain_seg (seg : str) : Prop := seg ≠ [] ∧ path.slash ∉ seg.

(** A segment of a normalized absolute path. *)
Definition canonical_seg (seg : str) : Prop :=
  plain_seg seg ∧ seg ≠ js "." ∧ seg ≠ js "..".

(** [p] is a prefix of [s] and shorter than it. *)
Definition strict_prefix (p s : str) : Prop := p `prefix_of` s ∧ p ≠ s.

(** What [validatePath] returns once the containment test has been
    passed. *)
Definition validatePath_inside (cwd : str) (this : SecureFileManager)
    (filePath : str) (isFileOperation : bool) : result str :=
  let resolvedPath :=
    path.resolve cwd [normalizedAllowedDir this; path.normalize filePath] in
  if negb (str_eqb filePath []) && negb (str_eqb filePath (js "."))
     && isPathBlacklisted this
          (path.relative cwd (normalizedAllowedDir this) resolvedPath)
  then Throw (Error msg_blacklisted)
  else if isFileOperation
          && negb (isFileExtensionAllowed this (path.basename resolvedPath))
  then Throw (Error (msg_extension
                       (toLowerCase (path.extname (path.basename resolvedPath)))))
  else Ok resolvedPath.

(** The absolute path with the given segments. *)
Definition abs_path (segs : list str) : str :=
  path.slash :: join_with path.sep segs.

(** ** The file system

    The store holds regular files and directories under the absolute,
    normalized paths that [SecureFileManager] passes to [fs]. Symbolic
    links are not represented in the store; the directory walker is
    verified against arbitrary answers of the file system instead. *)

Inductive node : Type :=
| File (content : str)
| Directory.

Abbreviation Store := (gmap str node).

(** What [fs.stat] reports and the code reads. *)
Record Stats := { size : Z }.

Inductive DirentKind := IsFile | IsDirectory | IsOther.

(** An entry of [fs.readdir (dir, { withFileTypes: true })]. *)
Record Dirent := { name : str; kind : DirentKind }.

Definition isFile (entry : Dirent) : bool :=
  match kind entry with IsFile => true | _ => false end.

Definition isDirectory (entry : Dirent) : bool :=
  match kind entry with IsDirectory => true | _ => false end.

(** The error Node raises for a failed system call. *)
Definition fs_error (errno description syscall : string) (p : str) : JsError := {|
  code := Some (js errno);
  message := js errno ++ js ": " ++ js description ++ js ", " ++ js syscall
             ++ js " '" ++ p ++ js "'"
|}.

Definition ENOENT := fs_error "ENOENT" "no such file or directory".
Definition ENOTDIR := fs_error "ENOTDIR" "not a directory".
Definition EISDIR := fs_error "EISDIR" "illegal operation on a directory".
Definition EEXIST := fs_error "EEXIST" "file already exists".
Definition ENOTEMPTY := fs_error "ENOTEMPTY" "directory not empty".
Definition EINVAL := fs_error "EINVAL" "invalid argument".

(** On the way to [p] a name stands for a regular file: the nearest
    ancestor of [p] that is in the store is one. *)
Fixpoint below_a_file (fuel : nat) (disk : Store) (p : str) : bool :=
  match disk !! path.dirname p with
  | Some (File _) => true
  | Some Directory => false
  | None =>
      if str_eqb (path.dirname p) p then false
      else match fuel with
           | O => false
           | S fuel' => below_a_file fuel' disk (path.dirname p)
           end
  end.

(** The error for a path that is not in the store: [ENOTDIR] when a
    regular file is on the way to it, [ENOENT] otherwise. *)
Definition missing (syscall : string) (disk : Store) (p : str) : JsError :=
  if below_a_file (length p) disk p then ENOTDIR syscall p else ENOENT syscall p.

(** Creating or replacing the regular file [p]. *)
Definition store_file (syscall : string) (disk : Store) (p data : str)
  : result unit * Store :=
  match disk !! p with
  | Some Directory => (Throw (EISDIR syscall p), disk)
  | _ =>
      match disk !! path.dirname p with
      | Some Directory => (Ok tt, <[p := File data]> disk)
      | _ => (Throw (missing syscall disk p), disk)
      end
  end.

(** [fs.mkdir (p, { recursive: true })]: missing ancestors are created,
    an existing directory is accepted, a file in the way is an error. *)
Fixpoint mkdir_p (fuel : nat) (disk : Store) (p : str) : result unit * Store :=
  match disk !! p with
  | Some Directory => (Ok tt, disk)
  | Some (File _) => (Throw (EEXIST "mkdir" p), disk)
  | None =>
      if str_eqb (path.dirname p) p then (Ok tt, <[p := Directory]> disk)
      else
        match fuel with
        | O => (Throw (ENOENT "mkdir" p), disk)
        | S fuel' =>
            match mkdir_p fuel' disk (path.dirname p) with
            | (Ok _, disk') => (Ok tt, <[p := Directory]> disk')
            | (Throw _, _) => (Throw (ENOTDIR "mkdir" p), disk)
            end
        end
  end.

(** [p] is [dir] or lies below it. *)
Definition under (dir p : str) : bool :=
  str_eqb p dir || startsWith p (dir ++ path.sep).

(** Moving the directory [a] and all that is below it to [b]. *)
Definition move_tree (disk : Store) (a b : str) : Store :=
  list_to_map
    (map (λ '(k, v), if under a k then (b ++ drop (length a) k, v) else (k, v))
         (map_to_list disk)).

Definition has_children (disk : Store) (dir : str) : bool :=
  existsb (λ '(k, _), negb (str_eqb k dir) && str_eqb (path.dirname k) dir)
          (map_to_list disk).

Definition store_rename (disk : Store) (a b : str) : result unit * Store :=
  match disk !! a with
  | None => (Throw (missing "rename" disk a), disk)
  | Some src =>
      if str_eqb a b then (Ok tt, disk)
      else
        match disk !! path.dirname b with
        | Some Directory =>
            match src, disk !! b with
            | File c, Some Directory => (Throw (EISDIR "rename" a), disk)
            | File c, _ => (Ok tt, <[b := File c]> (delete a disk))
            | Directory, Some (File _) => (Throw (ENOTDIR "rename" a), disk)
            | Directory, dst =>
                if under a b then (Throw (EINVAL "rename" a), disk)
                else if match dst with Some _ => has_children disk b | None => false end
                then (Throw (ENOTEMPTY "rename" a), disk)
                else (Ok tt, move_tree (delete b disk) a b)
            end
        | _ => (Throw (missing "rename" disk b), disk)
        end
  end.

Definition dirents (disk : Store) (dir : str) : list Dirent :=
  omap (λ '(k, v),
          if negb (str_eqb k dir) && str_eqb (path.dirname k) dir
          then Some {| name := path.basename k;
                       kind := match v with File _ => IsFile | Directory => IsDirectory end |}
          else None)
       (map_to_list disk).

(** The calls of [fs/promises] (and of the write stream) that the
    manager awaits, indexed by the type of what they resolve to. *)
Inductive fs_call : Type -> Type :=
| fs_access (p : str) : fs_call unit
| fs_stat (p : str) : fs_call Stats
| fs_readFile (p : str) : fs_call str
| fs_writeFile (p data : str) : fs_call unit
| fs_mkdir (p : str) : fs_call unit
| fs_unlink (p : str) : fs_call unit
| fs_rename (oldPath newPath : str) : fs_call unit
| fs_copyFile (src dest : str) : fs_call unit
| fs_realpath (p : str) : fs_call str
| fs_readdir (p : str) : fs_call (list Dirent)
| stream_open (p : str) : fs_call unit
| stream_write (p chunk : str) : fs_call unit.

Section FileSystem.

(** The size [fs.stat] reports for a directory. *)
Variable dir_size : Z.

(** The effect of one call on the store. *)
Definition perform {B} (c : fs_call B) (disk : Store) : result B * Store :=
  match c in fs_call B return result B * Store with
  | fs_access p =>
      match disk !! p with
      | Some _ => (Ok tt, disk)
      | None => (Throw (missing "access" disk p), disk)
      end
  | fs_stat p =>
      match disk !! p with
      | Some (File c) => (Ok {| size := Z.of_nat (length c) |}, disk)
      | Some Directory => (Ok {| size := dir_size |}, disk)
      | None => (Throw (missing "stat" disk p), disk)
      end
  | fs_readFile p =>
      match disk !! p with
      | Some (File c) => (Ok c, disk)
      | Some Directory => (Throw (EISDIR "read" p), disk)
      | None => (Throw (missing "open" disk p), disk)
      end
  | fs_writeFile p data => store_file "open" disk p data
  | fs_mkdir p => mkdir_p (length p) disk p
  | fs_unlink p =>
      match disk !! p with
      | Some (File _) => (Ok tt, delete p disk)
      | Some Directory => (Throw (EISDIR "unlink" p), disk)
      | None => (Throw (missing "unlink" disk p), disk)
      end
  | fs_rename a b => store_rename disk a b
  | fs_copyFile src dest =>
      match disk !! src with
      | Some (File c) => store_file "copyfile" disk dest c
      | Some Directory => (Throw (EISDIR "copyfile" src), disk)
      | None => (Throw (missing "copyfile" disk src), disk)
      end
  | fs_realpath p =>
      match disk !! p with
      | Some _ => (Ok p, disk)
      | None => (Throw (missing "realpath" disk p), disk)
      end
  | fs_readdir p =>
      match disk !! p with
      | Some Directory => (Ok (dirents disk p), disk)
      | Some (File _) => (Throw (ENOTDIR "scandir" p), disk)
      | None => (Throw (missing "scandir" disk p), disk)
      end
  | stream_open p => store_file "open" disk p []
  | stream_write p chunk =>
      match disk !! p with
      | Some (File c) => (Ok tt, <[p := File (c ++ chunk)]> disk)
      | Some Directory => (Throw (EISDIR "write" p), disk)
      | None => (Throw (missing "write" disk p), disk)
      end
  end.

End FileSystem.

(** ** Asynchronous methods

    An [async] method is a tree: it settles, or it is suspended at an
    [await] of a file-system call with the rest of the method waiting
    for the answer. Between two [await]s the code runs without
    interruption; there it may read and assign the fields of [this] and
    read the clock. *)

Inductive Async (A : Type) : Type :=
| Settle (r : result A)
| Await {B : Type} (c : fs_call B) (k : result B -> Async A)
| ReadThis (k : SecureFileManager -> Async A)
| WriteThis (this : SecureFileManager) (k : Async A)
| DateNow (k : str -> Async A).
Arguments Settle {A} r.
Arguments Await {A B} c k.
Arguments ReadThis {A} k.
Arguments WriteThis {A} this k.
Arguments DateNow {A} k.

Definition ret {A} (a : A) : Async A := Settle (Ok a).
Definition throw {A} (e : JsError) : Async A := Settle (Throw e).

(** [await c] *)
Definition await {B} (c : fs_call B) : Async B := Await c Settle.

Fixpoint bind {A B} (m : Async A) (f : A -> Async B) : Async B :=
  match m with
  | Settle (Ok a) => f a
  | Settle (Throw e) => Settle (Throw e)
  | Await c k => Await c (λ r, bind (k r) f)
  | ReadThis k => ReadThis (λ this, bind (k this) f)
  | WriteThis this k => WriteThis this (bind k f)
  | DateNow k => DateNow (λ now, bind (k now) f)
  end.

(** [try { m } catch (error) { handler }] *)
Fixpoint try_catch {A} (m : Async A) (handler : JsError -> Async A) : Async A :=
  match m with
  | Settle (Ok a) => Settle (Ok a)
  | Settle (Throw e) => handler e
  | Await c k => Await c (λ r, try_catch (k r) handler)
  | ReadThis k => ReadThis (λ this, try_catch (k this) handler)
  | WriteThis this k => WriteThis this (try_catch k handler)
  | DateNow k => DateNow (λ now, try_catch (k now) handler)
  end.

(** [try { m } finally { cleanup }] *)
Fixpoint try_finally {A} (m : Async A) (cleanup : Async unit) : Async A :=
  match m with
  | Settle r => bind cleanup (λ _, Settle r)
  | Await c k => Await c (λ r, try_finally (k r) cleanup)
  | ReadThis k => ReadThis (λ this, try_finally (k this) cleanup)
  | WriteThis this k => WriteThis this (try_finally k cleanup)
  | DateNow k => DateNow (λ now, try_finally (k now) cleanup)
  end.

(** A synchronous computation inside an [async] method. *)
Definition lift {A} (r : result A) : Async A := Settle r.

Declare Scope async_scope.
Delimit Scope async_scope with async.
Notation "x <- m ;; k" := (bind m (fun x => k))
  (at level 100, m at next level, right associativity) : async_scope.
Notation "m ;; k" := (bind m (fun _ => k))
  (at level 100, right associativity) : async_scope.

(** ** The methods of [SecureFileManager] *)

Definition read_this : Async SecureFileManager := ReadThis ret.

(** [this.activeOperations++] *)
Definition activeOperations_incr : Async unit :=
  ReadThis (λ this,
    WriteThis (set_activeOperations (activeOperations this + 1) this) (ret tt)).

(** [this.activeOperations--] *)
Definition activeOperations_decr : Async unit :=
  ReadThis (λ this,
    WriteThis (set_activeOperations (activeOperations this - 1) this) (ret tt)).

Definition msg_too_many : str :=
  js "Too many concurrent operations. Please try again later.".

Definition msg_not_exist (filePath : str) : str :=
  js "File '" ++ filePath ++ js "' does not exist".

Definition msg_file_too_large (fileSize max : Z) : str :=
  js "File size (" ++ showZ fileSize ++ js " bytes) exceeds maximum allowed size ("
  ++ showZ max ++ js " bytes)".

Definition msg_content_too_large (contentSize max : Z) : str :=
  js "Content size (" ++ showZ contentSize
  ++ js " bytes) exceeds maximum allowed size (" ++ showZ max ++ js " bytes)".

Definition msg_updated_too_large (contentSize max : Z) : str :=
  js "Updated content size (" ++ showZ contentSize
  ++ js " bytes) exceeds maximum allowed size (" ++ showZ max ++ js " bytes)".

Definition msg_no_match : str :=
  js "Original content not found in file. The content might have been modified.".

Definition msg_ambiguous : str :=
  js "Multiple occurrences of the target content found. Please use specific content for replacement.".

Definition msg_stream_too_large (max : Z) : str :=
  js "Stream size exceeds maximum allowed size (" ++ showZ max ++ js " bytes)".

Definition msg_failed_read (filePath msg : str) : str :=
  js "Failed to read file '" ++ filePath ++ js "': " ++ msg.

Definition msg_failed_write (filePath msg : str) : str :=
  js "Failed to write file '" ++ filePath ++ js "': " ++ msg.

Definition msg_failed_partial (filePath msg : str) : str :=
  js "Failed to partial write file '" ++ filePath ++ js "': " ++ msg.

Definition msg_failed_delete (filePath msg : str) : str :=
  js "Failed to delete file '" ++ filePath ++ js "': " ++ msg.

Definition msg_failed_rename (oldPath newPath msg : str) : str :=
  js "Failed to rename/move file from '" ++ oldPath ++ js "' to '" ++ newPath
  ++ js "': " ++ msg.

Definition msg_failed_stream (filePath msg : str) : str :=
  js "Failed to stream write file '" ++ filePath ++ js "': " ++ msg.

Definition msg_source_not_exist (oldPath : str) : str :=
  js "Source file '" ++ oldPath ++ js "' does not exist".

Definition msg_destination_exists (newPath : str) : str :=
  js "Destination '" ++ newPath ++ js "' already exists".

(** [accessError.code === 'ENOENT'] *)
Definition is_ENOENT (e : JsError) : bool :=
  bool_decide (code e = Some (js "ENOENT")).

(** [timestamp.replace (/[:.]/g, '-')] *)
Definition replace_colon_dot (s : str) : str :=
  map (λ c, if ascii_eqb c ":"%char || ascii_eqb c "."%char then "-"%char else c) s.

Section Manager.

Variable cwd : str.

(** [createBackup (filePath)] *)
Definition createBackup (filePath : str) : Async unit :=
  (this <- read_this ;;
   let backupDir := path.join [normalizedAllowedDir this; js ".backups"] in
   await (fs_mkdir backupDir) ;;
   let fileName := path.basename filePath in
   now <- DateNow ret ;;
   let timestamp := replace_colon_dot now in
   let backupFileName := fileName ++ js "." ++ timestamp ++ js ".backup" in
   let backupPath := path.join [backupDir; backupFileName] in
   await (fs_copyFile filePath backupPath))%async.

Definition readFile_body (filePath : str) : Async str :=
  (this <- read_this ;;
   safePath <- lift (validatePath cwd this filePath true) ;;
   try_catch (await (fs_access safePath))
     (λ accessError,
        if is_ENOENT accessError then throw (Error (msg_not_exist filePath))
        else throw accessError) ;;
   stats <- await (fs_stat safePath) ;;
   this <- read_this ;;
   (if size stats >? maxFileSize (config this)
    then throw (Error (msg_file_too_large (size stats) (maxFileSize (config this))))
    else ret tt) ;;
   content <- await (fs_readFile safePath) ;;
   ret content)%async.

Definition readFile_catch (filePath : str) (error : JsError) : Async str :=
  if includes (message error) (js "does not exist")
     || includes (message error) (js "Access denied")
     || includes (message error) (js "exceeds maximum")
  then throw error
  else throw (Error (msg_failed_read filePath (message error))).

(** [readFile (filePath)] *)
Definition readFile (filePath : str) : Async str :=
  (this <- read_this ;;
   if activeOperations this >=? maxConcurrentOperations (config this)
   then throw (Error msg_too_many)
   else
     activeOperations_incr ;;
     try_finally
       (try_catch (readFile_body filePath) (readFile_catch filePath))
       activeOperations_decr)%async.

Definition writeFile_body (filePath content : str) (withBackup : bool) : Async unit :=
  (this <- read_this ;;
   safePath <- lift (validatePath cwd this filePath true) ;;
   let contentSize := Z.of_nat (length content) in
   (if contentSize >? maxFileSize (config this)
    then throw (Error (msg_content_too_large contentSize (maxFileSize (config this))))
    else ret tt) ;;
   (if withBackup
    then try_catch
           (await (fs_access safePath) ;; createBackup safePath)
           (λ error, ret tt)
    else ret tt) ;;
   await (fs_mkdir (path.dirname safePath)) ;;
   await (fs_writeFile safePath content))%async.

(** [writeFile (filePath, content, createBackup)] *)
Definition writeFile (filePath content : str) (withBackup : bool) : Async unit :=
  (this <- read_this ;;
   if activeOperations this >=? maxConcurrentOperations (config this)
   then throw (Error msg_too_many)
   else
     activeOperations_incr ;;
     try_finally
       (try_catch (writeFile_body filePath content withBackup)
          (λ error, throw (Error (msg_failed_write filePath (message error)))))
       activeOperations_decr)%async.

Definition partialWriteFile_body (filePath oldContent newContent : str) : Async unit :=
  (this <- read_this ;;
   safePath <- lift (validatePath cwd this filePath true) ;;
   currentContent <- await (fs_readFile safePath) ;;
   let oldIndex := indexOf currentContent oldContent 0 in
   (if oldIndex =? -1 then throw (Error msg_no_match) else ret tt) ;;
   let secondOccurrence := indexOf currentContent oldContent (oldIndex + 1) in
   (if negb (secondOccurrence =? -1) then throw (Error msg_ambiguous) else ret tt) ;;
   let updatedContent :=
     substring currentContent 0 oldIndex
     ++ newContent
     ++ substring_from currentContent (oldIndex + Z.of_nat (length oldContent)) in
   let contentSize := Z.of_nat (length updatedContent) in
   this <- read_this ;;
   (if contentSize >? maxFileSize (config this)
    then throw (Error (msg_updated_too_large contentSize (maxFileSize (config this))))
    else ret tt) ;;
   createBackup safePath ;;
   await (fs_writeFile safePath updatedContent))%async.

(** [partialWriteFile (filePath, oldContent, newContent)] *)
Definition partialWriteFile (filePath oldContent newContent : str) : Async unit :=
  (this <- read_this ;;
   if activeOperations this >=? maxConcurrentOperations (config this)
   then throw (Error msg_too_many)
   else
     activeOperations_incr ;;
     try_finally
       (try_catch (partialWriteFile_body filePath oldContent newContent)
          (λ error, throw (Error (msg_failed_partial filePath (message error)))))
       activeOperations_decr)%async.

Definition deleteFile_body (filePath : str) (withBackup : bool) : Async unit :=
  (this <- read_this ;;
   safePath <- lift (validatePath cwd this filePath true) ;;
   try_catch (await (fs_access safePath))
     (λ accessError,
        if is_ENOENT accessError then throw (Error (msg_not_exist filePath))
        else throw accessError) ;;
   (if withBackup then createBackup safePath else ret tt) ;;
   await (fs_unlink safePath))%async.

Definition deleteFile_catch (filePath : str) (error : JsError) : Async unit :=
  if includes (message error) (js "does not exist")
     || includes (message error) (js "Access denied")
  then throw error
  else throw (Error (msg_failed_delete filePath (message error))).

(** [deleteFile (filePath, createBackup)] *)
Definition deleteFile (filePath : str) (withBackup : bool) : Async unit :=
  (this <- read_this ;;
   if activeOperations this >=? maxConcurrentOperations (config this)
   then throw (Error msg_too_many)
   else
     activeOperations_incr ;;
     try_finally
       (try_catch (deleteFile_body filePath withBackup) (deleteFile_catch filePath))
       activeOperations_decr)%async.

Definition renameFile_body (oldPath newPath : str) (withBackup : bool) : Async unit :=
  (this <- read_this ;;
   safeOldPath <- lift (validatePath cwd this oldPath true) ;;
   safeNewPath <- lift (validatePath cwd this newPath true) ;;
   try_catch (await (fs_access safeOldPath))
     (λ accessError,
        if is_ENOENT accessError then throw (Error (msg_source_not_exist oldPath))
        else throw accessError) ;;
   try_catch
     (await (fs_access safeNewPath) ;;
      throw (Error (msg_destination_exists newPath)))
     (λ accessError,
        if negb (is_ENOENT accessError) then throw accessError else ret tt) ;;
   (if withBackup then createBackup safeOldPath else ret tt) ;;
   await (fs_mkdir (path.dirname safeNewPath)) ;;
   await (fs_rename safeOldPath safeNewPath))%async.

Definition renameFile_catch (oldPath newPath : str) (error : JsError) : Async unit :=
  if includes (message error) (js "does not exist")
     || includes (message error) (js "already exists")
     || includes (message error) (js "Access denied")
  then throw error
  else throw (Error (msg_failed_rename oldPath newPath (message error))).

(** [renameFile (oldPath, newPath, createBackup)] *)
Definition renameFile (oldPath newPath : str) (withBackup : bool) : Async unit :=
  (this <- read_this ;;
   if activeOperations this >=? maxConcurrentOperations (config this)
   then throw (Error msg_too_many)
   else
     activeOperations_incr ;;
     try_finally
       (try_catch (renameFile_body oldPath newPath withBackup)
          (renameFile_catch oldPath newPath))
       activeOperations_decr)%async.

(** The size monitor of [streamWriteFile] in front of the write
    stream: each chunk is counted, then passed on or refused. Here a
    chunk that is passed on reaches the file before the next one is
    looked at. In the pipeline of the code the write stream buffers:
    when a chunk is refused, how many of the chunks passed on before it
    have reached the file is not fixed by the code (none, when the
    source delivers all its chunks at once). So nothing is stated below
    about the content of the target after a refused stream; for a
    stream that is passed on as a whole the two agree. *)
Fixpoint monitorStream (safePath : str) (maxFileSize : Z) (chunks : list str)
    (bytesWritten : Z) : Async unit :=
  match chunks with
  | [] => ret tt
  | chunk :: rest =>
      let bytesWritten := bytesWritten + Z.of_nat (length chunk) in
      if bytesWritten >? maxFileSize
      then throw (Error (msg_stream_too_large maxFileSize))
      else (await (stream_write safePath chunk) ;;
            monitorStream safePath maxFileSize rest bytesWritten)%async
  end.

Definition streamWriteFile_body (filePath : str) (contentStream : list str)
  : Async unit :=
  (this <- read_this ;;
   safePath <- lift (validatePath cwd this filePath true) ;;
   await (fs_mkdir (path.dirname safePath)) ;;
   await (stream_open safePath) ;;
   this <- read_this ;;
   let maxFileSize := maxFileSize (config this) in
   monitorStream safePath maxFileSize contentStream 0)%async.

(** [streamWriteFile (filePath, contentStream)]; the stream is the
    list of its chunks. *)
Definition streamWriteFile (filePath : str) (contentStream : list str) : Async unit :=
  (this <- read_this ;;
   if activeOperations this >=? maxConcurrentOperations (config this)
   then throw (Error msg_too_many)
   else
     activeOperations_incr ;;
     try_finally
       (try_catch (streamWriteFile_body filePath contentStream)
          (λ error, throw (Error (msg_failed_stream filePath (message error)))))
       activeOperations_decr)%async.

(** [getStats ()] *)
Definition getStats : Async (Z * str * Z) :=
  (this <- read_this ;;
   ret (activeOperations this, normalizedAllowedDir this, maxFileSize (config this)))%async.

End Manager.

(** ** Running a method to completion

    [run] performs every awaited call on the store as soon as it is
    requested: the method runs alone, with no other method in flight. *)

Record World := { manager : SecureFileManager; disk : Store }.

Section Run.

Variable dir_size : Z.

(** What [new Date ().toISOString ()] returns during the run. *)
Variable now : str.

Fixpoint run {A} (m : Async A) (w : World) : result A * World :=
  match m with
  | Settle r => (r, w)
  | Await c k =>
      let '(r, d) := perform dir_size c (disk w) in
      run (k r) {| manager := manager w; disk := d |}
  | ReadThis k => run (k (manager w)) w
  | WriteThis this k => run k {| manager := this; disk := disk w |}
  | DateNow k => run (k now) w
  end.

End Run.

(** ** Regular expressions

    The part of the ECMAScript pattern language (without the [u] flag)
    that [new RegExp (source, flags)] is modelled on: characters, [.],
    classes, escapes, groups, alternation, the quantifiers [*], [+], [?]
    and the anchors [^] and [$]. A source that uses anything else
    (braced quantifiers, look-around, back references, word boundaries,
    hexadecimal and control escapes) is reported as [Unmodelled]. The
    operators act on single bytes. *)
Module RegExp.

Inductive syntax_char : Type :=
| SCaret | SDollar | SBackslash | SDot | SStar | SPlus | SQuestion
| SLParen | SRParen | SLBracket | SRBracket | SLBrace | SRBrace | SBar.

(** The [SyntaxCharacter]s of the grammar. *)
Definition syntaxCharacter (c : ascii) : option syntax_char :=
  match c with
  | "^" => Some SCaret | "$" => Some SDollar | "\" => Some SBackslash
  | "." => Some SDot | "*" => Some SStar | "+" => Some SPlus
  | "?" => Some SQuestion | "(" => Some SLParen | ")" => Some SRParen
  | "[" => Some SLBracket | "]" => Some SRBracket | "{" => Some SLBrace
  | "}" => Some SRBrace | "|" => Some SBar
  | _ => None
  end%char.

Inductive charset : Type :=
| One (c : ascii)
| Range (lo hi : ascii)
| Digit | Word | Space
| Complement (s : charset).

Inductive re : Type :=
| Empty
| Char (c : ascii)
| AnyChar
| Class (negated : bool) (items : list charset)
| Seq (a b : re)
| Alt (a b : re)
| Star (a : re)
| Bol
| Eol.

Inductive parsed (A : Type) : Type :=
| Parsed (a : A)
| SyntaxError
| Unmodelled.
Arguments Parsed {A} a.
Arguments SyntaxError {A}.
Arguments Unmodelled {A}.

Definition pbind {A B} (p : parsed A) (k : A -> parsed B) : parsed B :=
  match p with
  | Parsed a => k a
  | SyntaxError => SyntaxError
  | Unmodelled => Unmodelled
  end.

(** What follows a backslash outside a class. *)
Definition parse_escape (s : str) : parsed (re * str) :=
  match s with
  | [] => SyntaxError
  | e :: s' =>
      match syntaxCharacter e with
      | Some _ => Parsed (Char e, s')
      | None =>
          match e with
          | "d" => Parsed (Class false [Digit], s')
          | "D" => Parsed (Class true [Digit], s')
          | "w" => Parsed (Class false [Word], s')
          | "W" => Parsed (Class true [Word], s')
          | "s" => Parsed (Class false [Space], s')
          | "S" => Parsed (Class true [Space], s')
          | "n" => Parsed (Char "010", s')
          | "r" => Parsed (Char "013", s')
          | "t" => Parsed (Char "009", s')
          | "v" => Parsed (Char "011", s')
          | "f" => Parsed (Char "012", s')
          | "b" | "B" | "c" | "x" | "u" | "k" | "p" | "P"
          | "0" | "1" | "2" | "3" | "4" | "5" | "6" | "7" | "8" | "9" => Unmodelled
          | _ => Parsed (Char e, s')
          end%char
      end
  end.

(** One member of a class, after the characters [first :: s]. *)
Definition parse_class_atom (first : ascii) (s : str) : parsed (charset * str) :=
  if ascii_eqb first "\"%char then
    match s with
    | [] => SyntaxError
    | e :: s' =>
        match e with
        | "d" => Parsed (Digit, s')
        | "D" => Parsed (Complement Digit, s')
        | "w" => Parsed (Word, s')
        | "W" => Parsed (Complement Word, s')
        | "s" => Parsed (Space, s')
        | "S" => Parsed (Complement Space, s')
        | "n" => Parsed (One "010", s')
        | "r" => Parsed (One "013", s')
        | "t" => Parsed (One "009", s')
        | "v" => Parsed (One "011", s')
        | "f" => Parsed (One "012", s')
        | "b" => Parsed (One "008", s')
        | "c" | "x" | "u" | "k" | "p" | "P"
        | "0" | "1" | "2" | "3" | "4" | "5" | "6" | "7" | "8" | "9" => Unmodelled
        | _ => Parsed (One e, s')
        end%char
    end
  else Parsed (One first, s).

(** The members of a class up to the closing bracket. *)
Fixpoint parse_class_items (fuel : nat) (s : str) : parsed (list charset * str) :=
  match fuel with
  | O => Unmodelled
  | S fuel =>
      match s with
      | [] => SyntaxError
      | c :: s1 =>
          if ascii_eqb c "]"%char then Parsed ([], s1)
          else
            pbind (parse_class_atom c s1) (λ '(lo, s2),
              match lo, s2 with
              | One l, "-"%char :: d :: s3 =>
                  if ascii_eqb d "]"%char
                  then Parsed ([One l; One "-"%char], s3)
                  else
                    pbind (parse_class_atom d s3) (λ '(hi, s4),
                      match hi with
                      | One h =>
                          if (nat_of_ascii h <? nat_of_ascii l)%nat then SyntaxError
                          else pbind (parse_class_items fuel s4)
                                 (λ '(items, s5), Parsed (Range l h :: items, s5))
                      | _ =>
                          pbind (parse_class_items fuel s4)
                            (λ '(items, s5),
                               Parsed (One l :: One "-"%char :: hi :: items, s5))
                      end)
              | _, _ =>
                  pbind (parse_class_items fuel s2)
                    (λ '(items, s3), Parsed (lo :: items, s3))
              end)
      end
  end.

Definition parse_class (s : str) : parsed (re * str) :=
  let '(negated, body) :=
    match s with
    | "^"%char :: s' => (true, s')
    | _ => (false, s)
    end in
  pbind (parse_class_items (S (length body)) body)
    (λ '(items, rest), Parsed (Class negated items, rest)).

Definition quantifiable (a : re) : bool :=
  match a with Bol | Eol => false | _ => true end.

(** The quantifier after the atom [a], if there is one; a following
    [?] only makes it lazy, which [test] does not see. *)
Definition parse_quantifier (a : re) (s : str) : parsed (re * str) :=
  let lazy_mark (s : str) : str :=
    match s with "?"%char :: s' => s' | _ => s end in
  match s with
  | "*"%char :: s' =>
      if quantifiable a then Parsed (Star a, lazy_mark s') else SyntaxError
  | "+"%char :: s' =>
      if quantifiable a then Parsed (Seq a (Star a), lazy_mark s') else SyntaxError
  | "?"%char :: s' =>
      if quantifiable a then Parsed (Alt a Empty, lazy_mark s') else SyntaxError
  | "{"%char :: _ => Unmodelled
  | _ => Parsed (a, s)
  end.

(** [Alternative] and [Disjunction] of the grammar: the terms up to
    the next [|] or [)], and the alternatives separated by [|]. *)
Fixpoint parse_alternative (fuel : nat) (s : str) : parsed (re * str) :=
  match fuel with
  | O => Unmodelled
  | S fuel =>
      match s with
      | [] => Parsed (Empty, [])
      | c :: s1 =>
          match syntaxCharacter c with
          | Some SBar | Some SRParen => Parsed (Empty, s)
          | sc =>
              pbind
                (match sc with
                 | None | Some SRBracket | Some SRBrace => Parsed (Char c, s1)
                 | Some SDot => Parsed (AnyChar, s1)
                 | Some SCaret => Parsed (Bol, s1)
                 | Some SDollar => Parsed (Eol, s1)
                 | Some SBackslash => parse_escape s1
                 | Some SLBracket => parse_class s1
                 | Some SLParen =>
                     match s1 with
                     | "?"%char :: ":"%char :: body =>
                         pbind (parse_disjunction fuel body) (λ '(r, s2),
                           match s2 with
                           | ")"%char :: s3 => Parsed (r, s3)
                           | _ => SyntaxError
                           end)
                     | "?"%char :: _ => Unmodelled
                     | body =>
                         pbind (parse_disjunction fuel body) (λ '(r, s2),
                           match s2 with
                           | ")"%char :: s3 => Parsed (r, s3)
                           | _ => SyntaxError
                           end)
                     end
                 | Some SLBrace => Unmodelled
                 | _ => SyntaxError
                 end)
                (λ '(a, s2),
                   pbind (parse_quantifier a s2) (λ '(t, s3),
                     pbind (parse_alternative fuel s3) (λ '(rest, s4),
                       Parsed (Seq t rest, s4))))
          end
      end
  end
with parse_disjunction (fuel : nat) (s : str) : parsed (re * str) :=
  match fuel with
  | O => Unmodelled
  | S fuel =>
      pbind (parse_alternative fuel s) (λ '(a, s1),
        match s1 with
        | "|"%char :: s2 =>
            pbind (parse_disjunction fuel s2) (λ '(b, s3), Parsed (Alt a b, s3))
        | _ => Parsed (a, s1)
        end)
  end.

(** The whole source must be one [Disjunction]. *)
Definition parse (source : str) : parsed re :=
  pbind (parse_disjunction (2 * length source + 2) source) (λ '(r, rest),
    match rest with
    | [] => Parsed r
    | _ => SyntaxError
    end).

(** [Canonicalize] under the [i] flag (without [u]), on the characters
    of the ASCII range: upper case. A byte above 127 is part of a
    character outside that range; it is left as it is, which is how
    such a character in a line compares with an ASCII character of the
    pattern (the specification keeps a character outside ASCII apart
    from every ASCII one). The folding of such characters among
    themselves is not modelled: under [ignoreCase] the statements
    about matching are for patterns of ASCII characters. *)
Definition canonicalize (ignoreCase : bool) (c : ascii) : ascii :=
  if ignoreCase then
    let n := nat_of_ascii c in
    if (Nat.leb 97 n && Nat.leb n 122)%bool then ascii_of_nat (n - 32) else c
  else c.

Definition is_line_terminator (c : ascii) : bool :=
  ascii_eqb c "010"%char || ascii_eqb c "013"%char.

Definition between (lo hi n : nat) : bool := (Nat.leb lo n && Nat.leb n hi)%bool.

Fixpoint in_charset (ignoreCase : bool) (cs : charset) (c : ascii) : bool :=
  match cs with
  | One d => ascii_eqb (canonicalize ignoreCase d) (canonicalize ignoreCase c)
  | Range lo hi =>
      existsb (λ n, ascii_eqb (canonicalize ignoreCase (ascii_of_nat n))
                              (canonicalize ignoreCase c))
              (seq (nat_of_ascii lo) (S (nat_of_ascii hi) - nat_of_ascii lo))
  | Digit => between 48 57 (nat_of_ascii c)
  | Word =>
      let n := nat_of_ascii c in
      between 48 57 n || between 65 90 n || between 97 122 n || Nat.eqb n 95
  | Space =>
      let n := nat_of_ascii c in
      between 9 13 n || Nat.eqb n 32
  | Complement s => negb (in_charset ignoreCase s c)
  end.

(** Backtracking matcher: [k] is what remains to be matched after
    [r]; [at_start] tells whether the position is the start of the
    input. A [Star] goes round only while input is consumed. *)
Fixpoint matcher (ignoreCase : bool) (r : re) (at_start : bool) (s : str)
    (k : bool -> str -> bool) {struct r} : bool :=
  match r with
  | Empty => k at_start s
  | Char c =>
      match s with
      | d :: s' =>
          ascii_eqb (canonicalize ignoreCase c) (canonicalize ignoreCase d)
          && k false s'
      | [] => false
      end
  | AnyChar =>
      match s with
      | d :: s' => negb (is_line_terminator d) && k false s'
      | [] => false
      end
  | Class negated items =>
      match s with
      | d :: s' =>
          xorb negated (existsb (λ cs, in_charset ignoreCase cs d) items)
          && k false s'
      | [] => false
      end
  | Seq a b =>
      matcher ignoreCase a at_start s (λ st s', matcher ignoreCase b st s' k)
  | Alt a b =>
      matcher ignoreCase a at_start s k || matcher ignoreCase b at_start s k
  | Star a =>
      (fix star (fuel : nat) (at_start : bool) (s : str) : bool :=
         k at_start s
         || match fuel with
            | O => false
            | S fuel' =>
                matcher ignoreCase a at_start s
                  (λ st s', (length s' <? length s)%nat && star fuel' st s')
            end) (length s) at_start s
  | Bol => at_start && k at_start s
  | Eol => match s with [] => k at_start s | _ => false end
  end.

(** A match of [r] that begins somewhere in [s]. *)
Fixpoint search (ignoreCase : bool) (r : re) (at_start : bool) (s : str) : bool :=
  matcher ignoreCase r at_start s (λ _ _, true)
  || match s with
     | [] => false
     | _ :: s' => search ignoreCase r false s'
     end.

(** A compiled regular expression. *)
Record t := { pattern : re; ignoreCase : bool }.

(** [regexp.test (s)], without the [g] and [y] flags. *)
Definition test (regexp : t) (s : str) : bool :=
  search (ignoreCase regexp) (pattern regexp) true s.

End RegExp.

(** [new RegExp (source, flags)] for the flags [''] and ['i']. *)
Definition new_RegExp (source : str) (ignoreCase : bool) : result RegExp.t :=
  match RegExp.parse source with
  | RegExp.Parsed r => Ok {| RegExp.pattern := r; RegExp.ignoreCase := ignoreCase |}
  | RegExp.SyntaxError =>
      Throw (Error (js "Invalid regular expression: /" ++ source ++ js "/"))
  | RegExp.Unmodelled =>
      Throw (Error (js "Regular expression outside the modelled language: /"
                    ++ source ++ js "/"))
  end.

(** The characters of the class [[.*+?^${}()|[\]\\]] of [searchInFile]. *)
Definition is_special_char (c : ascii) : bool :=
  bool_decide (c ∈ js ".*+?^${}()|[]\").

(** [pattern.replace (/[.*+?^${}()|[\]\\]/g, '\\$&')] *)
Definition escape_special (pattern : str) : str :=
  flat_map (λ c, if is_special_char c then ["\"%char; c] else [c]) pattern.

(** ** Search *)

Record Match := {
  lineNumber : Z;
  line : str;
  context : option (list str * list str)
}.

Record FileMatches := { file : str; matches : list Match }.

(** [lines.slice (start, end)] *)
Definition slice {A} (l : list A) (start finish : Z) : list A :=
  let len := Z.of_nat (length l) in
  let rel (i : Z) := if i <? 0 then Z.max (len + i) 0 else Z.min i len in
  let from := rel start in
  let to := rel finish in
  take (Z.to_nat (to - from)) (drop (Z.to_nat from) l).

(** The loop of [searchInFile] over [lines], from index [i] on; [rest]
    holds the lines from that index. *)
Fixpoint scan_lines (searchPattern : RegExp.t) (contextLines : Z)
    (lines : list str) (i : Z) (rest : list str) : list Match :=
  match rest with
  | [] => []
  | l :: rest' =>
      (if RegExp.test searchPattern l
       then
         [{| lineNumber := i + 1;
             line := l;
             context :=
               if contextLines >? 0 then
                 let beforeStart := Z.max 0 (i - contextLines) in
                 let afterEnd := Z.min (Z.of_nat (length lines) - 1) (i + contextLines) in
                 Some (slice lines beforeStart i, slice lines (i + 1) (afterEnd + 1))
               else None |}]
       else [])
      ++ scan_lines searchPattern contextLines lines (i + 1) rest'
  end.

(** [searchInFile (filePath, pattern, ignoreCase, contextLines)] *)
Definition searchInFile (filePath pattern : str) (ignoreCase : bool)
    (contextLines : Z) : Async (list Match) :=
  try_catch
    (content <- await (fs_readFile filePath) ;;
     let lines := split_on "010"%char content in
     searchPattern <- lift (new_RegExp (escape_special pattern) ignoreCase) ;;
     ret (scan_lines searchPattern contextLines lines 0 lines))%async
    (λ error, ret []).

(** The bound [maxDirectories] of [searchInDirectorySafe]. *)
Definition maxDirectories : nat := 1000.

Section Search.

Variable cwd : str.
Variables (pattern : str) (ignoreCase : bool) (contextLines : Z) (recursive : bool).

(** The loop over the entries of [currentDir]: the queue of
    directories and the results are the arrays the source pushes to. *)
Fixpoint process_entries (currentDir : str) (entries : list Dirent)
    (directoriesToProcess : list str) (results : list FileMatches)
  : Async (list str * list FileMatches) :=
  match entries with
  | [] => ret (directoriesToProcess, results)
  | entry :: rest =>
      (this <- read_this ;;
       let fullPath := path.join [currentDir; name entry] in
       let relativePath := path.relative cwd (normalizedAllowedDir this) fullPath in
       if isFile entry then
         if negb (isFileExtensionAllowed this (name entry))
            || isPathBlacklisted this relativePath
         then process_entries currentDir rest directoriesToProcess results
         else
           found <- try_catch
             (stats <- await (fs_stat fullPath) ;;
              this <- read_this ;;
              if size stats >? maxFileSize (config this) then ret []
              else
                matches <- searchInFile fullPath pattern ignoreCase contextLines ;;
                if (Z.of_nat (length matches) >? 0)
                then ret [{| file := relativePath; matches := matches |}]
                else ret [])
             (λ error, ret []) ;;
           process_entries currentDir rest directoriesToProcess (results ++ found)
       else if isDirectory entry && recursive then
         if isPathBlacklisted this relativePath
            || (startsWith (name entry) (js ".")
                && negb (bool_decide (name entry ∈ [js ".."; js "."])))
         then process_entries currentDir rest directoriesToProcess results
         else process_entries currentDir rest (directoriesToProcess ++ [fullPath]) results
       else process_entries currentDir rest directoriesToProcess results)%async
  end.

(** The [while] loop of [searchInDirectorySafe]; [budget] is
    [maxDirectories - processedCount]. In the source the loop over the
    entries is in the same [try] block as [readdir]; every statement of
    that loop that can throw has a handler of its own, so the outer
    handler is only reached from [readdir]. *)
Fixpoint walk (budget : nat) (directoriesToProcess : list str)
    (processedPaths : gset str) (results : list FileMatches)
  : Async (list FileMatches) :=
  match budget with
  | O => ret results
  | S budget =>
      match directoriesToProcess with
      | [] => ret results
      | currentDir :: queue =>
          (resolved <- try_catch
             (realPath <- await (fs_realpath currentDir) ;; ret (Some realPath))
             (λ error, ret None) ;;
           match resolved with
           | None => walk budget queue processedPaths results
           | Some realPath =>
               if bool_decide (realPath ∈ processedPaths)
               then walk budget queue processedPaths results
               else
                 let processedPaths := {[realPath]} ∪ processedPaths in
                 listed <- try_catch
                   (entries <- await (fs_readdir currentDir) ;; ret (Some entries))
                   (λ error, ret None) ;;
                 match listed with
                 | None => walk budget queue processedPaths results
                 | Some entries =>
                     pushed <- process_entries currentDir entries queue results ;;
                     walk budget (fst pushed) processedPaths (snd pushed)
                 end
           end)%async
      end
  end.

(** [searchInDirectorySafe (rootPath, ...)]; the value is the final
    content of [results]. *)
Definition searchInDirectorySafe (rootPath : str) (results : list FileMatches)
  : Async (list FileMatches) :=
  walk maxDirectories [rootPath] ∅ results.

(** [searchInFiles (pattern, searchDir, options)] *)
Definition searchInFiles (searchDir : str) : Async (list FileMatches) :=
  try_catch
    (this <- read_this ;;
     searchPath <-
       (if str_eqb searchDir [] || str_eqb searchDir (js ".")
        then ret (normalizedAllowedDir this)
        else lift (validatePath cwd this searchDir false)) ;;
     searchInDirectorySafe searchPath [])%async
    (λ error, throw (Error (js "Failed to search in files: " ++ message error))).

End Search.

(** ** Traces

    What a method does when the file system, [this] and the clock answer
    in some way: the calls it awaits, in order, with their answers. *)

Inductive event : Type :=
| Called {B : Type} (c : fs_call B) (r : result B).

Inductive unfolds {A} : Async A -> list event -> result A -> Prop :=
| unfolds_settle r : unfolds (Settle r) [] r
| unfolds_await {B} (c : fs_call B) k r t res :
    unfolds (k r) t res -> unfolds (Await c k) (Called c r :: t) res
| unfolds_read k this t res :
    unfolds (k this) t res -> unfolds (ReadThis k) t res
| unfolds_write this k t res :
    unfolds k t res -> unfolds (WriteThis this k) t res
| unfolds_now k now t res :
    unfolds (k now) t res -> unfolds (DateNow k) t res.

(** The canonical paths of the directories whose entries a trace
    enumerates: [readdir] is called on a directory right after
    [realpath] has answered for it. *)
Fixpoint enumerated (t : list event) : list str :=
  match t with
  | Called (fs_realpath _) (Ok realPath) :: ((Called (fs_readdir _) _ :: _) as t') =>
      realPath :: enumerated t'
  | _ :: t' => enumerated t'
  | [] => []
  end.

Definition is_readdir (e : event) : bool :=
  match e with Called (fs_readdir _) _ => true | _ => false end.

Definition is_realpath (e : event) : bool :=
  match e with Called (fs_realpath _) _ => true | _ => false end.

(** ** Methods in flight

    Several methods can be in flight at once: one that is suspended at
    an [await] goes on when its call has been performed, and runs up to
    its next [await] or to its end without interruption. *)

(** Where a method stands after running without interruption. *)
Inductive progress (A : Type) : Type :=
| Finished (r : result A)
| Suspended {B : Type} (c : fs_call B) (k : result B -> Async A).
Arguments Finished {A} r.
Arguments Suspended {A B} c k.

Fixpoint advance {A} (now : str) (m : Async A) (this : SecureFileManager)
  : SecureFileManager * progress A :=
  match m with
  | Settle r => (this, Finished r)
  | Await c k => (this, Suspended c k)
  | ReadThis k => advance now (k this) this
  | WriteThis this' k => advance now k this'
  | DateNow k => advance now (k now) this
  end.

(** A call of a public method by the server. *)
Inductive Call : Type :=
| call_readFile (filePath : str)
| call_writeFile (filePath content : str) (createBackup : bool)
| call_partialWriteFile (filePath oldContent newContent : str)
| call_deleteFile (filePath : str) (createBackup : bool)
| call_renameFile (oldPath newPath : str) (createBackup : bool)
| call_streamWriteFile (filePath : str) (contentStream : list str)
| call_searchInFiles (pattern searchDir : str) (recursive ignoreCase : bool)
                     (contextLines : Z)
| call_getStats.

(** The methods that pass the admission gate. *)
Definition gated (c : Call) : bool :=
  match c with
  | call_searchInFiles _ _ _ _ _ | call_getStats => false
  | _ => true
  end.

(** A method in flight, whatever it resolves to. *)
Inductive Task : Type :=
| task {A : Type} (m : Async A).

Definition method (cwd : str) (c : Call) : Task :=
  match c with
  | call_readFile filePath => task (readFile cwd filePath)
  | call_writeFile filePath content b => task (writeFile cwd filePath content b)
  | call_partialWriteFile filePath o n => task (partialWriteFile cwd filePath o n)
  | call_deleteFile filePath b => task (deleteFile cwd filePath b)
  | call_renameFile oldPath newPath b => task (renameFile cwd oldPath newPath b)
  | call_streamWriteFile filePath chunks => task (streamWriteFile cwd filePath chunks)
  | call_searchInFiles pattern searchDir recursive ignoreCase contextLines =>
      task (searchInFiles cwd pattern ignoreCase contextLines recursive searchDir)
  | call_getStats => task getStats
  end.

Record Server := {
  server_this : SecureFileManager;
  server_disk : Store;
  in_flight : list Task
}.

(** The task runs without interruption from [this]; it stays in flight
    if it reaches an [await]. *)
Definition advance_task (now : str) (t : Task) (this : SecureFileManager)
  : SecureFileManager * option Task :=
  match t with
  | task m =>
      match advance now m this with
      | (this', Finished _) => (this', None)
      | (this', Suspended c k) => (this', Some (task (Await c k)))
      end
  end.

(** The call a suspended task waits for is performed and the task goes
    on with the answer. *)
Definition resume_task (dir_size : Z) (now : str) (t : Task)
    (this : SecureFileManager) (disk : Store)
  : option (SecureFileManager * Store * option Task) :=
  match t with
  | task (Await c k) =>
      let '(r, disk') := perform dir_size c disk in
      let '(this', t') := advance_task now (task (k r)) this in
      Some (this', disk', t')
  | _ => None
  end.

Inductive server_step (cwd : str) (dir_size : Z) : Server -> Server -> Prop :=
| step_call (c : Call) (now : str) (s : Server) this' t' :
    advance_task now (method cwd c) (server_this s) = (this', t') ->
    server_step cwd dir_size s
      {| server_this := this';
         server_disk := server_disk s;
         in_flight := option_list t' ++ in_flight s |}
| step_resume (before after : list Task) (t : Task) (now : str) (s : Server)
    this' disk' t' :
    in_flight s = before ++ t :: after ->
    resume_task dir_size now t (server_this s) (server_disk s) = Some (this', disk', t') ->
    server_step cwd dir_size s
      {| server_this := this';
         server_disk := disk';
         in_flight := before ++ option_list t' ++ after |}.

(** The states the server can be in: from a freshly constructed
    manager, over any store, after any number of steps. *)
Inductive reachable (cwd : str) (dir_size : Z) (cfg : SecurityConfig) : Server -> Prop :=
| reachable_init disk :
    reachable cwd dir_size cfg
      {| server_this := new_SecureFileManager cwd cfg;
         server_disk := disk;
         in_flight := [] |}
| reachable_step s s' :
    reachable cwd dir_size cfg s -> server_step cwd dir_size s s' ->
    reachable cwd dir_size cfg s'.

(** A method that does not assign to [this]. *)
Inductive never_writes {A} : Async A -> Prop :=
| nw_settle r : never_writes (Settle r)
| nw_await {B} (c : fs_call B) k :
    (∀ r, never_writes (k r)) -> never_writes (Await c k)
| nw_read k : (∀ this, never_writes (k this)) -> never_writes (ReadThis k)
| nw_now k : (∀ now, never_writes (k now)) -> never_writes (DateNow k).

(** A method that holds a slot of the admission gate: on every path it
    assigns to [this] exactly once, at its very end, to give the slot
    back. *)
Inductive releases_once {A} : Async A -> Prop :=
| ro_release r :
    releases_once
      (ReadThis (λ this,
         WriteThis (set_activeOperations (activeOperations this - 1) this) (Settle r)))
| ro_await {B} (c : fs_call B) k :
    (∀ r, releases_once (k r)) -> releases_once (Await c k)
| ro_read k : (∀ this, releases_once (k this)) -> releases_once (ReadThis k)
| ro_now k : (∀ now, releases_once (k now)) -> releases_once (DateNow k).

(** A task that holds a slot, and one that never touches the counter. *)
Definition holds_slot (t : Task) : Prop :=
  match t with task m => releases_once m end.

Definition slot_free (t : Task) : Prop :=
  match t with task m => never_writes m end.

(** The number of slots the tasks in flight hold. *)
Inductive slots_held : list Task -> Z -> Prop :=
| slots_nil : slots_held [] 0
| slots_holder t l n :
    holds_slot t -> slots_held l n -> slots_held (t :: l) (n + 1)
| slots_free t l n :
    slot_free t -> slots_held l n -> slots_held (t :: l) n.

(** What holds of the server in every state: the configuration and the
    root are those of the constructor, and the counter is the number of
    slots held by the methods in flight, within the maximum. *)
Definition gate_invariant (cwd : str) (cfg : SecurityConfig) (s : Server) : Prop :=
  config (server_this s) = cfg
  ∧ normalizedAllowedDir (server_this s)
    = normalizedAllowedDir (new_SecureFileManager cwd cfg)
  ∧ slots_held (in_flight s) (activeOperations (server_this s))
  ∧ activeOperations (server_this s) <= maxConcurrentOperations cfg.

(** The number of places where [p] occurs in [s]. *)
Fixpoint occurrences (s p : str) : nat :=
  (if startsWith s p then 1 else 0)
  + match s with
    | [] => 0
    | _ :: s' => occurrences s' p
    end.

(** The admission gate around the body of a method, as each gated
    method spells it out. *)
Definition gate {A} (body : Async A) : Async A :=
  (this <- read_this ;;
   if activeOperations this >=? maxConcurrentOperations (config this)
   then throw (Error msg_too_many)
   else
     activeOperations_incr ;;
     try_finally body activeOperations_decr)%async.

(** The world in which the body of an admitted method starts. *)
Definition admitted (w : World) : World :=
  {| manager := set_activeOperations (activeOperations (manager w) + 1) (manager w);
     disk := disk w |}.

(** ** A small workspace for the examples *)

Definition demo_cwd : str := js "/srv".

Definition demo_config : SecurityConfig := {|
  allowedDirectory := js "ws";
  maxFileSize := 10;
  maxConcurrentOperations := 2;
  allowedExtensions := [js ".txt"; js ""];
  blacklistedPaths := [js ".."; js ".env."]
|}.

(** The root directory exists and holds the file [a.txt]. *)
Definition demo_disk : Store :=
  list_to_map [(js "/", Directory); (js "/srv", Directory); (js "/srv/ws", Directory);
               (js "/srv/ws/a.txt", File (js "abcabd"))].

Definition demo_world : World :=
  {| manager := new_SecureFileManager demo_cwd demo_config; disk := demo_disk |}.

Definition demo_now : str := js "2026-11-01T10:00:00.000Z".

(** Where [createBackup] puts the copy of [filePath] when the clock
    reads [now]. *)
Definition backupPath_of (this : SecureFileManager) (now filePath : str) : str :=
  path.join [path.join [normalizedAllowedDir this; js ".backups"];
             path.basename filePath ++ js "." ++ replace_colon_dot now ++ js ".backup"].

(** The workspace after [writeFile (".backups", "x")]: the name that
    [createBackup] wants for its directory is taken by a regular file. *)
Definition blocked_world : World :=
  snd (run 4096 demo_now (writeFile demo_cwd (js ".backups") (js "x") false) demo_world).


(** The regular expression that matches the characters of [p] one after
    the other and nothing else. *)
Definition literal (p : str) : RegExp.re :=
  fold_right (λ c r, RegExp.Seq (RegExp.Char c) r) RegExp.Empty p.




(** [unfolds], read off the method: the traces of a method by recursion
    on it. *)
Fixpoint traces {A} (m : Async A) (t : list event) (res : result A) : Prop :=
  match m with
  | Settle r => t = [] ∧ res = r
  | Await c k => ∃ r t', t = Called c r :: t' ∧ traces (k r) t' res
  | ReadThis k => ∃ this, traces (k this) t res
  | WriteThis _ k => traces k t res
  | DateNow k => ∃ now, traces (k now) t res
  end.

(** A stretch of a trace without [realpath] and [readdir]. *)
Definition quiet (t : list event) : Prop :=
  Forall (λ e, is_realpath e = false ∧ is_readdir e = false) t.

Definition starts_with_readdir (t : list event) : bool :=
  match t with e :: _ => is_readdir e | [] => false end.

(** ** Queries

    The calls that ask the file system something and leave the store as
    it is. *)
Definition is_query {B} (c : fs_call B) : bool :=
  match c with
  | fs_access _ | fs_stat _ | fs_readFile _ | fs_realpath _ | fs_readdir _ => true
  | _ => false
  end.

(** A method that awaits queries only. *)
Inductive only_queries {A} : Async A -> Prop :=
| oq_settle r : only_queries (Settle r)
| oq_await {B} (c : fs_call B) k :
    is_query c = true -> (∀ r, only_queries (k r)) -> only_queries (Await c k)
| oq_read k : (∀ this, only_queries (k this)) -> only_queries (ReadThis k)
| oq_write this k : only_queries k -> only_queries (WriteThis this k)
| oq_now k : (∀ now, only_queries (k now)) -> only_queries (DateNow k).

(** A task run alone to completion: the error it fails with, if any, and
    the world it leaves. *)
Definition run_task (dir_size : Z) (now : str) (t : Task) (w : World)
  : option JsError * World :=
  match t with
  | task m =>
      match run dir_size now m w with
      | (Ok _, w') => (None, w')
      | (Throw e, w') => (Some e, w')
      end
  end.

(** ** What a method can return

    Every value the method can return, whatever the file system answers
    and whatever [this] holds, satisfies [P]. *)
Inductive returns {A} (P : A -> Prop) : Async A -> Prop :=
| rt_ok a : P a -> returns P (Settle (Ok a))
| rt_throw e : returns P (Settle (Throw e))
| rt_await {B} (c : fs_call B) k : (∀ r, returns P (k r)) -> returns P (Await c k)
| rt_read k : (∀ this, returns P (k this)) -> returns P (ReadThis k)
| rt_write this k : returns P k -> returns P (WriteThis this k)
| rt_now k : (∀ now, returns P (k now)) -> returns P (DateNow k).

(** A match as [searchInFile] builds it: a line number from one on, and
    a context that is present exactly when lines of context were asked
    for, with at most that many lines on each side and as many lines
    before as there are, up to that number. *)
Definition well_formed_match (contextLines : Z) (m : Match) : Prop :=
  1 <= lineNumber m
  ∧ match context m with
    | None => contextLines <= 0
    | Some (before, after) =>
        0 < contextLines
        ∧ Z.of_nat (length before) = Z.min contextLines (lineNumber m - 1)
        ∧ Z.of_nat (length after) <= contextLines
    end.

(** ** Listing a directory *)

(** An entry of the result of [listFiles]. The store keeps no times, so
    the field [modified] is not represented. *)
Record FileInfo := { info_name : str; info_size : Z }.

Section Listing.

Variable cwd : str.

(** The loop of [listFiles] over the entries of the directory. *)
Fixpoint list_entries (safePath : str) (entries : list Dirent)
    (fileInfos : list FileInfo) : Async (list FileInfo) :=
  match entries with
  | [] => ret fileInfos
  | entry :: rest =>
      (this <- read_this ;;
       if isFile entry then
         if negb (isFileExtensionAllowed this (name entry))
         then list_entries safePath rest fileInfos
         else if isPathBlacklisted this (name entry)
         then list_entries safePath rest fileInfos
         else
           pushed <- try_catch
             (let filePath := path.join [safePath; name entry] in
              stats <- await (fs_stat filePath) ;;
              ret [{| info_name := name entry; info_size := size stats |}])
             (λ error, ret []) ;;
           list_entries safePath rest (fileInfos ++ pushed)
       else list_entries safePath rest fileInfos)%async
  end.

Definition msg_failed_list (dirPath msg : str) : str :=
  js "Failed to list files in '" ++ dirPath ++ js "': " ++ msg.

(** [listFiles (dirPath)] *)
Definition listFiles (dirPath : str) : Async (list FileInfo) :=
  try_catch
    (this <- read_this ;;
     safePath <-
       (if str_eqb dirPath [] || str_eqb dirPath (js ".")
        then ret (normalizedAllowedDir this)
        else lift (validatePath cwd this dirPath false)) ;;
     entries <- await (fs_readdir safePath) ;;
     list_entries safePath entries [])%async
    (λ error, throw (Error (msg_failed_list dirPath (message error)))).

End Listing.

(** ** Methods that do not look at the counter

    What such a method reads of [this] it uses in the same way whatever
    [activeOperations] holds, and it never assigns to [this]. *)
Inductive counter_blind {A} : Async A -> Prop :=
| cb_settle r : counter_blind (Settle r)
| cb_await {B} (c : fs_call B) k :
    (∀ r, counter_blind (k r)) -> counter_blind (Await c k)
| cb_read k :
    (∀ this n, k (set_activeOperations n this) = k this) ->
    (∀ this, counter_blind (k this)) -> counter_blind (ReadThis k)
| cb_now k : (∀ now, counter_blind (k now)) -> counter_blind (DateNow k).

(** The world with the counter at [n]. *)
Definition with_counter (n : Z) (w : World) : World :=
  {| manager := set_activeOperations n (manager w); disk := disk w |}.

(** What [listFiles] makes of one entry of the directory [safePath]. *)
Definition listed (dir_size : Z) (this : SecureFileManager) (disk : Store)
    (safePath : str) (entry : Dirent) : list FileInfo :=
  if isFile entry && isFileExtensionAllowed this (name entry)
     && negb (isPathBlacklisted this (name entry))
  then
    match fst (perform dir_size (fs_stat (path.join [safePath; name entry])) disk) with
    | Ok stats => [{| info_name := name entry; info_size := size stats |}]
    | Throw _ => []
    end
  else [].

(** * Properties *)

(** ** Strings *)

Lemma ascii_eqb_true a b : ascii_eqb a b = true <-> a = b.
Proof. unfold ascii_eqb. apply bool_decide_eq_true. Qed.

Lemma ascii_eqb_refl a : ascii_eqb a a = true.
Proof. by apply ascii_eqb_true. Qed.

Lemma str_eqb_true a b : str_eqb a b = true <-> a = b.
Proof. unfold str_eqb. apply bool_decide_eq_true. Qed.

Lemma str_eqb_false a b : str_eqb a b = false <-> a ≠ b.
Proof. unfold str_eqb. apply bool_decide_eq_false. Qed.

Lemma str_eqb_refl a : str_eqb a a = true.
Proof. by apply str_eqb_true. Qed.

Lemma startsWith_prefix (s p : str) : startsWith s p = true <-> p `prefix_of` s.
Proof.
  revert s. induction p as [|c p IH]; intros s; simpl.
  - split; [intros _; apply prefix_nil | done].
  - destruct s as [|d s].
    + split; [done | intros H; by apply prefix_nil_inv in H].
    + rewrite andb_true_iff, ascii_eqb_true, IH. split.
      * intros [-> H]. by apply prefix_cons.
      * intros H. split; [by apply prefix_cons_inv_1 in H | by apply prefix_cons_inv_2 in H].
Qed.

Lemma startsWith_app (s t : str) : startsWith (s ++ t) s = true.
Proof. apply startsWith_prefix. by apply prefix_app_r. Qed.

Lemma startsWith_refl (s : str) : startsWith s s = true.
Proof. by apply startsWith_prefix. Qed.

(** ** Paths *)

Lemma split_on_not_nil c s : split_on c s ≠ [].
Proof.
  destruct s as [|d s]; simpl; [done|].
  destruct (ascii_eqb d c); [done|]. by destruct (split_on c s).
Qed.

Lemma split_on_no_sep c s : Forall (λ seg, c ∉ seg) (split_on c s).
Proof.
  induction s as [|d s IH]; simpl.
  - repeat constructor. by apply not_elem_of_nil.
  - destruct (ascii_eqb d c) eqn:E.
    + constructor; [by apply not_elem_of_nil | done].
    + assert (d ≠ c) as Hd.
      { intros ->. by rewrite ascii_eqb_refl in E. }
      destruct (split_on c s) as [|seg rest].
      * repeat constructor. rewrite elem_of_cons, elem_of_nil. naive_solver.
      * inversion IH; subst. constructor; [|done].
        rewrite elem_of_cons. naive_solver.
Qed.

Lemma split_on_app c a b :
  split_on c (a ++ c :: b) = split_on c a ++ split_on c b.
Proof.
  induction a as [|d a IH]; simpl.
  - by rewrite ascii_eqb_refl.
  - destruct (ascii_eqb d c); [by rewrite IH|].
    rewrite IH. pose proof (split_on_not_nil c a).
    by destruct (split_on c a).
Qed.

Lemma split_on_plain c seg : c ∉ seg -> split_on c seg = [seg].
Proof.
  induction seg as [|d seg IH]; simpl; [done|].
  rewrite elem_of_cons. intros H.
  destruct (ascii_eqb d c) eqn:E.
  - apply ascii_eqb_true in E. naive_solver.
  - rewrite IH; naive_solver.
Qed.

Lemma split_join c segs :
  segs ≠ [] -> Forall (λ seg, c ∉ seg) segs ->
  split_on c (join_with [c] segs) = segs.
Proof.
  induction segs as [|seg rest IH]; [done|]. intros _ Hall.
  inversion Hall as [|? ? Hseg Hrest]; subst.
  destruct rest as [|seg' rest].
  - simpl. by apply split_on_plain.
  - change (join_with [c] (seg :: seg' :: rest))
      with (seg ++ c :: join_with [c] (seg' :: rest)).
    rewrite split_on_app, split_on_plain by done.
    rewrite IH; done.
Qed.



Ltac forall_segs :=
  repeat (constructor; [assumption|]);
  first [assumption | constructor].

Lemma push_segment_plain b stack seg :
  path.slash ∉ seg -> Forall plain_seg stack ->
  Forall plain_seg (path.push_segment b stack seg).
Proof.
  intros Hseg Hst. unfold path.push_segment.
  destruct (str_eqb seg []) eqn:E1; simpl; [done|].
  apply str_eqb_false in E1.
  destruct (str_eqb seg (js ".")); simpl; [done|].
  assert (plain_seg seg) by done.
  destruct (str_eqb seg (js "..")).
  - destruct stack as [|top below].
    + destruct b; forall_segs.
    + inversion Hst; subst.
      destruct (str_eqb top (js "..")); [destruct b|]; forall_segs.
  - forall_segs.
Qed.

Lemma push_segment_canonical stack seg :
  path.slash ∉ seg -> Forall canonical_seg stack ->
  Forall canonical_seg (path.push_segment false stack seg).
Proof.
  intros Hseg Hst. unfold path.push_segment.
  destruct (str_eqb seg []) eqn:E1; simpl; [done|].
  apply str_eqb_false in E1.
  destruct (str_eqb seg (js ".")) eqn:E2; simpl; [done|].
  apply str_eqb_false in E2.
  destruct (str_eqb seg (js "..")) eqn:E3.
  - destruct stack as [|top below]; [done|].
    inversion Hst; subst. by destruct (str_eqb top (js "..")).
  - apply str_eqb_false in E3. by constructor.
Qed.

Lemma fold_push_plain b segs stack :
  Forall (λ seg, path.slash ∉ seg) segs -> Forall plain_seg stack ->
  Forall plain_seg (fold_left (path.push_segment b) segs stack).
Proof.
  revert stack. induction segs as [|seg segs IH]; intros stack Hs Hst; simpl; [done|].
  inversion Hs; subst. apply IH; [done|]. by apply push_segment_plain.
Qed.

Lemma fold_push_canonical segs stack :
  Forall (λ seg, path.slash ∉ seg) segs -> Forall canonical_seg stack ->
  Forall canonical_seg (fold_left (path.push_segment false) segs stack).
Proof.
  revert stack. induction segs as [|seg segs IH]; intros stack Hs Hst; simpl; [done|].
  inversion Hs; subst. apply IH; [done|]. by apply push_segment_canonical.
Qed.

Lemma normalize_segments_plain b p :
  Forall plain_seg (path.normalize_segments b (split_on path.slash p)).
Proof.
  unfold path.normalize_segments. apply Forall_rev.
  apply fold_push_plain; [apply split_on_no_sep | constructor].
Qed.

Lemma normalize_segments_canonical p :
  Forall canonical_seg (path.normalize_segments false (split_on path.slash p)).
Proof.
  unfold path.normalize_segments. apply Forall_rev.
  apply fold_push_canonical; [apply split_on_no_sep | constructor].
Qed.

(** Canonical segments are pushed as they are. *)
Lemma fold_push_id b segs stack :
  Forall canonical_seg segs ->
  fold_left (path.push_segment b) segs stack = rev segs ++ stack.
Proof.
  revert stack. induction segs as [|seg segs IH]; intros stack Hs; simpl; [done|].
  inversion Hs as [|? ? [[Hne _] [Hd Hdd]] Hrest]; subst.
  rewrite IH by done. unfold path.push_segment.
  apply str_eqb_false in Hne, Hd, Hdd. rewrite Hne, Hd, Hdd. simpl.
  by rewrite <- app_assoc.
Qed.

Lemma join_with_cons sep seg segs :
  segs ≠ [] -> join_with sep (seg :: segs) = seg ++ sep ++ join_with sep segs.
Proof. by destruct segs. Qed.

Lemma join_with_snoc sep segs seg :
  segs ≠ [] -> join_with sep (segs ++ [seg]) = join_with sep segs ++ sep ++ seg.
Proof.
  induction segs as [|s0 segs IH]; [done|]. intros _.
  destruct segs as [|s1 segs]; [done|].
  change ((s0 :: s1 :: segs) ++ [seg]) with (s0 :: ((s1 :: segs) ++ [seg])).
  rewrite join_with_cons by done. rewrite IH by done.
  rewrite (join_with_cons sep s0 (s1 :: segs)) by done.
  by rewrite <- !app_assoc.
Qed.

(** A join of kept segments is not empty and does not end in a
    separator. *)
Lemma join_plain_last segs :
  segs ≠ [] -> Forall plain_seg segs ->
  ∃ c, last (join_with path.sep segs) = Some c ∧ c ≠ path.slash.
Proof.
  intros Hne Hall.
  destruct (exists_last Hne) as [front [seg ->]].
  apply Forall_app in Hall as [_ Hseg]. inversion Hseg as [|? ? [Hn Hs] _]; subst.
  destruct (exists_last Hn) as [chars [c ->]].
  exists c. split.
  - destruct front as [|f front].
    + simpl. by rewrite last_snoc.
    + rewrite join_with_snoc by done. rewrite !app_assoc. by rewrite last_snoc.
  - intros ->. apply Hs. apply elem_of_app. right. rewrite elem_of_cons. by left.
Qed.

Lemma normalizeString_last p b :
  path.normalizeString p b = []
  ∨ ∃ c, last (path.normalizeString p b) = Some c ∧ c ≠ path.slash.
Proof.
  unfold path.normalizeString.
  pose proof (normalize_segments_plain b p) as Hall.
  destruct (path.normalize_segments b (split_on path.slash p)) as [|seg segs] eqn:E.
  - by left.
  - right. by apply join_plain_last.
Qed.

(** [path.resolve] never returns the empty string, and its result ends
    in a separator only when it is the file-system root. *)
Lemma resolve_not_empty cwd args : path.resolve cwd args ≠ [].
Proof.
  unfold path.resolve.
  destruct (path.resolve_scan (rev args ++ [cwd]) []) as [rp [|]]; [done|].
  simpl. by destruct (path.normalizeString rp true).
Qed.

Lemma resolve_trailing cwd args :
  path.hasTrailingSep (path.resolve cwd args) = true ->
  path.resolve cwd args = js "/".
Proof.
  unfold path.resolve, path.hasTrailingSep.
  destruct (path.resolve_scan (rev args ++ [cwd]) []) as [rp abs].
  destruct (normalizeString_last rp (negb abs)) as [-> | [c [Hc Hne]]].
  - by destruct abs.
  - assert (path.normalizeString rp (negb abs) ≠ []) as Hn by (intros E; by rewrite E in Hc).
    destruct abs.
    + change (js "/" ++ path.normalizeString rp (negb true))
        with (path.slash :: path.normalizeString rp (negb true)).
      rewrite last_cons, Hc. intros H. apply ascii_eqb_true in H. done.
    + destruct (path.normalizeString rp (negb false)); [done|].
      rewrite Hc. intros H. apply ascii_eqb_true in H. done.
Qed.

(** ** Path validation *)


(** On the results of [path.resolve], the [startsWith] test of
    [validatePath] reads the root followed by a separator as a strict
    prefix. *)
Lemma startsWith_root_sep cwd args root :
  root ≠ [] ->
  startsWith (path.resolve cwd args) (root ++ path.sep) = true
  <-> strict_prefix (root ++ path.sep) (path.resolve cwd args).
Proof.
  intros Hroot. rewrite startsWith_prefix. unfold strict_prefix.
  split; [|by intros [H _]]. intros H. split; [done|].
  intros E. pose proof (resolve_trailing cwd args) as Ht.
  rewrite <- E in Ht. unfold path.hasTrailingSep, path.sep in Ht.
  change (js "/") with [path.slash] in Ht.
  rewrite last_snoc, ascii_eqb_refl in Ht. specialize (Ht eq_refl).
  by destruct root as [|c [|d root]].
Qed.

Lemma Throw_Error_inj {A} (a b : str) :
  @Throw A (Error a) = Throw (Error b) -> a = b.
Proof. intros H. by injection H. Qed.

Lemma msg_blacklisted_not_outside p : msg_blacklisted ≠ msg_outside_root p.
Proof. unfold msg_blacklisted, msg_outside_root. cbv [js list_ascii_of_string app]. discriminate. Qed.

Lemma msg_extension_not_outside ext p : msg_extension ext ≠ msg_outside_root p.
Proof. unfold msg_extension, msg_outside_root. cbv [js list_ascii_of_string app]. discriminate. Qed.

Lemma msg_extension_not_blacklisted ext : msg_extension ext ≠ msg_blacklisted.
Proof. unfold msg_extension, msg_blacklisted. cbv [js list_ascii_of_string app]. discriminate. Qed.


Lemma validatePath_unfold cwd this filePath isFileOperation :
  validatePath cwd this filePath isFileOperation =
  if within_root this
       (path.resolve cwd [normalizedAllowedDir this; path.normalize filePath])
  then validatePath_inside cwd this filePath isFileOperation
  else Throw (Error (msg_outside_root filePath)).
Proof.
  unfold validatePath, validatePath_inside, within_root.
  destruct (startsWith _ _); destruct (str_eqb (path.resolve _ _) _); simpl; try done;
    destruct (negb (str_eqb filePath []) && negb (str_eqb filePath (js "."))); simpl;
    try destruct (isPathBlacklisted _ _); simpl; try done;
    destruct isFileOperation; simpl; try done;
    by destruct (isFileExtensionAllowed _ _).
Qed.

Lemma validatePath_inside_not_outside cwd this filePath isFileOperation p :
  validatePath_inside cwd this filePath isFileOperation
  ≠ Throw (Error (msg_outside_root p)).
Proof.
  unfold validatePath_inside.
  destruct (_ && isPathBlacklisted _ _).
  - intros H. by apply Throw_Error_inj, msg_blacklisted_not_outside in H.
  - destruct (_ && negb (isFileExtensionAllowed _ _)); [|done].
    intros H. by apply Throw_Error_inj, msg_extension_not_outside in H.
Qed.

(** C1. A path whose normalized form, resolved against the root, is
    neither the root nor has the root followed by a separator as a strict
    prefix is refused by [validatePath] with the outside-the-root error;
    a path that resolves to the root or strictly inside it is never
    refused with that error. *)
Theorem validatePath_containment (cwd : str) (cfg : SecurityConfig) (n : Z)
    (filePath : str) (isFileOperation : bool) :
  let this := set_activeOperations n (new_SecureFileManager cwd cfg) in
  let root := normalizedAllowedDir this in
  let resolved := path.resolve cwd [root; path.normalize filePath] in
  (resolved ≠ root ∧ ¬ strict_prefix (root ++ path.sep) resolved ->
   validatePath cwd this filePath isFileOperation
   = Throw (Error (msg_outside_root filePath)))
  ∧ (resolved = root ∨ strict_prefix (root ++ path.sep) resolved ->
     ∀ p, validatePath cwd this filePath isFileOperation
          ≠ Throw (Error (msg_outside_root p))).
Proof.
  intros this root resolved.
  assert (root ≠ []) as Hroot by apply resolve_not_empty.
  pose proof (startsWith_root_sep cwd [root; path.normalize filePath] root Hroot) as Hsw.
  fold resolved in Hsw.
  rewrite validatePath_unfold. unfold within_root. fold root resolved.
  split.
  - intros [Hne Hnp].
    destruct (startsWith resolved (root ++ path.sep)) eqn:E.
    + exfalso. apply Hnp. by apply Hsw.
    + apply str_eqb_false in Hne. by rewrite Hne.
  - intros Hin p.
    assert (startsWith resolved (root ++ path.sep) || str_eqb resolved root = true) as ->.
    { apply orb_true_iff. destruct Hin as [-> | Hp].
      - right. apply str_eqb_refl.
      - left. by apply Hsw. }
    apply validatePath_inside_not_outside.
Qed.

(** The containment rule at work on the traversal attempts of the test
    suite and on a path inside the root. *)
Lemma validatePath_containment_witness :
  let cwd := js "/home/u" in
  let this := set_activeOperations 0 (new_SecureFileManager cwd (defaultConfig None)) in
  validatePath cwd this (js "subdir/../../outside.txt") true
  = Throw (Error (msg_outside_root (js "subdir/../../outside.txt")))
  ∧ validatePath cwd this (js "src/a.ts") true
    ≠ Throw (Error (msg_outside_root (js "src/a.ts"))).
Proof.
  intros cwd this. split.
  - apply (proj1 (validatePath_containment cwd (defaultConfig None) 0
                    (js "subdir/../../outside.txt") true)).
    split.
    + vm_compute. discriminate.
    + intros [Hp _]. apply startsWith_prefix in Hp. vm_compute in Hp. discriminate.
  - apply (proj2 (validatePath_containment cwd (defaultConfig None) 0
                    (js "src/a.ts") true)).
    right. split.
    + apply startsWith_prefix. vm_compute. reflexivity.
    + vm_compute. discriminate.
Defined.

Example normalize_ex1 : path.normalize (js "subdir/../../outside.txt") = js "../outside.txt".
Proof. reflexivity. Qed.
Example normalize_ex2 : path.normalize (js "./a//b/./c/") = js "a/b/c/".
Proof. reflexivity. Qed.
Example normalize_ex3 : path.normalize (js "/../a/..") = js "/".
Proof. reflexivity. Qed.
Example resolve_ex1 : path.resolve (js "/home/u") [js "/srv/ws"; js "../outside.txt"] = js "/srv/outside.txt".
Proof. reflexivity. Qed.
Example resolve_ex2 : path.resolve (js "/home/u") [js "./workspace"] = js "/home/u/workspace".
Proof. reflexivity. Qed.
Example relative_ex1 : path.relative (js "/") (js "/srv/ws") (js "/srv/ws/a/b.txt") = js "a/b.txt".
Proof. reflexivity. Qed.
Example relative_ex2 : path.relative (js "/") (js "/srv/ws/x") (js "/srv/a") = js "../../a".
Proof. reflexivity. Qed.
Example extname_ex : map path.extname [js ".env"; js ".env.local"; js "a.TXT"; js ".."; js "a."; js "Makefile"; js "..x"]
  = [js ""; js ".local"; js ".TXT"; js ""; js "."; js ""; js ".x"].
Proof. reflexivity. Qed.
Example dirname_ex : map path.dirname [js "/srv/ws/a.txt"; js "/a"; js "/"; js "a"; js "//a"; js "a/b/"]
  = [js "/srv/ws"; js "/"; js "/"; js "."; js "//"; js "a"].
Proof. reflexivity. Qed.
Example join_ex : path.join [js "/srv/ws"; js ".backups"] = js "/srv/ws/.backups".
Proof. reflexivity. Qed.
Example indexOf_ex : (indexOf (js "abcabc") (js "bc") 0, indexOf (js "abcabc") (js "bc") 2, indexOf (js "abc") (js "x") 0, indexOf [] [] 1, indexOf (js "ab") [] 5)
  = (1, 4, -1, 0, 2).
Proof. reflexivity. Qed.

Example validate_ex1 :
  let m := new_SecureFileManager (js "/home/u") (defaultConfig None) in
  (validatePath (js "/home/u") m (js "src/a.ts") true,
   validatePath (js "/home/u") m (js "../outside-workspace.txt") true,
   validatePath (js "/home/u") m (js ".env.local") true,
   validatePath (js "/home/u") m (js ".env.template") true,
   validatePath (js "/home/u") m (js "a.exe") true,
   validatePath (js "/home/u") m (js ".env") true)
  = (Ok (js "/home/u/workspace/src/a.ts"),
     Throw (Error (js "Access denied: Path '../outside-workspace.txt' is outside allowed directory")),
     Throw (Error (js "Access denied: Path contains blacklisted pattern")),
     Ok (js "/home/u/workspace/.env.template"),
     Throw (Error (js "Access denied: File extension '.exe' is not allowed")),
     Ok (js "/home/u/workspace/.env")).
Proof. vm_compute. reflexivity. Qed.

(** ** Canonical absolute paths *)

Lemma str_eqb_neq a b : a ≠ b -> str_eqb a b = false.
Proof. apply str_eqb_false. Qed.

Lemma push_segment_empty b stack : path.push_segment b stack [] = stack.
Proof. unfold path.push_segment. by rewrite str_eqb_refl. Qed.

Lemma push_segment_canonical_seg b stack seg :
  canonical_seg seg -> path.push_segment b stack seg = seg :: stack.
Proof.
  intros [[Hne _] [Hd Hdd]]. unfold path.push_segment.
  by rewrite !str_eqb_neq.
Qed.

Lemma split_abs_path segs rest :
  Forall canonical_seg segs ->
  ∃ pre, Forall (λ seg, seg = []) pre
         ∧ split_on path.slash (abs_path segs ++ path.slash :: rest)
           = pre ++ segs ++ split_on path.slash rest.
Proof.
  intros Hall. unfold abs_path.
  change ((path.slash :: join_with path.sep segs) ++ path.slash :: rest)
    with ([] ++ path.slash :: (join_with path.sep segs ++ path.slash :: rest)).
  rewrite split_on_app, split_on_app. simpl.
  destruct segs as [|seg segs].
  - exists [[]; []]. split; [by repeat constructor | done].
  - exists [[]]. split; [by repeat constructor|].
    change path.sep with [path.slash]. rewrite split_join; [done | done |].
    eapply Forall_impl; [exact Hall|]. by intros ? [[_ ?] _].
Qed.

Lemma fold_push_empties b pre stack :
  Forall (λ seg, seg = []) pre ->
  fold_left (path.push_segment b) pre stack = stack.
Proof.
  revert stack. induction pre as [|seg pre IH]; intros stack H; simpl; [done|].
  inversion H; subst. rewrite push_segment_empty. by apply IH.
Qed.

(** Normalizing a canonical absolute path followed by more segments
    keeps its segments and goes on from there. *)
Lemma normalizeString_abs_path segs rest b :
  Forall canonical_seg segs ->
  path.normalizeString (abs_path segs ++ path.slash :: rest) b
  = join_with path.sep
      (rev (fold_left (path.push_segment b) (split_on path.slash rest) (rev segs))).
Proof.
  intros Hall. unfold path.normalizeString, path.normalize_segments.
  destruct (split_abs_path segs rest Hall) as [pre [Hpre ->]].
  rewrite fold_left_app, (fold_push_empties b pre) by done.
  rewrite fold_left_app, (fold_push_id b segs) by done.
  by rewrite app_nil_r.
Qed.

Lemma isAbsolute_abs_path segs : path.isAbsolute (abs_path segs) = true.
Proof. unfold abs_path. simpl. apply ascii_eqb_refl. Qed.

Lemma resolve_one_absolute cwd a :
  path.isAbsolute a = true ->
  path.resolve cwd [a] = path.slash :: path.normalizeString (a ++ [path.slash]) false.
Proof.
  intros Ha. unfold path.resolve. simpl.
  destruct a as [|c a]; [done|]. by rewrite Ha.
Qed.

Lemma resolve_two_absolute cwd a b :
  path.isAbsolute a = true -> b ≠ [] -> path.isAbsolute b = false ->
  path.resolve cwd [a; b]
  = path.slash :: path.normalizeString (a ++ path.slash :: b ++ [path.slash]) false.
Proof.
  intros Ha Hb Hnb. unfold path.resolve. simpl.
  destruct b as [|d b]; [done|]. rewrite Hnb.
  destruct a as [|c a]; [done|]. by rewrite Ha.
Qed.

Lemma resolve_one_relative cwd a :
  path.isAbsolute cwd = true -> a ≠ [] -> path.isAbsolute a = false ->
  path.resolve cwd [a]
  = path.slash :: path.normalizeString (cwd ++ path.slash :: a ++ [path.slash]) false.
Proof.
  intros Hcwd Ha Hna. unfold path.resolve. simpl.
  destruct a as [|d a]; [done|]. rewrite Hna.
  destruct cwd as [|c cwd]; [done|]. by rewrite Hcwd.
Qed.

(** Resolving a canonical absolute path gives it back. *)
Lemma resolve_abs_path cwd segs :
  Forall canonical_seg segs -> path.resolve cwd [abs_path segs] = abs_path segs.
Proof.
  intros Hall. rewrite resolve_one_absolute by apply isAbsolute_abs_path.
  rewrite normalizeString_abs_path by done. simpl.
  by rewrite push_segment_empty, rev_involutive.
Qed.

(** Resolving one canonical segment against a canonical absolute path
    appends it. *)
Lemma resolve_abs_path_seg cwd segs seg :
  Forall canonical_seg segs -> canonical_seg seg ->
  path.resolve cwd [abs_path segs; seg] = abs_path (segs ++ [seg]).
Proof.
  intros Hall Hseg.
  assert (seg ≠ [] ∧ path.slash ∉ seg) as [Hne Hns] by apply Hseg.
  rewrite resolve_two_absolute; [|apply isAbsolute_abs_path|done|].
  - rewrite normalizeString_abs_path by done.
    change (seg ++ [path.slash]) with (seg ++ path.slash :: []).
    rewrite split_on_app, split_on_plain by done. simpl.
    rewrite push_segment_empty, push_segment_canonical_seg by done.
    simpl. by rewrite rev_involutive.
  - destruct seg as [|c seg]; [done|]. simpl.
    apply bool_decide_eq_false. intros ->. apply Hns. by left.
Qed.

Lemma segments_abs_path segs :
  Forall canonical_seg segs -> path.segments (abs_path segs) = segs.
Proof.
  intros Hall. unfold path.segments, abs_path.
  assert (filter (λ seg : str, seg ≠ []) segs = segs) as Hf.
  { clear -Hall. induction Hall as [|seg segs [[Hne _] _] _ IH]; [done|].
    rewrite filter_cons_True by done. by rewrite IH. }
  change (path.slash :: join_with path.sep segs)
    with ([] ++ path.slash :: join_with path.sep segs).
  rewrite split_on_app. simpl.
  destruct segs as [|seg segs]; [done|].
  change path.sep with [path.slash]. rewrite split_join; [| done |].
  - rewrite filter_cons_False by (intros H; by apply H). exact Hf.
  - eapply Forall_impl; [exact Hall|]. by intros ? [[_ ?] _].
Qed.

Lemma drop_common_app segs more :
  path.drop_common segs (segs ++ more) = ([], more).
Proof.
  induction segs as [|seg segs IH]; simpl; [by destruct more|].
  by rewrite str_eqb_refl.
Qed.

Lemma abs_path_snoc segs seg :
  segs ≠ [] -> abs_path (segs ++ [seg]) = abs_path segs ++ path.slash :: seg.
Proof.
  intros Hne. unfold abs_path. by rewrite join_with_snoc.
Qed.

Lemma abs_path_inj_length segs seg :
  segs ≠ [] -> abs_path segs ≠ abs_path (segs ++ [seg]).
Proof.
  intros Hne E. rewrite abs_path_snoc in E by done.
  apply (f_equal length) in E. rewrite length_app in E. simpl in E. lia.
Qed.

(** The path of an entry directly under a canonical root, relative to
    that root, is the entry's name; so is its base name. *)
Lemma relative_abs_path_seg cwd segs seg :
  segs ≠ [] -> Forall canonical_seg segs -> canonical_seg seg ->
  path.relative cwd (abs_path segs) (abs_path (segs ++ [seg])) = seg.
Proof.
  intros Hne Hall Hseg. unfold path.relative.
  assert (Forall canonical_seg (segs ++ [seg])) as Hall'.
  { apply Forall_app. split; [done | by constructor]. }
  rewrite str_eqb_neq by by apply abs_path_inj_length.
  rewrite !resolve_abs_path by done.
  rewrite str_eqb_neq by by apply abs_path_inj_length.
  rewrite !segments_abs_path by done.
  by rewrite drop_common_app.
Qed.

Lemma basename_abs_path_seg segs seg :
  Forall canonical_seg segs -> canonical_seg seg ->
  path.basename (abs_path (segs ++ [seg])) = seg.
Proof.
  intros Hall Hseg. unfold path.basename.
  rewrite segments_abs_path.
  - by rewrite rev_app_distr.
  - apply Forall_app. split; [done | by constructor].
Qed.

(** With an absolute working directory, [path.resolve] returns a
    canonical absolute path. *)
Lemma resolve_scan_absolute cwd l acc :
  path.isAbsolute cwd = true ->
  ∃ rp, path.resolve_scan (l ++ [cwd]) acc = (rp, true).
Proof.
  intros Hcwd. revert acc. induction l as [|p l IH]; intros acc; simpl.
  - destruct cwd as [|c cwd]; [done|]. rewrite Hcwd. by eexists.
  - destruct p as [|c p]; [apply IH|].
    destruct (path.isAbsolute (c :: p)); [by eexists | apply IH].
Qed.

Lemma resolve_canonical cwd args :
  path.isAbsolute cwd = true ->
  ∃ segs, Forall canonical_seg segs ∧ path.resolve cwd args = abs_path segs.
Proof.
  intros Hcwd. unfold path.resolve.
  destruct (resolve_scan_absolute cwd (rev args) [] Hcwd) as [rp ->].
  exists (path.normalize_segments false (split_on path.slash rp)).
  split; [apply normalize_segments_canonical | done].
Qed.

(** The root chosen when [MCP_WORKSPACE_DIR] is not set is a directory
    named [workspace], hence not the root of the file system. *)
Lemma default_root_segments cwd :
  path.isAbsolute cwd = true ->
  ∃ segs, Forall canonical_seg segs
          ∧ normalizedAllowedDir (new_SecureFileManager cwd (defaultConfig None))
            = abs_path (segs ++ [js "workspace"]).
Proof.
  intros Hcwd.
  exists (rev (fold_left (path.push_segment false) (split_on path.slash cwd) [])).
  split.
  { apply Forall_rev, fold_push_canonical; [apply split_on_no_sep | constructor]. }
  assert (canonical_seg (js "workspace")) as Hw.
  { repeat split; try done. vm_compute. intros H.
    repeat (apply elem_of_cons in H as [H|H]; [done|]). by apply elem_of_nil in H. }
  unfold new_SecureFileManager, normalizedAllowedDir.
  change (path.normalize (allowedDirectory (defaultConfig None))) with (js "workspace").
  rewrite resolve_one_relative by done.
  unfold path.normalizeString, path.normalize_segments.
  rewrite split_on_app, fold_left_app.
  change (split_on path.slash (js "workspace" ++ [path.slash]))
    with [js "workspace"; []].
  simpl fold_left. rewrite push_segment_empty, push_segment_canonical_seg by done.
  done.
Qed.

(** ** The default policies on [.env] *)

Lemma canonical_dot_env : canonical_seg (js ".env").
Proof.
  repeat split; try done. vm_compute. intros H.
  repeat (apply elem_of_cons in H as [H|H]; [done|]). by apply elem_of_nil in H.
Qed.

Lemma default_policies_dot_env env (this : SecureFileManager) :
  config this = defaultConfig env ->
  isPathBlacklisted this (js ".env") = false
  ∧ isFileExtensionAllowed this (js ".env") = true.
Proof.
  intros Hcfg. unfold isPathBlacklisted, isFileExtensionAllowed. rewrite Hcfg.
  split; vm_compute; reflexivity.
Qed.

(** A name directly under a canonical root other than [/]: the
    containment test passes and the later checks see the name itself. *)
Lemma validatePath_dot_env_under cwd this segs :
  normalizedAllowedDir this = abs_path segs ->
  segs ≠ [] -> Forall canonical_seg segs ->
  validatePath cwd this (js ".env") true
  = if isPathBlacklisted this (js ".env") then Throw (Error msg_blacklisted)
    else if negb (isFileExtensionAllowed this (js ".env"))
         then Throw (Error (msg_extension (toLowerCase (path.extname (js ".env")))))
         else Ok (normalizedAllowedDir this ++ js "/.env").
Proof.
  intros Hroot Hne Hall. pose proof canonical_dot_env as Henv.
  rewrite validatePath_unfold. unfold within_root, validatePath_inside.
  change (path.normalize (js ".env")) with (js ".env").
  rewrite Hroot, resolve_abs_path_seg by done.
  rewrite relative_abs_path_seg, basename_abs_path_seg by done.
  rewrite abs_path_snoc by done.
  assert (startsWith (abs_path segs ++ path.slash :: js ".env")
                     (abs_path segs ++ path.sep) = true) as ->.
  { apply startsWith_prefix. exists (js ".env"). by rewrite <- app_assoc. }
  simpl. by destruct (isPathBlacklisted this (js ".env")).
Qed.

(** C9. Under the default configuration a file named exactly [.env]
    passes path validation as a file operation: the [.env.] prefix policy
    only matches file names that start with [.env.], so not [.env]; no
    other blacklist entry matches it; and its extension is the empty
    string, a member of the allowed extensions. The root is the one the
    constructor computes, for any absolute working directory; when
    [MCP_WORKSPACE_DIR] is set, the root it names must not be [/], under
    which the containment test admits nothing but the root itself. *)
Theorem dot_env_passes_validation (cwd : str) (MCP_WORKSPACE_DIR : option str) (n : Z) :
  let this := set_activeOperations n
                (new_SecureFileManager cwd (defaultConfig MCP_WORKSPACE_DIR)) in
  path.isAbsolute cwd = true ->
  MCP_WORKSPACE_DIR = None ∨ normalizedAllowedDir this ≠ js "/" ->
  validatePath cwd this (js ".env") true = Ok (normalizedAllowedDir this ++ js "/.env")
  ∧ (∀ fileName relativePath,
       blacklist_entry_hits fileName relativePath (js ".env.") = true ->
       startsWith fileName (js ".env.") = true)
  ∧ blacklist_entry_hits (js ".env") (js ".env") (js ".env.") = false
  ∧ isPathBlacklisted this (js ".env") = false
  ∧ path.extname (js ".env") = []
  ∧ [] ∈ allowedExtensions (config this).
Proof.
  intros this Hcwd Henv.
  assert (∃ segs, normalizedAllowedDir this = abs_path segs
                  ∧ segs ≠ [] ∧ Forall canonical_seg segs) as (segs & Hroot & Hne & Hall).
  { destruct (resolve_canonical cwd
                [path.normalize (allowedDirectory (defaultConfig MCP_WORKSPACE_DIR))] Hcwd)
      as (segs & Hall & Hroot).
    destruct Henv as [-> | Hnot].
    - destruct (default_root_segments cwd Hcwd) as (segs' & Hall' & Hroot').
      exists (segs' ++ [js "workspace"]). split; [exact Hroot'|]. split.
      + by destruct segs'.
      + apply Forall_app. split; [done|]. constructor; [|done].
        repeat split; try done. vm_compute. intros H.
        repeat (apply elem_of_cons in H as [H|H]; [done|]). by apply elem_of_nil in H.
    - exists segs. split; [exact Hroot|]. split; [|done].
      intros ->. apply Hnot. exact Hroot. }
  destruct (default_policies_dot_env MCP_WORKSPACE_DIR this eq_refl) as [Hbl Hext].
  split.
  { rewrite (validatePath_dot_env_under cwd this segs) by done.
    by rewrite Hbl, Hext. }
  split.
  { intros fileName relativePath. unfold blacklist_entry_hits.
    rewrite str_eqb_refl. rewrite !andb_true_iff. tauto. }
  split; [by vm_compute|]. split; [done|]. split; [by vm_compute|].
  by apply (bool_decide_unpack _).
Qed.

Lemma dot_env_passes_validation_witness :
  validatePath (js "/home/u")
    (set_activeOperations 0 (new_SecureFileManager (js "/home/u") (defaultConfig None)))
    (js ".env") true
  = Ok (js "/home/u/workspace/.env").
Proof.
  exact (proj1 (dot_env_passes_validation (js "/home/u") None 0 eq_refl (or_introl eq_refl))).
Defined.

(** ** An empty extension list *)

(** C10. When the configured list of allowed extensions is empty,
    [isFileExtensionAllowed] accepts every file name and [validatePath]
    never fails with the extension error, whatever the path. *)
Theorem empty_allowedExtensions_admits_all (cwd : str) (this : SecureFileManager)
    (filePath : str) (isFileOperation : bool) :
  allowedExtensions (config this) = [] ->
  (∀ fileName, isFileExtensionAllowed this fileName = true)
  ∧ ∀ ext, validatePath cwd this filePath isFileOperation
           ≠ Throw (Error (msg_extension ext)).
Proof.
  intros Hempty.
  assert (∀ fileName, isFileExtensionAllowed this fileName = true) as Hall.
  { intros fileName. unfold isFileExtensionAllowed. by rewrite Hempty. }
  split; [exact Hall|]. intros ext.
  rewrite validatePath_unfold. destruct (within_root _ _).
  - unfold validatePath_inside. destruct (_ && isPathBlacklisted _ _).
    + intros H. apply Throw_Error_inj in H. symmetry in H.
      by apply msg_extension_not_blacklisted in H.
    + by rewrite Hall, andb_false_r.
  - intros H. apply Throw_Error_inj in H. symmetry in H.
    by apply msg_extension_not_outside in H.
Qed.

Lemma empty_allowedExtensions_admits_all_witness :
  let cwd := js "/srv" in
  let cfg := {| allowedDirectory := js "ws"; maxFileSize := 100;
                maxConcurrentOperations := 2; allowedExtensions := [];
                blacklistedPaths := [js ".."] |} in
  isFileExtensionAllowed (new_SecureFileManager cwd cfg) (js "tool.exe") = true
  ∧ validatePath cwd (new_SecureFileManager cwd cfg) (js "tool.exe") true
    ≠ Throw (Error (msg_extension (js ".exe"))).
Proof.
  intros cwd cfg.
  pose proof (empty_allowedExtensions_admits_all cwd (new_SecureFileManager cwd cfg)
                (js "tool.exe") true eq_refl) as [H1 H2].
  split; [apply H1 | apply H2].
Defined.

Example validatePath_no_extension_list :
  let cwd := js "/srv" in
  let cfg := {| allowedDirectory := js "ws"; maxFileSize := 100;
                maxConcurrentOperations := 2; allowedExtensions := [];
                blacklistedPaths := [js ".."] |} in
  validatePath cwd (new_SecureFileManager cwd cfg) (js "tool.exe") true
  = Ok (js "/srv/ws/tool.exe").
Proof. vm_compute. reflexivity. Qed.

(** ** Running methods *)

Section RunLemmas.

Variable dir_size : Z.
Variable now : str.

Local Abbreviation run := (run dir_size now).

Lemma run_bind {A B} (m : Async A) (f : A -> Async B) w :
  run (bind m f) w =
  match run m w with
  | (Ok a, w') => run (f a) w'
  | (Throw e, w') => (Throw e, w')
  end.
Proof.
  revert w. induction m as [[a|e]|B' c k IH|k IH|this k IH|k IH]; intros w; simpl; try done.
  destruct (perform dir_size c (disk w)) as [r d]. apply IH.
Qed.

Lemma run_try_catch {A} (m : Async A) (h : JsError -> Async A) w :
  run (try_catch m h) w =
  match run m w with
  | (Ok a, w') => (Ok a, w')
  | (Throw e, w') => run (h e) w'
  end.
Proof.
  revert w. induction m as [[a|e]|B' c k IH|k IH|this k IH|k IH]; intros w; simpl; try done.
  destruct (perform dir_size c (disk w)) as [r d]. apply IH.
Qed.

Lemma run_try_finally {A} (m : Async A) (cleanup : Async unit) w :
  run (try_finally m cleanup) w =
  match run m w with
  | (r, w') =>
      match run cleanup w' with
      | (Ok _, w'') => (r, w'')
      | (Throw e, w'') => (Throw e, w'')
      end
  end.
Proof.
  revert w. induction m as [r|B' c k IH|k IH|this k IH|k IH]; intros w; simpl; try done.
  - rewrite run_bind. by destruct (run cleanup w) as [[[]|e] w'].
  - destruct (perform dir_size c (disk w)) as [r d]. apply IH.
Qed.

Lemma run_await {B} (c : fs_call B) w :
  run (await c) w =
  (fst (perform dir_size c (disk w)),
   {| manager := manager w; disk := snd (perform dir_size c (disk w)) |}).
Proof. unfold await. simpl. by destruct (perform dir_size c (disk w)). Qed.

Lemma run_read_this w : run read_this w = (Ok (manager w), w).
Proof. done. Qed.

Lemma run_lift {A} (r : result A) w : run (lift r) w = (r, w).
Proof. done. Qed.

Lemma run_ret {A} (a : A) w : run (ret a) w = (Ok a, w).
Proof. done. Qed.

Lemma run_throw {A} e w : run (@throw A e) w = (Throw e, w).
Proof. done. Qed.

Lemma run_date_now w : run (DateNow ret) w = (Ok now, w).
Proof. done. Qed.

Lemma run_incr w :
  run activeOperations_incr w =
  (Ok tt, {| manager := set_activeOperations (activeOperations (manager w) + 1) (manager w);
             disk := disk w |}).
Proof. done. Qed.

Lemma run_decr w :
  run activeOperations_decr w =
  (Ok tt, {| manager := set_activeOperations (activeOperations (manager w) - 1) (manager w);
             disk := disk w |}).
Proof. done. Qed.

(** A method that does not assign to [this] leaves the manager as it
    is. *)
Lemma run_never_writes {A} (m : Async A) w :
  never_writes m -> manager (snd (run m w)) = manager w.
Proof.
  intros H. revert w. induction H as [r|B' c k _ IH|k _ IH|k _ IH]; intros w; simpl; try done.
  destruct (perform dir_size c (disk w)) as [r d]. by rewrite IH.
Qed.

End RunLemmas.

Lemma never_writes_bind {A B} (m : Async A) (f : A -> Async B) :
  never_writes m -> (∀ a, never_writes (f a)) -> never_writes (bind m f).
Proof.
  intros Hm Hf. induction Hm as [[a|e]|B' c k _ IH|k _ IH|k _ IH]; simpl;
    try (constructor; done). apply Hf.
Qed.

Lemma never_writes_try_catch {A} (m : Async A) (h : JsError -> Async A) :
  never_writes m -> (∀ e, never_writes (h e)) -> never_writes (try_catch m h).
Proof.
  intros Hm Hh. induction Hm as [[a|e]|B' c k _ IH|k _ IH|k _ IH]; simpl;
    try (constructor; done). apply Hh.
Qed.

Lemma never_writes_await {B} (c : fs_call B) : never_writes (await c).
Proof. constructor. intros r. constructor. Qed.

Lemma never_writes_read_this : never_writes read_this.
Proof. constructor. intros this. constructor. Qed.

(** Closes goals [never_writes m] for the bodies of the methods. *)
Ltac never_writes_tac :=
  repeat first
    [ apply never_writes_await
    | apply never_writes_read_this
    | apply nw_settle
    | apply never_writes_bind; [|intros ?]
    | apply never_writes_try_catch; [|intros ?]
    | apply nw_now; intros ?
    | apply nw_read; intros ?
    | match goal with
      | |- never_writes (if ?c then _ else _) => destruct c
      | |- never_writes (match ?r with Ok _ => _ | Throw _ => _ end) => destruct r
      | |- never_writes (match ?o with Some _ => _ | None => _ end) => destruct o
      end ].

Lemma never_writes_createBackup filePath : never_writes (createBackup filePath).
Proof. unfold createBackup, ret, throw, lift. never_writes_tac. Qed.

Lemma never_writes_readFile_body cwd filePath :
  never_writes (try_catch (readFile_body cwd filePath) (readFile_catch filePath)).
Proof. unfold readFile_body, readFile_catch, ret, throw, lift. never_writes_tac. Qed.

Lemma never_writes_writeFile_body cwd filePath content b :
  never_writes (writeFile_body cwd filePath content b).
Proof.
  unfold writeFile_body, ret, throw, lift. never_writes_tac.
  all: try apply never_writes_createBackup.
Qed.

(** ** The admission gate, one method at a time *)

Lemma validatePath_set_activeOperations cwd n this filePath isFileOperation :
  validatePath cwd (set_activeOperations n this) filePath isFileOperation
  = validatePath cwd this filePath isFileOperation.
Proof. reflexivity. Qed.

Lemma set_activeOperations_same (m : SecureFileManager) n :
  n = activeOperations m -> set_activeOperations n m = m.
Proof. intros ->. by destruct m. Qed.

Lemma world_eta (w : World) : {| manager := manager w; disk := disk w |} = w.
Proof. by destruct w. Qed.

Lemma geb_false x y : x < y -> (x >=? y) = false.
Proof. intros H. rewrite Z.geb_leb. by apply Z.leb_gt. Qed.

Lemma geb_true x y : x >= y -> (x >=? y) = true.
Proof. intros H. apply Z.geb_le. lia. Qed.

Section GateLemmas.

Variable dir_size : Z.
Variable now : str.

Local Abbreviation run := (run dir_size now).

Lemma run_gate_rejected {A} (body : Async A) w :
  activeOperations (manager w) >= maxConcurrentOperations (config (manager w)) ->
  run (gate body) w = (Throw (Error msg_too_many), w).
Proof.
  intros H. unfold gate. rewrite run_bind, run_read_this.
  assert ((activeOperations (manager w) >=? maxConcurrentOperations (config (manager w))) = true)
    as -> by by apply geb_true.
  apply run_throw.
Qed.

(** An admitted method whose body does not assign to [this] gives its
    body's result and leaves the manager as it found it. *)
Lemma run_gate_admitted {A} (body : Async A) w :
  never_writes body ->
  activeOperations (manager w) < maxConcurrentOperations (config (manager w)) ->
  run (gate body) w =
  (fst (run body (admitted w)),
   {| manager := manager w; disk := disk (snd (run body (admitted w))) |}).
Proof.
  intros Hnw H. unfold gate. rewrite run_bind, run_read_this.
  assert ((activeOperations (manager w) >=? maxConcurrentOperations (config (manager w))) = false)
    as -> by by apply geb_false.
  rewrite run_bind, run_incr, run_try_finally. fold (admitted w).
  pose proof (run_never_writes dir_size now body (admitted w) Hnw) as Hm.
  destruct (run body (admitted w)) as [r w']. simpl in *.
  f_equal. f_equal. rewrite Hm.
  destruct (manager w) as [cfg root n]. unfold set_activeOperations. simpl.
  f_equal. lia.
Qed.

End GateLemmas.

(** ** Writing *)

Section WriteLemmas.

Variable cwd : str.
Variable dir_size : Z.
Variable now : str.

Local Abbreviation run := (run dir_size now).

Lemma run_writeFile_body_over_limit filePath content withBackup safePath w :
  validatePath cwd (manager w) filePath true = Ok safePath ->
  Z.of_nat (length content) > maxFileSize (config (manager w)) ->
  run (writeFile_body cwd filePath content withBackup) w
  = (Throw (Error (msg_content_too_large (Z.of_nat (length content))
                     (maxFileSize (config (manager w))))), w).
Proof.
  intros Hvalid Hsize. unfold writeFile_body.
  rewrite run_bind, run_read_this, run_bind, run_lift, Hvalid, run_bind.
  assert ((Z.of_nat (length content) >? maxFileSize (config (manager w))) = true)
    as -> by (apply Z.gtb_lt; lia).
  by rewrite run_throw.
Qed.

End WriteLemmas.

(** C5. For a valid path and a content whose size in bytes exceeds the
    configured maximum, [writeFile] fails and leaves the store and the
    manager as they were: no file is written, no backup taken and no
    directory created. The error is the size error (wrapped by
    [writeFile] like every error of its body) whenever the call is
    admitted by the gate, and the gate's own error otherwise. *)
Theorem writeFile_over_limit (cwd : str) (dir_size : Z) (now : str) (w : World)
    (filePath content : str) (withBackup : bool) (safePath : str) :
  validatePath cwd (manager w) filePath true = Ok safePath ->
  Z.of_nat (length content) > maxFileSize (config (manager w)) ->
  run dir_size now (writeFile cwd filePath content withBackup) w
  = (Throw (Error
       (if activeOperations (manager w) >=? maxConcurrentOperations (config (manager w))
        then msg_too_many
        else msg_failed_write filePath
               (msg_content_too_large (Z.of_nat (length content))
                  (maxFileSize (config (manager w)))))),
     w).
Proof.
  intros Hvalid Hsize.
  change (writeFile cwd filePath content withBackup)
    with (gate (try_catch (writeFile_body cwd filePath content withBackup)
                  (λ error, throw (Error (msg_failed_write filePath (message error)))))).
  destruct (activeOperations (manager w) >=? maxConcurrentOperations (config (manager w))) eqn:E.
  - apply run_gate_rejected. apply Z.geb_le in E. lia.
  - rewrite Z.geb_leb in E. apply Z.leb_gt in E. rewrite run_gate_admitted; [|apply never_writes_try_catch|lia].
    + rewrite run_try_catch.
      rewrite (run_writeFile_body_over_limit cwd dir_size now filePath content withBackup safePath)
        by done.
      rewrite run_throw. simpl. by rewrite world_eta.
    + apply never_writes_writeFile_body.
    + intros e. constructor.
Qed.

Lemma writeFile_over_limit_witness :
  run 4096 demo_now (writeFile demo_cwd (js "b.txt") (js "01234567890") true) demo_world
  = (Throw (Error (js "Failed to write file 'b.txt': Content size (11 bytes) exceeds maximum allowed size (10 bytes)")),
     demo_world).
Proof.
  apply (writeFile_over_limit demo_cwd 4096 demo_now demo_world (js "b.txt")
           (js "01234567890") true (js "/srv/ws/b.txt")).
  - vm_compute. reflexivity.
  - vm_compute. reflexivity.
Defined.

(** ** Writing, then reading *)

Section ReadAfterWrite.

Variable cwd : str.
Variable dir_size : Z.

Lemma store_file_ok syscall d p data d' :
  store_file syscall d p data = (Ok tt, d') -> d' = <[p := File data]> d.
Proof.
  unfold store_file. intros H.
  destruct (d !! p) as [[c|]|]; try done;
    destruct (d !! path.dirname p) as [[c'|]|]; congruence.
Qed.

Lemma store_file_throw syscall d p data e d' :
  store_file syscall d p data = (Throw e, d') -> d' = d.
Proof.
  unfold store_file. intros H.
  destruct (d !! p) as [[c|]|]; try congruence;
    destruct (d !! path.dirname p) as [[c'|]|]; congruence.
Qed.

(** When the body of [writeFile] succeeds, the path was valid, the
    content within the limit, and the file holds the content. *)
Lemma run_writeFile_body_ok now filePath content withBackup w w' :
  run dir_size now (writeFile_body cwd filePath content withBackup) w = (Ok tt, w') ->
  ∃ safePath,
    validatePath cwd (manager w) filePath true = Ok safePath
    ∧ Z.of_nat (length content) <= maxFileSize (config (manager w))
    ∧ disk w' !! safePath = Some (File content)
    ∧ manager w' = manager w.
Proof.
  intros H.
  pose proof (run_never_writes dir_size now _ w
                (never_writes_writeFile_body cwd filePath content withBackup)) as Hm.
  rewrite H in Hm. simpl in Hm.
  revert H. unfold writeFile_body.
  rewrite run_bind, run_read_this, run_bind, run_lift.
  destruct (validatePath cwd (manager w) filePath true) as [safePath|e]; [|done].
  rewrite run_bind.
  destruct (Z.of_nat (length content) >? maxFileSize (config (manager w))) eqn:E;
    [by rewrite run_throw|].
  rewrite Z.gtb_ltb in E. apply Z.ltb_ge in E.
  rewrite run_ret, run_bind.
  destruct (run dir_size now _ w) as [[[]|e] wb]; [|done].
  rewrite run_bind, run_await.
  destruct (perform dir_size (fs_mkdir (path.dirname safePath)) (disk wb)) as [[[]|e] d1];
    [|done].
  simpl fst. simpl snd. rewrite run_await. simpl.
  destruct (store_file "open" d1 safePath content) as [[[]|e] d2] eqn:Hs; [|done].
  intros [= <-]. simpl. apply store_file_ok in Hs as ->.
  exists safePath. split; [done|].
  split; [done|]. split; [apply lookup_insert_eq | done].
Qed.

(** Reading a regular file within the limit gives its content. *)
Lemma run_readFile_body_file now filePath safePath content w :
  validatePath cwd (manager w) filePath true = Ok safePath ->
  disk w !! safePath = Some (File content) ->
  Z.of_nat (length content) <= maxFileSize (config (manager w)) ->
  run dir_size now (readFile_body cwd filePath) w = (Ok content, w).
Proof.
  intros Hvalid Hfile Hsize. unfold readFile_body.
  rewrite run_bind, run_read_this, run_bind, run_lift, Hvalid.
  rewrite run_bind, run_try_catch, run_await. simpl perform. rewrite Hfile. simpl.
  rewrite Hfile. simpl.
  assert ((Z.of_nat (length content) >? maxFileSize (config (manager w))) = false) as ->.
  { rewrite Z.gtb_ltb. apply Z.ltb_ge. lia. }
  simpl. rewrite Hfile. simpl. by rewrite world_eta.
Qed.

End ReadAfterWrite.

(** C8. After a successful [writeFile], a [readFile] of the same path
    that is admitted by the gate, with nothing done to the store in
    between, returns exactly the written content and changes nothing.
    A write only succeeds for a valid path and a content within the size
    limit. *)
Theorem write_then_read (cwd : str) (dir_size : Z) (now now' : str) (w w1 : World)
    (filePath content : str) (withBackup : bool) :
  run dir_size now (writeFile cwd filePath content withBackup) w = (Ok tt, w1) ->
  activeOperations (manager w1) < maxConcurrentOperations (config (manager w1)) ->
  run dir_size now' (readFile cwd filePath) w1 = (Ok content, w1)
  ∧ Z.of_nat (length content) <= maxFileSize (config (manager w))
  ∧ ∃ safePath, validatePath cwd (manager w) filePath true = Ok safePath
                ∧ disk w1 !! safePath = Some (File content).
Proof.
  intros Hwrite Hgate.
  change (writeFile cwd filePath content withBackup)
    with (gate (try_catch (writeFile_body cwd filePath content withBackup)
                  (λ error, throw (Error (msg_failed_write filePath (message error))))))
    in Hwrite.
  destruct (Z_lt_ge_dec (activeOperations (manager w))
              (maxConcurrentOperations (config (manager w)))) as [Hadm|Hfull];
    [|by rewrite run_gate_rejected in Hwrite].
  rewrite run_gate_admitted in Hwrite; [|apply never_writes_try_catch|done].
  2: apply never_writes_writeFile_body.
  2: intros e; constructor.
  rewrite run_try_catch in Hwrite.
  destruct (run dir_size now (writeFile_body cwd filePath content withBackup) (admitted w))
    as [[[]|e] wb] eqn:Hbody; [|by rewrite run_throw in Hwrite].
  simpl in Hwrite. injection Hwrite as <-.
  apply run_writeFile_body_ok in Hbody as (safePath & Hvalid & Hsize & Hfile & Hm).
  change (validatePath cwd (manager w) filePath true = Ok safePath) in Hvalid.
  change (Z.of_nat (length content) <= maxFileSize (config (manager w))) in Hsize.
  simpl in Hgate, Hm, Hfile.
  split; [|split; [done | by exists safePath]].
  change (readFile cwd filePath)
    with (gate (try_catch (readFile_body cwd filePath) (readFile_catch filePath))).
  rewrite run_gate_admitted; [|apply never_writes_readFile_body|done].
  rewrite run_try_catch.
  by rewrite (run_readFile_body_file cwd dir_size now' filePath safePath content).
Qed.

Lemma write_then_read_witness :
  let w1 := snd (run 4096 demo_now (writeFile demo_cwd (js "sub/b.txt") (js "0123456789") true)
                   demo_world) in
  run 4096 demo_now (readFile demo_cwd (js "sub/b.txt")) w1 = (Ok (js "0123456789"), w1).
Proof.
  intros w1.
  apply (write_then_read demo_cwd 4096 demo_now demo_now demo_world w1
           (js "sub/b.txt") (js "0123456789") true).
  - vm_compute. reflexivity.
  - vm_compute. reflexivity.
Defined.

(** ** Occurrences of a fragment *)

Lemma find_from_None s p : find_from s p = None <-> occurrences s p = O.
Proof.
  induction s as [|c s IH]; simpl.
  - destruct (startsWith [] p); split; (done || lia).
  - destruct (startsWith (c :: s) p); simpl.
    + split; (done || lia).
    + destruct (find_from s p); simpl; [split; intros H; [done|] | exact IH].
      apply IH in H. done.
Qed.

Lemma find_from_Some s p k :
  find_from s p = Some k ->
  (k <= length s)%nat ∧ startsWith (drop k s) p = true.
Proof.
  revert k. induction s as [|c s IH]; intros k; simpl.
  - destruct (startsWith [] p) eqn:E; [|done]. intros [= <-]. split; [lia | done].
  - destruct (startsWith (c :: s) p) eqn:E.
    + intros [= <-]. split; [lia | done].
    + destruct (find_from s p) as [k'|]; [|done]. simpl. intros [= <-].
      destruct (IH k' eq_refl) as [Hk Hs]. split; [lia | done].
Qed.

(** The first occurrence counts for one; the others start after it. *)
Lemma occurrences_first s p k :
  find_from s p = Some k -> (k < length s)%nat ->
  occurrences s p = S (occurrences (drop (S k) s) p).
Proof.
  revert k. induction s as [|c s IH]; intros k; simpl; [lia|].
  destruct (startsWith (c :: s) p) eqn:E.
  - intros [= <-] _. simpl. by rewrite drop_0.
  - destruct (find_from s p) as [k'|]; [|done]. simpl. intros [= <-] Hk.
    apply IH; [done | lia].
Qed.

Lemma startsWith_split s p :
  startsWith s p = true -> s = p ++ drop (length p) s.
Proof.
  intros H. apply startsWith_prefix in H as [rest ->].
  by rewrite drop_app_length.
Qed.

(** [s] cut at an occurrence of [p] that starts at index [k]. *)
Lemma occurrence_split s p k :
  startsWith (drop k s) p = true ->
  s = take k s ++ p ++ drop (k + length p) s.
Proof.
  intros H. apply startsWith_split in H.
  rewrite <- (take_drop k s) at 1. rewrite H at 1.
  by rewrite drop_drop.
Qed.

Lemma indexOf_0 s p :
  indexOf s p 0 = match find_from s p with Some k => Z.of_nat k | None => -1 end.
Proof.
  unfold indexOf.
  replace (Z.to_nat (Z.min (Z.max 0 0) (Z.of_nat (length s)))) with O by lia.
  rewrite drop_0. by destruct (find_from s p).
Qed.

Lemma indexOf_after s p k :
  (k < length s)%nat ->
  indexOf s p (Z.of_nat k + 1)
  = match find_from (drop (S k) s) p with
    | Some j => Z.of_nat (S k + j)
    | None => -1
    end.
Proof.
  intros Hk. unfold indexOf.
  replace (Z.to_nat (Z.min (Z.max (Z.of_nat k + 1) 0) (Z.of_nat (length s))))
    with (S k) by lia.
  done.
Qed.

Lemma substring_0 s k : (k <= length s)%nat -> substring s 0 (Z.of_nat k) = take k s.
Proof.
  intros Hk. unfold substring.
  replace (Z.to_nat _) with k by lia.
  replace (Z.to_nat _) with O by lia.
  by rewrite drop_0.
Qed.

Lemma substring_from_drop s k :
  (k <= length s)%nat -> substring_from s (Z.of_nat k) = drop k s.
Proof.
  intros Hk. unfold substring_from, substring.
  replace (Z.to_nat (Z.max _ _ - Z.min _ _)) with (length s - k)%nat by lia.
  replace (Z.to_nat _) with k by lia.
  apply take_ge. rewrite length_drop. lia.
Qed.

(** What the search of [partialWriteFile] finds, by the number of
    occurrences. *)
Lemma indexOf_no_occurrence s p :
  occurrences s p = O -> indexOf s p 0 = -1.
Proof. intros H. rewrite indexOf_0. apply find_from_None in H. by rewrite H. Qed.

Lemma indexOf_many_occurrences s p :
  (2 <= occurrences s p)%nat ->
  indexOf s p 0 ≠ -1 ∧ indexOf s p (indexOf s p 0 + 1) ≠ -1.
Proof.
  intros H. rewrite indexOf_0.
  destruct (find_from s p) as [k|] eqn:E.
  - split; [lia|]. destruct (find_from_Some s p k E) as [Hk Hs].
    destruct (decide (k < length s)%nat) as [Hlt|Hge].
    + rewrite indexOf_after by done.
      rewrite (occurrences_first s p k E Hlt) in H.
      destruct (find_from (drop (S k) s) p) eqn:E2; [lia|].
      apply find_from_None in E2. lia.
    + assert (k = length s) as -> by lia.
      destruct s as [|c s].
      * simpl in H. destruct (startsWith [] p); simpl in H; lia.
      * exfalso. rewrite drop_all in Hs. destruct p as [|d p]; [|done].
        simpl in E. done.
  - apply find_from_None in E. lia.
Qed.

Lemma indexOf_one_occurrence s p :
  occurrences s p = 1%nat -> p ≠ [] ->
  ∃ k, indexOf s p 0 = Z.of_nat k
       ∧ indexOf s p (Z.of_nat k + 1) = -1
       ∧ (k + length p <= length s)%nat
       ∧ s = take k s ++ p ++ drop (k + length p) s.
Proof.
  intros H Hp. rewrite indexOf_0.
  destruct (find_from s p) as [k|] eqn:E.
  - exists k. destruct (find_from_Some s p k E) as [Hk Hs].
    pose proof (occurrence_split s p k Hs) as Hsplit.
    assert (k + length p <= length s)%nat as Hlen.
    { apply (f_equal length) in Hsplit. rewrite !length_app, length_take in Hsplit. lia. }
    assert (k < length s)%nat as Hlt.
    { destruct p; [done|]. simpl in Hlen. lia. }
    split; [done|]. split; [|done].
    rewrite indexOf_after by done.
    rewrite (occurrences_first s p k E Hlt) in H.
    destruct (find_from (drop (S k) s) p) eqn:E2; [|done].
    assert (occurrences (drop (S k) s) p = O) as H0 by lia.
    apply find_from_None in H0. congruence.
  - apply find_from_None in E. lia.
Qed.

(** ** Backups *)

Lemma segments_join_plain segs :
  segs ≠ [] -> Forall plain_seg segs ->
  path.segments (join_with path.sep segs) = segs
  ∧ path.segments (path.slash :: join_with path.sep segs) = segs.
Proof.
  intros Hne Hall. unfold path.segments.
  assert (filter (λ seg : str, seg ≠ []) segs = segs) as Hf.
  { clear -Hall. induction Hall as [|seg segs [Hn _] _ IH]; [done|].
    rewrite filter_cons_True by done. by rewrite IH. }
  assert (split_on path.slash (join_with path.sep segs) = segs) as Hs.
  { change path.sep with [path.slash]. apply split_join; [done|].
    eapply Forall_impl; [exact Hall|]. by intros ? [_ ?]. }
  split.
  - by rewrite Hs.
  - change (path.slash :: join_with path.sep segs)
      with ([] ++ path.slash :: join_with path.sep segs).
    rewrite split_on_app, Hs. simpl.
    by rewrite filter_cons_False by (intros H; by apply H).
Qed.

Lemma basename_no_sep p : path.slash ∉ path.basename p.
Proof.
  unfold path.basename, path.segments.
  destruct (rev (filter _ (split_on path.slash p))) as [|b l] eqn:E.
  - apply not_elem_of_nil.
  - assert (b ∈ split_on path.slash p) as Hb.
    { assert (b ∈ rev (filter (λ seg : str, seg ≠ []) (split_on path.slash p))) as H
        by (rewrite E; by left).
      rewrite list_elem_of_In in H. apply in_rev in H. rewrite <- list_elem_of_In in H.
      by apply list_elem_of_filter in H as [_ H]. }
    pose proof (split_on_no_sep path.slash p) as Hall.
    rewrite Forall_forall in Hall. by apply Hall.
Qed.

(** Joining a directory and a name that is a single canonical segment
    gives a path whose base name is that name. *)
Lemma basename_join dir seg :
  dir ≠ [] -> canonical_seg seg -> path.basename (path.join [dir; seg]) = seg.
Proof.
  intros Hdir Hseg. pose proof Hseg as [[Hne Hns] _].
  unfold path.join.
  rewrite filter_cons_True, filter_cons_True by done. rewrite filter_nil.
  change (join_with path.sep [dir; seg]) with (dir ++ path.slash :: seg).
  unfold path.normalize.
  destruct (dir ++ path.slash :: seg) as [|c0 p0] eqn:Ep; [by destruct dir|].
  rewrite <- Ep.
  assert (path.hasTrailingSep (dir ++ path.slash :: seg) = false) as ->.
  { unfold path.hasTrailingSep.
    destruct (exists_last Hne) as [chars [c ->]].
    replace (dir ++ path.slash :: chars ++ [c])
      with ((dir ++ path.slash :: chars) ++ [c]) by (by rewrite <- app_assoc).
    rewrite last_snoc.
    apply bool_decide_eq_false. intros ->. apply Hns.
    apply elem_of_app. right. by left. }
  unfold path.normalizeString, path.normalize_segments.
  rewrite split_on_app, (split_on_plain _ seg), fold_left_app by done. simpl.
  rewrite push_segment_canonical_seg by done.
  set (b := negb (path.isAbsolute (dir ++ path.slash :: seg))).
  pose proof (fold_push_plain b (split_on path.slash dir) []
                (split_on_no_sep path.slash dir) (List.Forall_nil _)) as Hplain.
  set (stack := fold_left (path.push_segment b) (split_on path.slash dir) []) in *.
  assert (Forall plain_seg (rev stack ++ [seg])) as Hall.
  { apply Forall_app. split; [by apply Forall_rev | by constructor]. }
  assert (rev stack ++ [seg] ≠ []) as Hnn by (by destruct (rev stack)).
  destruct (segments_join_plain _ Hnn Hall) as [H1 H2].
  destruct (join_plain_last _ Hnn Hall) as [c [Hc _]].
  simpl rev.
  destruct (join_with path.sep (rev stack ++ [seg])) as [|j0 j]; [done|].
  unfold path.basename.
  destruct (path.isAbsolute (dir ++ path.slash :: seg)).
  - change (js "/" ++ j0 :: j) with (path.slash :: j0 :: j).
    unfold path.slash in *. by rewrite H2, rev_app_distr.
  - by rewrite H1, rev_app_distr.
Qed.

(** The name of a backup is a single canonical segment as long as the
    clock's text has no separator in it, and it is longer than the name
    of the file it copies. *)
Lemma backup_name_canonical fileName now :
  path.slash ∉ fileName -> path.slash ∉ now ->
  canonical_seg (fileName ++ js "." ++ replace_colon_dot now ++ js ".backup").
Proof.
  intros Hf Hn.
  assert (path.slash ∉ replace_colon_dot now) as Hr.
  { unfold replace_colon_dot. intros H. rewrite list_elem_of_In in H.
    apply in_map_iff in H as [c [Hc Hin]]. rewrite <- list_elem_of_In in Hin.
    destruct (ascii_eqb c ":" || ascii_eqb c ".") eqn:E.
    - done.
    - by subst. }
  repeat split.
  - by destruct fileName.
  - rewrite !elem_of_app. intros [H|[H|[H|H]]]; try done.
    + vm_compute in H. apply elem_of_cons in H as [H|H]; [done | by apply elem_of_nil in H].
    + revert H. vm_compute. intros H.
      repeat (apply elem_of_cons in H as [H|H]; [done|]). by apply elem_of_nil in H.
  - intros E. apply (f_equal length) in E. rewrite !length_app in E.
    vm_compute (length (js ".backup")) in E. vm_compute (length (js ".")) in E. lia.
  - intros E. apply (f_equal length) in E. rewrite !length_app in E.
    vm_compute (length (js ".backup")) in E. vm_compute (length (js "..")) in E.
    vm_compute (length (js ".")) in E. lia.
Qed.

Lemma join_not_empty args : path.join args ≠ [].
Proof.
  unfold path.join. destruct (filter _ args) as [|a l]; [done|].
  unfold path.normalize.
  destruct (join_with path.sep (a :: l)) as [|c p]; [done|].
  destruct (path.normalizeString (c :: p) _) as [|n0 n];
    destruct (path.isAbsolute (c :: p)), (path.hasTrailingSep (c :: p)); done.
Qed.

(** A backup never lands on the file it copies. *)
Lemma backupPath_not_source this now filePath :
  path.slash ∉ now -> backupPath_of this now filePath ≠ filePath.
Proof.
  intros Hnow E. apply (f_equal path.basename) in E.
  unfold backupPath_of in E.
  rewrite basename_join in E.
  - apply (f_equal length) in E. rewrite !length_app in E.
    vm_compute (length (js ".backup")) in E. lia.
  - apply join_not_empty.
  - apply backup_name_canonical; [apply basename_no_sep | done].
Qed.

Lemma mkdir_p_keeps fuel d p r d' :
  mkdir_p fuel d p = (r, d') -> ∀ q v, d !! q = Some v -> d' !! q = Some v.
Proof.
  revert d p r d'. induction fuel as [|fuel IH]; intros d p r d'; simpl.
  - destruct (d !! p) as [[c|]|] eqn:Ep; try (intros [= <- <-]; done).
    destruct (str_eqb (path.dirname p) p); intros [= <- <-]; [|done].
    intros q v Hq. rewrite lookup_insert_ne; [done|]. intros ->. congruence.
  - destruct (d !! p) as [[c|]|] eqn:Ep; try (intros [= <- <-]; done).
    destruct (str_eqb (path.dirname p) p).
    + intros [= <- <-] q v Hq. rewrite lookup_insert_ne; [done|]. intros ->. congruence.
    + destruct (mkdir_p fuel d (path.dirname p)) as [[[]|e] d1] eqn:Em;
        intros [= <- <-]; [|done].
      intros q v Hq. rewrite lookup_insert_ne; [by eapply IH|]. intros ->. congruence.
Qed.

Section BackupLemmas.

Variable dir_size : Z.
Variable now : str.

Local Abbreviation run := (run dir_size now).

(** What [createBackup] does to the store: it may add directories and
    the copy, and touches nothing else; when it succeeds the copy holds
    the content of the file. *)
Lemma run_createBackup filePath current w r wb :
  run (createBackup filePath) w = (r, wb) ->
  disk w !! filePath = Some (File current) ->
  manager wb = manager w
  ∧ (∀ q, disk w !! q = Some Directory -> disk wb !! q = Some Directory)
  ∧ (∀ q v, q ≠ backupPath_of (manager w) now filePath ->
            disk w !! q = Some v -> disk wb !! q = Some v)
  ∧ (r = Ok tt -> disk wb !! backupPath_of (manager w) now filePath = Some (File current)).
Proof.
  intros Hrun Hfile.
  pose proof (run_never_writes dir_size now _ w (never_writes_createBackup filePath)) as Hm.
  rewrite Hrun in Hm. simpl in Hm. split; [done|]. clear Hm.
  revert Hrun. unfold createBackup.
  rewrite run_bind, run_read_this, run_bind, run_await. cbn [perform].
  set (backupDir := path.join [normalizedAllowedDir (manager w); js ".backups"]).
  destruct (mkdir_p (length backupDir) (disk w) backupDir) as [[[]|e] d1] eqn:Em.
  - cbn [fst snd]. rewrite run_bind, run_date_now, run_await.
    cbn [perform disk manager fst snd].
    set (backupPath := backupPath_of (manager w) now filePath).
    change (path.join [backupDir; path.basename filePath ++ js "."
                                  ++ replace_colon_dot now ++ js ".backup"])
      with backupPath.
    pose proof (mkdir_p_keeps _ _ _ _ _ Em) as Hkeep.
    rewrite (Hkeep filePath _ Hfile).
    destruct (store_file "copyfile" d1 backupPath current) as [[[]|e] d2] eqn:Es.
    + pose proof Es as Es'. apply store_file_ok in Es as ->. intros [= <- <-]. simpl.
      split; [|split].
      * intros q Hq. destruct (decide (q = backupPath)) as [->|Hne].
        -- exfalso. apply Hkeep in Hq.
           revert Es'. unfold store_file. rewrite Hq. done.
        -- rewrite lookup_insert_ne by done. by apply Hkeep.
      * intros q v Hne Hq. rewrite lookup_insert_ne by done. by apply Hkeep.
      * intros _. apply lookup_insert_eq.
    + apply store_file_throw in Es as ->. intros [= <- <-]. simpl.
      split; [|split]; [intros q Hq; by apply Hkeep | intros q v _ Hq; by apply Hkeep | done].
  - simpl. intros [= <- <-]. simpl.
    pose proof (mkdir_p_keeps _ _ _ _ _ Em) as Hkeep.
    split; [|split]; [intros q Hq; by apply Hkeep | intros q v _ Hq; by apply Hkeep | done].
Qed.

End BackupLemmas.

(** ** Partial writes *)

Section PartialWrite.

Variable cwd : str.
Variable dir_size : Z.
Variable now : str.

Local Abbreviation run := (run dir_size now).

(** The body of [partialWriteFile] on an existing regular file, step by
    step. *)
Lemma run_partialWriteFile_body filePath oldContent newContent safePath current w :
  validatePath cwd (manager w) filePath true = Ok safePath ->
  disk w !! safePath = Some (File current) ->
  run (partialWriteFile_body cwd filePath oldContent newContent) w =
  let oldIndex := indexOf current oldContent 0 in
  if oldIndex =? -1 then (Throw (Error msg_no_match), w)
  else if negb (indexOf current oldContent (oldIndex + 1) =? -1)
  then (Throw (Error msg_ambiguous), w)
  else
    let updatedContent :=
      substring current 0 oldIndex ++ newContent
      ++ substring_from current (oldIndex + Z.of_nat (length oldContent)) in
    if Z.of_nat (length updatedContent) >? maxFileSize (config (manager w))
    then (Throw (Error (msg_updated_too_large (Z.of_nat (length updatedContent))
                          (maxFileSize (config (manager w))))), w)
    else
      match run (createBackup safePath) w with
      | (Ok _, wb) => run (await (fs_writeFile safePath updatedContent)) wb
      | (Throw e, wb) => (Throw e, wb)
      end.
Proof.
  intros Hvalid Hfile. unfold partialWriteFile_body.
  rewrite run_bind, run_read_this, run_bind, run_lift, Hvalid.
  rewrite run_bind, run_await. cbn [perform]. rewrite Hfile. cbn [fst snd].
  rewrite world_eta. cbv zeta.
  rewrite run_bind.
  destruct (indexOf current oldContent 0 =? -1); [by rewrite run_throw|].
  rewrite run_ret, run_bind.
  destruct (negb (indexOf current oldContent (indexOf current oldContent 0 + 1) =? -1));
    [by rewrite run_throw|].
  rewrite run_ret, run_bind, run_read_this, run_bind.
  destruct (Z.of_nat (length _) >? maxFileSize (config (manager w)));
    [by rewrite run_throw|].
  rewrite run_ret, run_bind.
  by destruct (run (createBackup safePath) w) as [[[]|e] wb].
Qed.

End PartialWrite.

Lemma never_writes_partialWriteFile_body cwd filePath oldContent newContent :
  never_writes (partialWriteFile_body cwd filePath oldContent newContent).
Proof.
  unfold partialWriteFile_body, ret, throw, lift. never_writes_tac.
  all: try apply never_writes_createBackup.
Qed.

(** C3, as the code has it. On an existing regular file, for a call that
    the gate admits: with no occurrence of the old fragment
    [partialWriteFile] fails with the no-match error, with two or more
    with the ambiguity error, and in both cases nothing changes. With
    exactly one occurrence of a non-empty fragment, the new content is
    the old one with that occurrence replaced; if it is larger than the
    limit the call fails with the size error and nothing changes;
    otherwise, when the backup can be made, the call succeeds, the file
    holds the new content, the backup holds the content from before, and
    nothing else in the store differs from what [createBackup] left. *)
Theorem partialWriteFile_by_occurrences (cwd : str) (dir_size : Z) (now : str) (w : World)
    (filePath oldContent newContent safePath current : str) :
  activeOperations (manager w) < maxConcurrentOperations (config (manager w)) ->
  validatePath cwd (manager w) filePath true = Ok safePath ->
  disk w !! safePath = Some (File current) ->
  disk w !! path.dirname safePath = Some Directory ->
  path.slash ∉ now ->
  let outcome := run dir_size now (partialWriteFile cwd filePath oldContent newContent) w in
  let failed msg := (Throw (Error (msg_failed_partial filePath msg)), w) in
  (occurrences current oldContent = 0%nat -> outcome = failed msg_no_match)
  ∧ ((2 <= occurrences current oldContent)%nat -> outcome = failed msg_ambiguous)
  ∧ (occurrences current oldContent = 1%nat -> oldContent ≠ [] ->
     ∃ before after,
       current = before ++ oldContent ++ after
       ∧ let updated := before ++ newContent ++ after in
         (Z.of_nat (length updated) > maxFileSize (config (manager w)) ->
          outcome = failed (msg_updated_too_large (Z.of_nat (length updated))
                              (maxFileSize (config (manager w)))))
         ∧ (Z.of_nat (length updated) <= maxFileSize (config (manager w)) ->
            ∀ wb, run dir_size now (createBackup safePath) (admitted w) = (Ok tt, wb) ->
              outcome = (Ok tt, {| manager := manager w;
                                   disk := <[safePath := File updated]> (disk wb) |})
              ∧ <[safePath := File updated]> (disk wb) !! safePath = Some (File updated)
              ∧ <[safePath := File updated]> (disk wb)
                  !! backupPath_of (manager w) now safePath = Some (File current))).
Proof.
  intros Hgate Hvalid Hfile Hparent Hnow outcome failed.
  assert (outcome =
          (fst (run dir_size now
                  (try_catch (partialWriteFile_body cwd filePath oldContent newContent)
                     (λ error, throw (Error (msg_failed_partial filePath (message error)))))
                  (admitted w)),
           {| manager := manager w;
              disk := disk (snd (run dir_size now
                  (try_catch (partialWriteFile_body cwd filePath oldContent newContent)
                     (λ error, throw (Error (msg_failed_partial filePath (message error)))))
                  (admitted w))) |})) as Hout.
  { unfold outcome.
    change (partialWriteFile cwd filePath oldContent newContent)
      with (gate (try_catch (partialWriteFile_body cwd filePath oldContent newContent)
                    (λ error, throw (Error (msg_failed_partial filePath (message error)))))).
    apply run_gate_admitted; [|done].
    apply never_writes_try_catch; [apply never_writes_partialWriteFile_body|].
    intros e. constructor. }
  rewrite run_try_catch in Hout.
  rewrite (run_partialWriteFile_body cwd dir_size now filePath oldContent newContent
             safePath current (admitted w) Hvalid Hfile) in Hout.
  cbv zeta in Hout.
  split; [|split].
  - intros H0. rewrite Hout, (indexOf_no_occurrence _ _ H0). simpl.
    unfold failed. by rewrite world_eta.
  - intros H2. destruct (indexOf_many_occurrences _ _ H2) as [Hfirst Hsecond].
    rewrite Hout.
    apply Z.eqb_neq in Hfirst, Hsecond. rewrite Hfirst, Hsecond. simpl.
    unfold failed. by rewrite world_eta.
  - intros H1 Hne.
    destruct (indexOf_one_occurrence _ _ H1 Hne) as (k & Hfirst & Hsecond & Hlen & Hsplit).
    exists (take k current), (drop (k + length oldContent) current).
    split; [exact Hsplit|]. intros updated.
    rewrite Hfirst, Hsecond in Hout.
    assert ((Z.of_nat k =? -1) = false) as Hk by (apply Z.eqb_neq; lia).
    rewrite Hk in Hout. cbn [negb Z.eqb] in Hout.
    rewrite substring_0 in Hout by lia.
    replace (Z.of_nat k + Z.of_nat (length oldContent))
      with (Z.of_nat (k + length oldContent)) in Hout by lia.
    rewrite substring_from_drop in Hout by lia.
    fold updated in Hout.
    change (maxFileSize (config (manager (admitted w))))
      with (maxFileSize (config (manager w))) in Hout.
    split.
    + intros Hbig.
      assert ((Z.of_nat (length updated) >? maxFileSize (config (manager w))) = true) as Hgt
        by (apply Z.gtb_lt; lia).
      rewrite Hgt in Hout. rewrite Hout. simpl. unfold failed. by rewrite world_eta.
    + intros Hsmall wb Hbackup.
      assert ((Z.of_nat (length updated) >? maxFileSize (config (manager w))) = false) as Hgt
        by (rewrite Z.gtb_ltb; apply Z.ltb_ge; lia).
      rewrite Hgt, Hbackup in Hout.
      destruct (run_createBackup dir_size now safePath current (admitted w) (Ok tt) wb
                  Hbackup Hfile) as (Hm & Hdirs & Hkeep & Hcopy).
      assert (backupPath_of (manager w) now safePath ≠ safePath) as Hdiff
        by (by apply backupPath_not_source).
      rewrite run_await in Hout. cbn [perform] in Hout.
      unfold store_file in Hout.
      rewrite (Hkeep safePath (File current)) in Hout; [|by intros E|done].
      rewrite (Hdirs _ Hparent) in Hout. simpl in Hout.
      split; [exact Hout|]. split; [apply lookup_insert_eq|].
      rewrite lookup_insert_ne by done. by apply Hcopy.
Qed.

(** A fragment that occurs exactly once, and a replacement that makes
    the file larger than the limit of ten bytes: the call fails. *)
Lemma partialWriteFile_unique_match_over_limit :
  disk demo_world !! js "/srv/ws/a.txt" = Some (File (js "abcabd"))
  ∧ occurrences (js "abcabd") (js "ca") = 1%nat
  ∧ run 4096 demo_now
      (partialWriteFile demo_cwd (js "a.txt") (js "ca") (js "XXXXXXXX")) demo_world
    = (Throw (Error (js "Failed to partial write file 'a.txt': Updated content size (12 bytes) exceeds maximum allowed size (10 bytes)")),
       demo_world).
Proof. split; [|split]; vm_compute; reflexivity. Qed.

Lemma partialWriteFile_by_occurrences_witness :
  run 4096 demo_now (partialWriteFile demo_cwd (js "a.txt") (js "zz") (js "X")) demo_world
  = (Throw (Error (msg_failed_partial (js "a.txt") msg_no_match)), demo_world)
  ∧ run 4096 demo_now (partialWriteFile demo_cwd (js "a.txt") (js "ab") (js "X")) demo_world
    = (Throw (Error (msg_failed_partial (js "a.txt") msg_ambiguous)), demo_world)
  ∧ ∃ before after,
      js "abcabd" = before ++ js "ca" ++ after
      ∧ fst (run 4096 demo_now
               (partialWriteFile demo_cwd (js "a.txt") (js "ca") (js "X")) demo_world)
        = Ok tt
      ∧ disk (snd (run 4096 demo_now
                     (partialWriteFile demo_cwd (js "a.txt") (js "ca") (js "X")) demo_world))
          !! js "/srv/ws/a.txt"
        = Some (File (before ++ js "X" ++ after)).
Proof.
  assert (path.slash ∉ demo_now) as Hnow by (by apply (bool_decide_unpack _)).
  pose proof (λ old new,
    partialWriteFile_by_occurrences demo_cwd 4096 demo_now demo_world (js "a.txt")
      old new (js "/srv/ws/a.txt") (js "abcabd") eq_refl eq_refl eq_refl eq_refl Hnow) as H.
  split; [|split].
  - apply (proj1 (H (js "zz") (js "X"))). reflexivity.
  - apply (proj1 (proj2 (H (js "ab") (js "X")))). vm_compute. lia.
  - destruct (proj2 (proj2 (H (js "ca") (js "X"))) eq_refl)
      as (before & after & Hsplit & _ & Hok); [done|].
    exists before, after. split; [exact Hsplit|].
    assert (Z.of_nat (length (before ++ js "X" ++ after)) <= 10) as Hsmall.
    { apply (f_equal length) in Hsplit. rewrite !length_app in *.
      vm_compute (length (js _)) in *. lia. }
    destruct (Hok Hsmall
                (snd (run 4096 demo_now (createBackup (js "/srv/ws/a.txt"))
                        (admitted demo_world))))
      as (Hrun & Hfile & _).
    { vm_compute. reflexivity. }
    rewrite Hrun. split; [reflexivity | exact Hfile].
Defined.

(** ** A backup that cannot be made *)

(** C2 at work. In the workspace where [.backups] is a regular file,
    which [writeFile] itself can create, no backup can be made:
    [createBackup] fails. [deleteFile], [renameFile] and
    [partialWriteFile] then give up and leave the file as it is, but
    [writeFile] with a backup requested reports success and overwrites
    the file. *)
Theorem writeFile_overwrites_after_failed_backup :
  let target := js "/srv/ws/a.txt" in
  let run' {A} (m : Async A) := run 4096 demo_now m blocked_world in
  run 4096 demo_now (writeFile demo_cwd (js ".backups") (js "x") false) demo_world
  = (Ok tt, blocked_world)
  ∧ disk blocked_world !! target = Some (File (js "abcabd"))
  ∧ fst (run 4096 demo_now (createBackup target) (admitted blocked_world))
    = Throw (EEXIST "mkdir" (js "/srv/ws/.backups"))
  ∧ run' (deleteFile demo_cwd (js "a.txt") true)
    = (Throw (Error (msg_failed_delete (js "a.txt")
                       (message (EEXIST "mkdir" (js "/srv/ws/.backups"))))),
       blocked_world)
  ∧ run' (renameFile demo_cwd (js "a.txt") (js "b.txt") true)
    = (Throw (EEXIST "mkdir" (js "/srv/ws/.backups")), blocked_world)
  ∧ run' (partialWriteFile demo_cwd (js "a.txt") (js "ca") (js "X"))
    = (Throw (Error (msg_failed_partial (js "a.txt")
                       (message (EEXIST "mkdir" (js "/srv/ws/.backups"))))),
       blocked_world)
  ∧ fst (run' (writeFile demo_cwd (js "a.txt") (js "new") true)) = Ok tt
  ∧ disk (snd (run' (writeFile demo_cwd (js "a.txt") (js "new") true))) !! target
    = Some (File (js "new")).
Proof. repeat split; vm_compute; reflexivity. Qed.

(** ** Which methods assign to [this] *)

Lemma never_writes_deleteFile_body cwd filePath b :
  never_writes (try_catch (deleteFile_body cwd filePath b) (deleteFile_catch filePath)).
Proof.
  unfold deleteFile_body, deleteFile_catch, ret, throw, lift. never_writes_tac.
  all: try apply never_writes_createBackup.
Qed.

Lemma never_writes_renameFile_body cwd oldPath newPath b :
  never_writes (try_catch (renameFile_body cwd oldPath newPath b)
                  (renameFile_catch oldPath newPath)).
Proof.
  unfold renameFile_body, renameFile_catch, ret, throw, lift. never_writes_tac.
  all: try apply never_writes_createBackup.
Qed.

Lemma never_writes_monitorStream safePath max chunks bytesWritten :
  never_writes (monitorStream safePath max chunks bytesWritten).
Proof.
  revert bytesWritten.
  induction chunks as [|chunk rest IH]; intros bytesWritten; cbn [monitorStream].
  - constructor.
  - destruct (_ >? max); [constructor|].
    apply never_writes_bind; [apply never_writes_await | intros _; apply IH].
Qed.

Lemma never_writes_streamWriteFile_body cwd filePath chunks :
  never_writes (streamWriteFile_body cwd filePath chunks).
Proof.
  unfold streamWriteFile_body, ret, throw, lift. never_writes_tac.
  apply never_writes_monitorStream.
Qed.

Lemma never_writes_searchInFile filePath pattern ignoreCase contextLines :
  never_writes (searchInFile filePath pattern ignoreCase contextLines).
Proof. unfold searchInFile, ret, throw, lift. never_writes_tac. Qed.

Lemma never_writes_process_entries cwd pattern ignoreCase contextLines recursive
    currentDir entries queue results :
  never_writes (process_entries cwd pattern ignoreCase contextLines recursive
                  currentDir entries queue results).
Proof.
  revert queue results.
  induction entries as [|entry rest IH]; intros queue results; cbn [process_entries].
  - constructor.
  - apply never_writes_bind; [apply never_writes_read_this | intros this].
    destruct (isFile entry).
    + destruct (_ || _); [apply IH|].
      apply never_writes_bind; [|intros found; apply IH].
      unfold ret. never_writes_tac.
    + destruct (isDirectory entry && recursive); [|apply IH].
      destruct (_ || _); apply IH.
Qed.

Lemma never_writes_walk cwd pattern ignoreCase contextLines recursive
    budget queue processedPaths results :
  never_writes (walk cwd pattern ignoreCase contextLines recursive
                  budget queue processedPaths results).
Proof.
  revert queue processedPaths results.
  induction budget as [|budget IH]; intros queue processedPaths results; cbn [walk].
  - constructor.
  - destruct queue as [|currentDir queue]; [constructor|].
    apply never_writes_bind; [unfold ret; never_writes_tac|].
    intros [realPath|]; [|apply IH].
    destruct (bool_decide _); [apply IH|].
    apply never_writes_bind; [unfold ret; never_writes_tac|].
    intros [entries|]; [|apply IH].
    apply never_writes_bind; [apply never_writes_process_entries | intros pushed; apply IH].
Qed.

Lemma never_writes_searchInFiles cwd pattern ignoreCase contextLines recursive searchDir :
  never_writes (searchInFiles cwd pattern ignoreCase contextLines recursive searchDir).
Proof.
  unfold searchInFiles.
  apply never_writes_try_catch; [|intros e; apply nw_settle].
  apply never_writes_bind; [apply never_writes_read_this | intros this].
  apply never_writes_bind.
  - destruct (_ || _); apply nw_settle.
  - intros searchPath. unfold searchInDirectorySafe. apply never_writes_walk.
Qed.

Lemma never_writes_getStats : never_writes getStats.
Proof. unfold getStats, ret. never_writes_tac. Qed.

(** Every gated method is the gate around a body that does not assign
    to [this]; the other methods do not assign to it at all. *)
Lemma method_gated cwd c :
  gated c = true ->
  ∃ A (body : Async A), method cwd c = task (gate body) ∧ never_writes body.
Proof.
  destruct c; try discriminate; intros _; cbn [method].
  - eexists _, _. split; [reflexivity|]. apply never_writes_readFile_body.
  - eexists _, _. split; [reflexivity|].
    apply never_writes_try_catch; [apply never_writes_writeFile_body | intros e; constructor].
  - eexists _, _. split; [reflexivity|].
    apply never_writes_try_catch; [apply never_writes_partialWriteFile_body | intros e; constructor].
  - eexists _, _. split; [reflexivity|]. apply never_writes_deleteFile_body.
  - eexists _, _. split; [reflexivity|]. apply never_writes_renameFile_body.
  - eexists _, _. split; [reflexivity|].
    apply never_writes_try_catch; [apply never_writes_streamWriteFile_body | intros e; constructor].
Qed.

Lemma method_ungated cwd c :
  gated c = false -> ∃ A (m : Async A), method cwd c = task m ∧ never_writes m.
Proof.
  destruct c; try discriminate; intros _; cbn [method].
  - eexists _, _. split; [reflexivity|]. apply never_writes_searchInFiles.
  - eexists _, _. split; [reflexivity|]. apply never_writes_getStats.
Qed.

(** ** The admission counter *)

(** The body of an admitted method with its [finally] block holds one
    slot. *)
Lemma releases_once_try_finally {A} (body : Async A) :
  never_writes body -> releases_once (try_finally body activeOperations_decr).
Proof.
  intros H. induction H as [r|B c k _ IH|k _ IH|k _ IH]; simpl.
  - apply ro_release.
  - by apply ro_await.
  - by apply ro_read.
  - by apply ro_now.
Qed.

Lemma never_writes_await_inv {A B} (c : fs_call B) (k : result B -> Async A) :
  never_writes (Await c k) -> ∀ r, never_writes (k r).
Proof.
  intros H.
  change (match Await c k with
          | Await c' k' => ∀ r, never_writes (k' r)
          | _ => True
          end).
  by destruct H.
Qed.

Lemma releases_once_await_inv {A B} (c : fs_call B) (k : result B -> Async A) :
  releases_once (Await c k) -> ∀ r, releases_once (k r).
Proof.
  intros H.
  change (match Await c k with
          | Await c' k' => ∀ r, releases_once (k' r)
          | _ => True
          end).
  by destruct H.
Qed.

(** Running on without interruption: a method that does not assign to
    [this] leaves it alone; one that holds a slot leaves it alone while
    it is suspended and gives the slot back when it finishes. *)
Lemma advance_never_writes {A} now (m : Async A) this :
  never_writes m ->
  match advance now m this with
  | (this', Finished _) => this' = this
  | (this', Suspended c k) => this' = this ∧ never_writes (Await c k)
  end.
Proof.
  intros H. induction H as [r|B c k Hk _|k _ IH|k _ IH]; simpl; try done;
    try apply IH.
  split; [done | by constructor].
Qed.

Lemma advance_releases_once {A} now (m : Async A) this :
  releases_once m ->
  match advance now m this with
  | (this', Finished _) =>
      this' = set_activeOperations (activeOperations this - 1) this
  | (this', Suspended c k) => this' = this ∧ releases_once (Await c k)
  end.
Proof.
  intros H. induction H as [r|B c k Hk _|k _ IH|k _ IH]; simpl; try done;
    try apply IH.
  split; [done | by constructor].
Qed.

Lemma slots_held_nonneg l n : slots_held l n -> 0 <= n.
Proof. induction 1; lia. Qed.

Lemma slots_held_app l1 l2 n1 n2 :
  slots_held l1 n1 -> slots_held l2 n2 -> slots_held (l1 ++ l2) (n1 + n2).
Proof.
  intros H1 H2. induction H1 as [|t l n Hm _ IH|t l n Hm _ IH]; simpl.
  - by replace (0 + n2) with n2 by lia.
  - replace (n + 1 + n2) with (n + n2 + 1) by lia. by apply slots_holder.
  - by apply slots_free.
Qed.

(** The slots split along the list of tasks. *)
Lemma slots_held_split before t after n :
  slots_held (before ++ t :: after) n ->
  ∃ n1 n2 nt, slots_held before n1 ∧ slots_held after n2
              ∧ slots_held [t] nt ∧ n = n1 + nt + n2.
Proof.
  revert n. induction before as [|b before IH]; intros n H; simpl in H.
  - inversion H as [|t' l n' Hm Hl|t' l n' Hm Hl]; subst.
    + exists 0, n', 1. split; [apply slots_nil|]. split; [exact Hl|]. split; [|lia].
      apply (slots_holder t [] 0 Hm slots_nil).
    + exists 0, n, 0. split; [apply slots_nil|]. split; [exact Hl|]. split; [|lia].
      apply (slots_free t [] 0 Hm slots_nil).
  - inversion H as [|t' l n' Hm Hl|t' l n' Hm Hl]; subst.
    + destruct (IH _ Hl) as (n1 & n2 & nt & H1 & H2 & Ht & ->).
      exists (n1 + 1), n2, nt. split; [by apply slots_holder|].
      split; [exact H2|]. split; [exact Ht | lia].
    + destruct (IH _ Hl) as (n1 & n2 & nt & H1 & H2 & Ht & ->).
      exists n1, n2, nt. split; [by apply slots_free|].
      split; [exact H2|]. split; [exact Ht | lia].
Qed.

Lemma advance_gate {A} now (body : Async A) this :
  advance now (gate body) this =
  if activeOperations this >=? maxConcurrentOperations (config this)
  then (this, Finished (Throw (Error msg_too_many)))
  else advance now (try_finally body activeOperations_decr)
         (set_activeOperations (activeOperations this + 1) this).
Proof.
  unfold gate. simpl.
  by destruct (activeOperations this >=? maxConcurrentOperations (config this)).
Qed.

Lemma slots_held_option_holder t n :
  match t with Some t' => holds_slot t' ∧ n = 1 | None => n = 0 end ->
  slots_held (option_list t) n.
Proof.
  destruct t as [t'|]; simpl.
  - intros [H ->]. apply (slots_holder t' [] 0 H slots_nil).
  - intros ->. apply slots_nil.
Qed.

Lemma slots_held_option_free t :
  match t with Some t' => slot_free t' | None => True end ->
  slots_held (option_list t) 0.
Proof.
  destruct t as [t'|]; simpl; intros H; [|apply slots_nil].
  apply (slots_free t' [] 0 H slots_nil).
Qed.

(** A call of a method keeps the invariant. *)
Lemma call_keeps_invariant cwd cfg c now this l this' t' :
  gate_invariant cwd cfg {| server_this := this; server_disk := ∅; in_flight := l |} ->
  advance_task now (method cwd c) this = (this', t') ->
  gate_invariant cwd cfg
    {| server_this := this'; server_disk := ∅; in_flight := option_list t' ++ l |}.
Proof.
  unfold gate_invariant. simpl. intros (Hcfg & Hroot & Hslots & Hmax) Hadv.
  destruct (gated c) eqn:Hg.
  - destruct (method_gated cwd c Hg) as (A & body & Hm & Hnw). rewrite Hm in Hadv.
    unfold advance_task in Hadv. rewrite advance_gate in Hadv.
    destruct (activeOperations this >=? maxConcurrentOperations (config this)) eqn:E.
    + injection Hadv as <- <-. done.
    + rewrite Z.geb_leb in E. apply Z.leb_gt in E. rewrite Hcfg in E.
      pose proof (advance_releases_once now _
                    (set_activeOperations (activeOperations this + 1) this)
                    (releases_once_try_finally body Hnw)) as Hadv'.
      destruct (advance now (try_finally body activeOperations_decr) _)
        as [this1 [r|B c0 k]].
      * injection Hadv as <- <-. subst this1. simpl.
        replace (activeOperations this + 1 - 1) with (activeOperations this) by lia.
        done.
      * injection Hadv as <- <-. destruct Hadv' as [-> Hro]. simpl.
        repeat split; try done; [|lia]. by constructor.
  - destruct (method_ungated cwd c Hg) as (A & m & Hm & Hnw). rewrite Hm in Hadv.
    unfold advance_task in Hadv.
    pose proof (advance_never_writes now m this Hnw) as Hadv'.
    destruct (advance now m this) as [this1 [r|B c0 k]].
    + injection Hadv as <- <-. by subst this1.
    + injection Hadv as <- <-. destruct Hadv' as [-> Hk]. simpl.
      repeat split; try done. by apply slots_free.
Qed.

(** Going on with a suspended method keeps the invariant. *)
Lemma resume_keeps_invariant cwd cfg dir_size now this disk before t after this' disk' t' :
  gate_invariant cwd cfg
    {| server_this := this; server_disk := disk; in_flight := before ++ t :: after |} ->
  resume_task dir_size now t this disk = Some (this', disk', t') ->
  gate_invariant cwd cfg
    {| server_this := this'; server_disk := disk';
       in_flight := before ++ option_list t' ++ after |}.
Proof.
  unfold gate_invariant. simpl. intros (Hcfg & Hroot & Hslots & Hmax) Hres.
  destruct (slots_held_split _ _ _ _ Hslots) as (n1 & n2 & nt & H1 & H2 & Ht & Hn).
  pose proof (slots_held_nonneg _ _ H1) as Hn1.
  pose proof (slots_held_nonneg _ _ H2) as Hn2.
  destruct t as [A m]. destruct m as [r0|B c k|k|this0 k|k]; try discriminate.
  simpl in Hres. destruct (perform dir_size c disk) as [r d].
  assert ((holds_slot (task (Await c k)) ∧ nt = 1)
          ∨ (slot_free (task (Await c k)) ∧ nt = 0)) as [[Hh ->]|[Hf ->]].
  { inversion Ht as [|t0 l0 n0 Hh Hl|t0 l0 n0 Hf Hl]; subst.
    - left. inversion Hl; subst. split; [done | lia].
    - right. inversion Hl; subst. done. }
  - simpl in Hh.
    pose proof (advance_releases_once now (k r) this (releases_once_await_inv c k Hh r))
      as Hadv.
    destruct (advance now (k r) this) as [this1 [r1|B1 c1 k1]];
      injection Hres as <- <- <-.
    + subst this1. simpl. repeat split; try done; [|lia].
      replace (activeOperations this - 1) with (n1 + n2) by lia.
      by apply slots_held_app.
    + destruct Hadv as [-> Hro]. repeat split; try done.
      rewrite Hn. replace (n1 + 1 + n2) with (n1 + (1 + n2)) by lia.
      apply slots_held_app; [done|].
      apply slots_held_app; [|done].
      replace 1 with (0 + 1) by lia. constructor; [done | constructor].
  - simpl in Hf.
    pose proof (advance_never_writes now (k r) this (never_writes_await_inv c k Hf r))
      as Hadv.
    destruct (advance now (k r) this) as [this1 [r1|B1 c1 k1]];
      injection Hres as <- <- <-.
    + subst this1. repeat split; try done.
      rewrite Hn. replace (n1 + 0 + n2) with (n1 + n2) by lia.
      by apply slots_held_app.
    + destruct Hadv as [-> Hnw]. repeat split; try done.
      rewrite Hn. replace (n1 + 0 + n2) with (n1 + (0 + n2)) by lia.
      apply slots_held_app; [done|].
      apply slots_held_app; [|done].
      apply slots_free; [done | constructor].
Qed.

Lemma gate_invariant_disk cwd cfg this disk1 disk2 l :
  gate_invariant cwd cfg {| server_this := this; server_disk := disk1; in_flight := l |} ->
  gate_invariant cwd cfg {| server_this := this; server_disk := disk2; in_flight := l |}.
Proof. done. Qed.

Lemma reachable_invariant cwd dir_size cfg s :
  0 <= maxConcurrentOperations cfg ->
  reachable cwd dir_size cfg s -> gate_invariant cwd cfg s.
Proof.
  intros Hmax H. induction H as [disk|s s' _ IH Hstep].
  - unfold gate_invariant. simpl. repeat split; [constructor | done].
  - destruct Hstep as [c now s this' t' Hadv|before after t now s this' disk' t' Hl Hres].
    + destruct s as [this disk l]. simpl in *.
      eapply gate_invariant_disk, call_keeps_invariant; [|exact Hadv].
      eapply gate_invariant_disk, IH.
    + destruct s as [this disk l]. simpl in *. subst l.
      eapply resume_keeps_invariant; [exact IH | exact Hres].
Qed.

(** C4. The admission counter stays between zero and the configured
    maximum in every state the server can reach, whatever methods are
    called and however the methods in flight take turns; it is the number
    of slots held by the admitted methods still in flight. Each gated
    method is the gate around a body: the counter is tested first, a
    call at the maximum is refused with the counter untouched, an
    admitted one adds one to the counter and then, on every path through
    its body, assigns to the counter exactly once, at the end, to take
    one away. *)
Theorem admission_counter_bounded (cwd : str) (dir_size : Z) (cfg : SecurityConfig)
    (s : Server) :
  0 <= maxConcurrentOperations cfg ->
  reachable cwd dir_size cfg s ->
  0 <= activeOperations (server_this s) <= maxConcurrentOperations cfg
  ∧ slots_held (in_flight s) (activeOperations (server_this s))
  ∧ ∀ c, gated c = true ->
      ∃ A (body : Async A),
        method cwd c = task (gate body)
        ∧ releases_once (try_finally body activeOperations_decr)
        ∧ ∀ now this,
            advance now (gate body) this =
            if activeOperations this >=? maxConcurrentOperations (config this)
            then (this, Finished (Throw (Error msg_too_many)))
            else advance now (try_finally body activeOperations_decr)
                   (set_activeOperations (activeOperations this + 1) this).
Proof.
  intros Hmax Hreach.
  destruct (reachable_invariant cwd dir_size cfg s Hmax Hreach) as (_ & _ & Hslots & Hle).
  split; [|split].
  - split; [by eapply slots_held_nonneg | done].
  - done.
  - intros c Hg. destruct (method_gated cwd c Hg) as (A & body & Hm & Hnw).
    exists A, body. split; [done|]. split; [by apply releases_once_try_finally|].
    intros now this. apply advance_gate.
Qed.

(** One call of [readFile] on the example workspace: the method is
    suspended at its first [await] and holds one slot of two. *)
Lemma admission_counter_bounded_witness :
  let started :=
    advance_task demo_now (method demo_cwd (call_readFile (js "a.txt")))
      (new_SecureFileManager demo_cwd demo_config) in
  0 <= activeOperations (fst started) <= 2 ∧ activeOperations (fst started) = 1.
Proof.
  intros started.
  assert (reachable demo_cwd 4096 demo_config
            {| server_this := fst started; server_disk := demo_disk;
               in_flight := option_list (snd started) ++ [] |}) as Hreach.
  { eapply reachable_step; [apply (reachable_init _ _ _ demo_disk)|].
    apply (step_call demo_cwd 4096 (call_readFile (js "a.txt")) demo_now
             {| server_this := new_SecureFileManager demo_cwd demo_config;
                server_disk := demo_disk; in_flight := [] |}).
    apply surjective_pairing. }
  split.
  - apply (proj1 (admission_counter_bounded demo_cwd 4096 demo_config _
                    ltac:(vm_compute; discriminate) Hreach)).
  - reflexivity.
Defined.


(** ** Searching for a literal pattern *)

Lemma special_is_syntax c :
  is_special_char c = true <-> RegExp.syntaxCharacter c ≠ None.
Proof.
  destruct c as [[] [] [] [] [] [] [] []]; vm_compute; split; intros H;
    first [done | discriminate | by exfalso; apply H | congruence].
Qed.

Lemma not_special_not_syntax c :
  is_special_char c = false -> RegExp.syntaxCharacter c = None.
Proof.
  intros H. destruct (RegExp.syntaxCharacter c) eqn:E; [|done].
  assert (is_special_char c = true) by (apply special_is_syntax; congruence).
  congruence.
Qed.

Lemma special_syntax c :
  is_special_char c = true -> ∃ sc, RegExp.syntaxCharacter c = Some sc.
Proof.
  intros H. apply special_is_syntax in H.
  destruct (RegExp.syntaxCharacter c) as [sc|]; [by exists sc | done].
Qed.

(** An escaped pattern never starts with a quantifier. *)
Lemma parse_quantifier_escape a p :
  RegExp.parse_quantifier a (escape_special p) = RegExp.Parsed (a, escape_special p).
Proof.
  destruct p as [|c p]; [done|]. simpl.
  destruct (is_special_char c) eqn:E; [done|]. simpl.
  destruct c as [[] [] [] [] [] [] [] []]; try done; vm_compute in E; discriminate.
Qed.

Lemma parse_alternative_escape fuel p :
  (length p < fuel)%nat ->
  RegExp.parse_alternative fuel (escape_special p) = RegExp.Parsed (literal p, []).
Proof.
  revert fuel. induction p as [|c p IH]; intros fuel Hfuel.
  - destruct fuel; [simpl in Hfuel; lia | done].
  - destruct fuel as [|fuel]; [simpl in Hfuel; lia|].
    simpl in Hfuel. specialize (IH fuel ltac:(lia)).
    change (escape_special (c :: p))
      with ((if is_special_char c then ["\"%char; c] else [c]) ++ escape_special p).
    destruct (is_special_char c) eqn:E.
    + destruct (special_syntax c E) as [sc Hsc].
      cbn [app RegExp.parse_alternative].
      change (RegExp.syntaxCharacter "\"%char) with (Some RegExp.SBackslash).
      cbn [RegExp.parse_escape]. rewrite Hsc. cbn [RegExp.pbind].
      rewrite parse_quantifier_escape. cbn [RegExp.pbind]. rewrite IH. done.
    + cbn [app RegExp.parse_alternative].
      rewrite (not_special_not_syntax c E). cbn [RegExp.pbind].
      rewrite parse_quantifier_escape. cbn [RegExp.pbind]. rewrite IH. done.
Qed.

Lemma length_escape_special p : (length p <= length (escape_special p))%nat.
Proof.
  induction p as [|c p IH]; simpl; [lia|].
  destruct (is_special_char c); simpl; lia.
Qed.

(** Whatever the pattern, its escaped form is read as the pattern's
    characters, one after the other. *)
Lemma parse_escape_special p :
  RegExp.parse (escape_special p) = RegExp.Parsed (literal p).
Proof.
  unfold RegExp.parse.
  pose proof (length_escape_special p) as Hlen.
  replace (2 * length (escape_special p) + 2)%nat
    with (S (S (2 * length (escape_special p)))) by lia.
  cbn [RegExp.parse_disjunction].
  rewrite parse_alternative_escape by lia. done.
Qed.


Lemma includes_cons s p c :
  includes (c :: s) p = startsWith (c :: s) p || includes s p.
Proof.
  unfold includes. simpl. destruct (startsWith (c :: s) p); [done|].
  by destruct (find_from s p).
Qed.












(** The pattern [c.b] as a regular expression matches the line [abcabd];
    [searchInFile], which escapes it, does not report that line. With
    the case ignored the pattern [CA] is found in it, and not
    otherwise. *)
Example searchInFile_dot_is_literal :
  match new_RegExp (js "c.b") false with
  | Ok r => RegExp.test r (js "abcabd")
  | Throw _ => false
  end = true
  ∧ run 4096 demo_now (searchInFile (js "/srv/ws/a.txt") (js "c.b") false 0) demo_world
    = (Ok [], demo_world)
  ∧ run 4096 demo_now (searchInFile (js "/srv/ws/a.txt") (js "CA") true 0) demo_world
    = (Ok [{| lineNumber := 1; line := js "abcabd"; context := None |}], demo_world)
  ∧ run 4096 demo_now (searchInFile (js "/srv/ws/a.txt") (js "CA") false 0) demo_world
    = (Ok [], demo_world).
Proof. repeat split; vm_compute; reflexivity. Qed.

(** ** Traces of the directory walk *)

Lemma unfolds_traces {A} (m : Async A) t res : unfolds m t res -> traces m t res.
Proof.
  induction 1; simpl; eauto.
Qed.

Lemma traces_bind {A B} (m : Async A) (f : A -> Async B) t res :
  traces (bind m f) t res ->
  (∃ t1 a t2, traces m t1 (Ok a) ∧ traces (f a) t2 res ∧ t = t1 ++ t2)
  ∨ (∃ e, traces m t (Throw e) ∧ res = Throw e).
Proof.
  revert t. induction m as [[a|e]|B' c k IH|k IH|this k IH|k IH]; intros t; simpl.
  - intros H. left. exists [], a, t. done.
  - intros [-> ->]. right. by exists e.
  - intros (r & t' & -> & H). destruct (IH r _ H) as [(t1 & a & t2 & H1 & H2 & ->)|(e & H1 & ->)].
    + left. exists (Called c r :: t1), a, t2. split; [by exists r, t1 | done].
    + right. exists e. split; [by exists r, t' | done].
  - intros (this & H). destruct (IH this _ H) as [(t1 & a & t2 & H1 & H2 & ->)|(e & H1 & ->)].
    + left. exists t1, a, t2. split; [by exists this | done].
    + right. exists e. split; [by exists this | done].
  - intros H. destruct (IH _ H) as [(t1 & a & t2 & H1 & H2 & ->)|(e & H1 & ->)].
    + left. by exists t1, a, t2.
    + right. by exists e.
  - intros (now & H). destruct (IH now _ H) as [(t1 & a & t2 & H1 & H2 & ->)|(e & H1 & ->)].
    + left. exists t1, a, t2. split; [by exists now | done].
    + right. exists e. split; [by exists now | done].
Qed.

Lemma traces_try_catch {A} (m : Async A) (h : JsError -> Async A) t res :
  traces (try_catch m h) t res ->
  (∃ a, traces m t (Ok a) ∧ res = Ok a)
  ∨ (∃ t1 e t2, traces m t1 (Throw e) ∧ traces (h e) t2 res ∧ t = t1 ++ t2).
Proof.
  revert t. induction m as [[a|e]|B' c k IH|k IH|this k IH|k IH]; intros t; simpl.
  - intros [-> ->]. left. by exists a.
  - intros H. right. exists [], e, t. done.
  - intros (r & t' & -> & H). destruct (IH r _ H) as [(a & H1 & ->)|(t1 & e & t2 & H1 & H2 & ->)].
    + left. exists a. split; [by exists r, t' | done].
    + right. exists (Called c r :: t1), e, t2. split; [by exists r, t1 | done].
  - intros (this & H). destruct (IH this _ H) as [(a & H1 & ->)|(t1 & e & t2 & H1 & H2 & ->)].
    + left. exists a. split; [by exists this | done].
    + right. exists t1, e, t2. split; [by exists this | done].
  - intros H. destruct (IH _ H) as [(a & H1 & ->)|(t1 & e & t2 & H1 & H2 & ->)].
    + left. by exists a.
    + right. by exists t1, e, t2.
  - intros (now & H). destruct (IH now _ H) as [(a & H1 & ->)|(t1 & e & t2 & H1 & H2 & ->)].
    + left. exists a. split; [by exists now | done].
    + right. exists t1, e, t2. split; [by exists now | done].
Qed.

Lemma quiet_app t1 t2 : quiet t1 -> quiet t2 -> quiet (t1 ++ t2).
Proof. unfold quiet. intros. by apply Forall_app. Qed.

Lemma quiet_nil : quiet [].
Proof. constructor. Qed.

(** The traces of a method that settles at once or awaits calls other
    than [realpath] and [readdir], put together. *)
Lemma quiet_bind {A B} (m : Async A) (f : A -> Async B) t res :
  (∀ t1 r, traces m t1 r -> quiet t1) ->
  (∀ a t2 r, traces (f a) t2 r -> quiet t2) ->
  traces (bind m f) t res -> quiet t.
Proof.
  intros Hm Hf H. destruct (traces_bind m f t res H) as [(t1 & a & t2 & H1 & H2 & ->)|(e & H1 & _)].
  - apply quiet_app; [by eapply Hm | by eapply Hf].
  - by eapply Hm.
Qed.

Lemma quiet_try_catch {A} (m : Async A) (h : JsError -> Async A) t res :
  (∀ t1 r, traces m t1 r -> quiet t1) ->
  (∀ e t2 r, traces (h e) t2 r -> quiet t2) ->
  traces (try_catch m h) t res -> quiet t.
Proof.
  intros Hm Hh H.
  destruct (traces_try_catch m h t res H) as [(a & H1 & _)|(t1 & e & t2 & H1 & H2 & ->)].
  - by eapply Hm.
  - apply quiet_app; [by eapply Hm | by eapply Hh].
Qed.

Lemma quiet_settle {A} (r0 : result A) t r : traces (Settle r0) t r -> quiet t.
Proof. intros [-> _]. apply quiet_nil. Qed.

Lemma quiet_read_this t r : traces read_this t r -> quiet t.
Proof. intros (this & -> & _). apply quiet_nil. Qed.

Lemma quiet_await_stat p t r : traces (await (fs_stat p)) t r -> quiet t.
Proof. intros (r0 & t' & -> & -> & _). by repeat constructor. Qed.

Lemma quiet_await_readFile p t r : traces (await (fs_readFile p)) t r -> quiet t.
Proof. intros (r0 & t' & -> & -> & _). by repeat constructor. Qed.

Lemma quiet_searchInFile filePath pattern ignoreCase contextLines t r :
  traces (searchInFile filePath pattern ignoreCase contextLines) t r -> quiet t.
Proof.
  unfold searchInFile. apply quiet_try_catch.
  - intros t1 r1. apply quiet_bind; [apply quiet_await_readFile|].
    intros content t2 r2. apply quiet_bind; [apply quiet_settle|].
    intros re t3 r3. apply quiet_settle.
  - intros e t2 r2. apply quiet_settle.
Qed.

(** The loop over the entries of a directory calls neither [realpath]
    nor [readdir]. *)
Lemma quiet_process_entries cwd pattern ignoreCase contextLines recursive
    currentDir entries queue results t r :
  traces (process_entries cwd pattern ignoreCase contextLines recursive
            currentDir entries queue results) t r ->
  quiet t.
Proof.
  revert queue results t r.
  induction entries as [|entry rest IH]; intros queue results t r; cbn [process_entries].
  - apply quiet_settle.
  - apply quiet_bind; [apply quiet_read_this|]. intros this t2 r2.
    destruct (isFile entry).
    + destruct (_ || _); [apply IH|].
      apply quiet_bind; [|intros found t3 r3; apply IH].
      intros t3 r3. apply quiet_try_catch; [|intros e t4 r4; apply quiet_settle].
      intros t4 r4. apply quiet_bind; [apply quiet_await_stat|].
      intros stats t5 r5. apply quiet_bind; [apply quiet_read_this|].
      intros this' t6 r6. destruct (_ >? _); [apply quiet_settle|].
      apply quiet_bind; [apply quiet_searchInFile|].
      intros ms t7 r7. destruct (_ >? _); apply quiet_settle.
    + destruct (isDirectory entry && recursive); [|apply IH].
      destruct (_ || _); apply IH.
Qed.

Lemma enumerated_quiet t1 t2 : quiet t1 -> enumerated (t1 ++ t2) = enumerated t2.
Proof.
  induction 1 as [|e t1 [Hrp _] _ IH]; [done|].
  destruct e as [B c r]. destruct c; try discriminate; simpl; exact IH.
Qed.

Lemma filter_quiet_readdir t1 t2 :
  quiet t1 -> filter (λ e, is_readdir e = true) (t1 ++ t2) = filter (λ e, is_readdir e = true) t2.
Proof.
  induction 1 as [|e t1 [_ Hrd] _ IH]; [done|].
  simpl. rewrite filter_cons_False by congruence. exact IH.
Qed.

Lemma filter_quiet_realpath t1 t2 :
  quiet t1 -> filter (λ e, is_realpath e = true) (t1 ++ t2) = filter (λ e, is_realpath e = true) t2.
Proof.
  induction 1 as [|e t1 [Hrp _] _ IH]; [done|].
  simpl. rewrite filter_cons_False by congruence. exact IH.
Qed.

Lemma starts_with_readdir_quiet t1 t2 :
  quiet t1 -> starts_with_readdir t2 = false -> starts_with_readdir (t1 ++ t2) = false.
Proof. destruct 1 as [|e t1 [_ Hrd] _]; simpl; done. Qed.

Lemma enumerated_realpath_skip d r t :
  starts_with_readdir t = false ->
  enumerated (Called (fs_realpath d) r :: t) = enumerated t.
Proof.
  intros H. destruct r as [rp|e]; [|done].
  destruct t as [|[B c r'] t]; [done|]. destruct c; try done.
Qed.

(** The loop of [searchInDirectorySafe], whatever the file system
    answers: the canonical paths it enumerates are all different and not
    among those already processed, every [readdir] is one of them, and it
    asks for at most [budget] canonical paths. *)
Lemma walk_traces cwd pattern ignoreCase contextLines recursive budget :
  ∀ queue (processedPaths : gset str) results t res,
    traces (walk cwd pattern ignoreCase contextLines recursive budget queue
              processedPaths results) t res ->
    NoDup (enumerated t)
    ∧ (∀ p, p ∈ enumerated t -> p ∉ processedPaths)
    ∧ starts_with_readdir t = false
    ∧ length (filter (λ e, is_readdir e = true) t) = length (enumerated t)
    ∧ (length (filter (λ e, is_realpath e = true) t) <= budget)%nat.
Proof.
  assert (∀ (V : gset str) n,
            NoDup (enumerated []) ∧ (∀ p, p ∈ enumerated [] -> p ∉ V)
            ∧ starts_with_readdir [] = false
            ∧ length (filter (λ e, is_readdir e = true) []) = length (enumerated [])
            ∧ (length (filter (λ e, is_realpath e = true) []) <= n)%nat) as Hnil.
  { intros V n. cbn. split; [constructor|]. split; [|split; [done | split; [done | lia]]].
    intros p Hp. by apply elem_of_nil in Hp. }
  induction budget as [|budget IH]; intros queue V results t res; cbn [walk].
  - intros [-> _]. apply Hnil.
  - destruct queue as [|currentDir queue]; [intros [-> _]; apply Hnil|].
    cbn [traces bind try_catch await ret].
    intros (r & t' & -> & H). destruct r as [realPath|e];
      cbn [traces bind try_catch await ret] in H.
    + destruct (bool_decide (realPath ∈ V)) eqn:Hin.
      * destruct (IH _ _ _ _ _ H) as (Hnd & Hfresh & Hhead & Hcount & Hbudget).
        rewrite enumerated_realpath_skip by done.
        rewrite filter_cons_False by done. rewrite filter_cons_True by done.
        cbn [length starts_with_readdir is_readdir]. split; [done|]. split; [done|].
        split; [done|]. split; [done | lia].
      * apply bool_decide_eq_false in Hin.
        cbn [traces bind try_catch await ret] in H.
        destruct H as (r' & t'' & -> & H).
        change (enumerated (Called (fs_realpath currentDir) (Ok realPath)
                            :: Called (fs_readdir currentDir) r' :: t''))
          with (realPath :: enumerated t'').
        rewrite filter_cons_False by done. rewrite filter_cons_True by done.
        rewrite (filter_cons_True _ (Called (fs_realpath currentDir) (Ok realPath))) by done.
        rewrite (filter_cons_False _ (Called (fs_readdir currentDir) r')) by done.
        assert (NoDup (enumerated t'')
                ∧ (∀ p, p ∈ enumerated t'' -> p ∉ ({[realPath]} ∪ V : gset str))
                ∧ length (filter (λ e, is_readdir e = true) t'') = length (enumerated t'')
                ∧ (length (filter (λ e, is_realpath e = true) t'') <= budget)%nat)
          as (Hnd & Hfresh & Hcount & Hbudget).
        { destruct r' as [entries|e]; cbn [traces bind try_catch await ret] in H.
          - apply traces_bind in H as [(t1 & pushed & t2 & H1 & H2 & ->)|(e & H1 & _)].
            + apply quiet_process_entries in H1.
              destruct (IH _ _ _ _ _ H2) as (Hnd & Hfresh & Hhead & Hcount & Hbudget).
              rewrite enumerated_quiet, filter_quiet_readdir, filter_quiet_realpath by done.
              done.
            + apply quiet_process_entries in H1.
              rewrite <- (app_nil_r t'').
              rewrite enumerated_quiet, filter_quiet_readdir, filter_quiet_realpath by done.
              destruct (Hnil ({[realPath]} ∪ V) budget) as (? & ? & ? & ? & ?). done.
          - destruct (IH _ _ _ _ _ H) as (Hnd & Hfresh & Hhead & Hcount & Hbudget). done. }
        cbn [length starts_with_readdir is_readdir]. split; [|split; [|split; [done|split]]].
        -- constructor; [|done]. intros Hp. apply Hfresh in Hp. set_solver.
        -- intros p Hp. apply elem_of_cons in Hp as [->|Hp]; [done|].
           apply Hfresh in Hp. set_solver.
        -- lia.
        -- lia.
    + destruct (IH _ _ _ _ _ H) as (Hnd & Hfresh & Hhead & Hcount & Hbudget).
      rewrite enumerated_realpath_skip by done.
      rewrite filter_cons_False by done. rewrite filter_cons_True by done.
      cbn [length starts_with_readdir is_readdir]. split; [done|]. split; [done|].
      split; [done|]. split; [done | lia].
Qed.

(** C6. In one traversal, whatever the file system answers (symbolic
    links and cycles included), the canonical paths of the directories
    whose entries are enumerated are all different; every call of
    [readdir] is counted among them; and the loop asks for the canonical
    form of at most [maxDirectories] directories, so it ends. *)
Theorem searchInDirectorySafe_enumerates_once (cwd pattern : str)
    (ignoreCase : bool) (contextLines : Z) (recursive : bool)
    (rootPath : str) (results : list FileMatches) (t : list event)
    (res : result (list FileMatches)) :
  unfolds (searchInDirectorySafe cwd pattern ignoreCase contextLines recursive
             rootPath results) t res ->
  NoDup (enumerated t)
  ∧ length (filter (λ e, is_readdir e = true) t) = length (enumerated t)
  ∧ (length (filter (λ e, is_realpath e = true) t) <= maxDirectories)%nat.
Proof.
  intros H. apply unfolds_traces in H. revert H.
  unfold searchInDirectorySafe. generalize maxDirectories. intros budget H.
  apply walk_traces in H as (Hnd & _ & _ & Hcount & Hbudget).
  split; [exact Hnd|]. split; [exact Hcount | exact Hbudget].
Qed.

(** One step of a method: what it does up to its next [await]. *)
Ltac unfolds_head :=
  match goal with
  | |- unfolds ?m _ _ => let m' := eval hnf in m in change m with m'
  end.

(** A traversal in which the entry [sub] of the root leads back to the
    root, and the entry [lib] is a directory of its own. *)
Lemma walk_symlink_cycle (budget : nat) :
  unfolds (walk demo_cwd (js "x") false 0 true (S (S (S budget))) [js "/srv/ws"] ∅ [])
    [Called (fs_realpath (js "/srv/ws")) (Ok (js "/srv/ws"));
     Called (fs_readdir (js "/srv/ws"))
       (Ok [{| name := js "sub"; kind := IsDirectory |};
            {| name := js "lib"; kind := IsDirectory |}]);
     Called (fs_realpath (js "/srv/ws/sub")) (Ok (js "/srv/ws"));
     Called (fs_realpath (js "/srv/ws/lib")) (Ok (js "/srv/ws/lib"));
     Called (fs_readdir (js "/srv/ws/lib")) (Ok [])]
    (Ok []).
Proof.
  unfolds_head. apply unfolds_await.
  unfolds_head. apply unfolds_await.
  unfolds_head. apply unfolds_read with (this := manager demo_world).
  unfolds_head. apply unfolds_read with (this := manager demo_world).
  unfolds_head. apply unfolds_await.
  unfolds_head. apply unfolds_await.
  unfolds_head. apply unfolds_await.
  unfolds_head. destruct budget; apply unfolds_settle.
Qed.

(** The directory [/srv/ws/sub] resolves to the root, which has been
    enumerated: it is popped and skipped; the root and [lib] are
    enumerated once each. *)
Lemma searchInDirectorySafe_enumerates_once_witness :
  let t := [Called (fs_realpath (js "/srv/ws")) (Ok (js "/srv/ws"));
            Called (fs_readdir (js "/srv/ws"))
              (Ok [{| name := js "sub"; kind := IsDirectory |};
                   {| name := js "lib"; kind := IsDirectory |}]);
            Called (fs_realpath (js "/srv/ws/sub")) (Ok (js "/srv/ws"));
            Called (fs_realpath (js "/srv/ws/lib")) (Ok (js "/srv/ws/lib"));
            Called (fs_readdir (js "/srv/ws/lib")) (Ok [])] in
  unfolds (searchInDirectorySafe demo_cwd (js "x") false 0 true (js "/srv/ws") [])
    t (Ok [])
  ∧ enumerated t = [js "/srv/ws"; js "/srv/ws/lib"]
  ∧ NoDup (enumerated t)
  ∧ length (filter (λ e, is_readdir e = true) t) = length (enumerated t)
  ∧ (length (filter (λ e, is_realpath e = true) t) <= maxDirectories)%nat.
Proof.
  intros t.
  assert (unfolds (searchInDirectorySafe demo_cwd (js "x") false 0 true
                     (js "/srv/ws") []) t (Ok [])) as H.
  { unfold searchInDirectorySafe, maxDirectories. exact (walk_symlink_cycle 997). }
  split; [exact H|]. split; [reflexivity|].
  exact (searchInDirectorySafe_enumerates_once _ _ _ _ _ _ _ _ _ H).
Defined.

(** ** Methods that only ask *)

Lemma perform_query {B} dir_size (c : fs_call B) d :
  is_query c = true -> snd (perform dir_size c d) = d.
Proof.
  destruct c; simpl; try discriminate; intros _;
    repeat case_match; reflexivity.
Qed.

Lemma run_only_queries {A} dir_size now (m : Async A) w :
  only_queries m -> disk (snd (run dir_size now m w)) = disk w.
Proof.
  intros H. revert w. induction H as [r|B c k Hq _ IH|k _ IH|this k _ IH|k _ IH];
    intros w; simpl; rewrite ?IH; try done.
  pose proof (perform_query dir_size c (disk w) Hq) as Hd.
  destruct (perform dir_size c (disk w)) as [r d]. simpl in Hd. subst d.
  by rewrite IH.
Qed.

Lemma only_queries_bind {A B} (m : Async A) (f : A -> Async B) :
  only_queries m -> (∀ a, only_queries (f a)) -> only_queries (bind m f).
Proof.
  intros H Hf. induction H as [[a|e]| | | |]; simpl; try (constructor; auto); auto.
Qed.

Lemma only_queries_try_catch {A} (m : Async A) (h : JsError -> Async A) :
  only_queries m -> (∀ e, only_queries (h e)) -> only_queries (try_catch m h).
Proof.
  intros H Hh. induction H as [[a|e]| | | |]; simpl; try (constructor; auto); auto.
Qed.

Lemma only_queries_try_finally {A} (m : Async A) (cleanup : Async unit) :
  only_queries m -> only_queries cleanup -> only_queries (try_finally m cleanup).
Proof.
  intros H Hc. induction H as [r| | | |]; simpl; try (constructor; auto).
  apply only_queries_bind; [done|]. intros _. constructor.
Qed.

Lemma only_queries_await {B} (c : fs_call B) :
  is_query c = true -> only_queries (await c).
Proof. intros H. apply oq_await; [done|]. intros r. constructor. Qed.

Lemma only_queries_read_this : only_queries read_this.
Proof. apply oq_read. intros this. constructor. Qed.

Lemma only_queries_incr : only_queries activeOperations_incr.
Proof. apply oq_read. intros this. apply oq_write. constructor. Qed.

Lemma only_queries_decr : only_queries activeOperations_decr.
Proof. apply oq_read. intros this. apply oq_write. constructor. Qed.

Lemma only_queries_gate {A} (body : Async A) :
  only_queries body -> only_queries (gate body).
Proof.
  intros H. unfold gate. apply only_queries_bind; [apply only_queries_read_this|].
  intros this. destruct (_ >=? _); [constructor|].
  apply only_queries_bind; [apply only_queries_incr|]. intros _.
  apply only_queries_try_finally; [done | apply only_queries_decr].
Qed.

Ltac only_queries_tac :=
  repeat first
    [ apply only_queries_await; reflexivity
    | apply only_queries_read_this
    | apply oq_settle
    | apply only_queries_bind; [|intros ?]
    | apply only_queries_try_catch; [|intros ?]
    | apply oq_now; intros ?
    | apply oq_read; intros ?
    | match goal with
      | |- only_queries (if ?c then _ else _) => destruct c
      | |- only_queries (match ?r with Ok _ => _ | Throw _ => _ end) => destruct r
      | |- only_queries (match ?o with Some _ => _ | None => _ end) => destruct o
      end ].

Lemma only_queries_readFile_body cwd filePath :
  only_queries (try_catch (readFile_body cwd filePath) (readFile_catch filePath)).
Proof.
  apply only_queries_try_catch.
  - unfold readFile_body, lift. only_queries_tac.
  - intros e. unfold readFile_catch, throw. only_queries_tac.
Qed.

Lemma only_queries_searchInFile filePath pattern ignoreCase contextLines :
  only_queries (searchInFile filePath pattern ignoreCase contextLines).
Proof. unfold searchInFile, lift, ret. only_queries_tac. Qed.

Lemma only_queries_process_entries cwd pattern ignoreCase contextLines recursive
    currentDir entries queue results :
  only_queries (process_entries cwd pattern ignoreCase contextLines recursive
                  currentDir entries queue results).
Proof.
  revert queue results. induction entries as [|entry rest IH]; intros queue results.
  - constructor.
  - cbn [process_entries]. apply only_queries_bind; [apply only_queries_read_this|].
    intros this. destruct (isFile entry).
    + destruct (_ || _); [apply IH|].
      apply only_queries_bind; [|intros found; apply IH].
      apply only_queries_try_catch; [|intros e; constructor].
      apply only_queries_bind; [by apply only_queries_await|]. intros stats.
      apply only_queries_bind; [apply only_queries_read_this|]. intros this'.
      destruct (_ >? _); [constructor|].
      apply only_queries_bind; [apply only_queries_searchInFile|]. intros found.
      destruct (_ >? _); constructor.
    + destruct (_ && _); [|apply IH]. destruct (_ || _); apply IH.
Qed.

Lemma only_queries_walk cwd pattern ignoreCase contextLines recursive budget queue
    processedPaths results :
  only_queries (walk cwd pattern ignoreCase contextLines recursive budget queue
                  processedPaths results).
Proof.
  revert queue processedPaths results.
  induction budget as [|budget IH]; intros queue processedPaths results;
    [constructor|].
  destruct queue as [|currentDir queue]; [constructor|].
  cbn [walk]. apply only_queries_bind.
  - apply only_queries_try_catch; [|intros e; constructor].
    apply only_queries_bind; [by apply only_queries_await|]. intros r. constructor.
  - intros [realPath|]; [|apply IH]. destruct (bool_decide _); [apply IH|].
    apply only_queries_bind.
    + apply only_queries_try_catch; [|intros e; constructor].
      apply only_queries_bind; [by apply only_queries_await|]. intros r. constructor.
    + intros [entries|]; [|apply IH].
      apply only_queries_bind; [apply only_queries_process_entries|].
      intros pushed. apply IH.
Qed.

Lemma only_queries_searchInFiles cwd pattern ignoreCase contextLines recursive searchDir :
  only_queries (searchInFiles cwd pattern ignoreCase contextLines recursive searchDir).
Proof.
  unfold searchInFiles. apply only_queries_try_catch; [|intros e; constructor].
  apply only_queries_bind; [apply only_queries_read_this|]. intros this.
  apply only_queries_bind.
  - destruct (_ || _); constructor.
  - intros searchPath. unfold searchInDirectorySafe. apply only_queries_walk.
Qed.

(** X1. [readFile] changes nothing: whatever the path and the state of
    the workspace, and whether it returns the content or fails (at the
    gate, at validation, on a missing or oversized file), the store and
    the manager object, with its counter, are afterwards what they
    were. *)
Theorem readFile_changes_nothing (cwd : str) (dir_size : Z) (now : str) (w : World)
    (filePath : str) :
  snd (run dir_size now (readFile cwd filePath) w) = w.
Proof.
  change (readFile cwd filePath)
    with (gate (try_catch (readFile_body cwd filePath) (readFile_catch filePath))).
  destruct (Z_lt_ge_dec (activeOperations (manager w))
              (maxConcurrentOperations (config (manager w)))) as [Hlt|Hge].
  - rewrite run_gate_admitted by (apply never_writes_readFile_body || done).
    cbn [snd]. rewrite run_only_queries by apply only_queries_readFile_body.
    cbn [admitted disk]. apply world_eta.
  - by rewrite run_gate_rejected.
Qed.

(** X3. Every gated method ([readFile], [writeFile], [partialWriteFile],
    [deleteFile], [renameFile], [streamWriteFile]) called while the
    counter is at or above [maxConcurrentOperations] fails with the
    error of the gate before it does anything: the world is unchanged,
    the counter is not touched. *)
Theorem gate_rejects_when_full (cwd : str) (dir_size : Z) (now : str) (c : Call)
    (w : World) :
  gated c = true ->
  activeOperations (manager w) >= maxConcurrentOperations (config (manager w)) ->
  run_task dir_size now (method cwd c) w = (Some (Error msg_too_many), w).
Proof.
  intros Hg Hfull. destruct (method_gated cwd c Hg) as (A & body & -> & _).
  unfold run_task. by rewrite run_gate_rejected.
Qed.

Lemma gate_rejects_when_full_witness :
  let w := {| manager := set_activeOperations 2 (manager demo_world);
              disk := demo_disk |} in
  run_task 4096 demo_now (method demo_cwd (call_deleteFile (js "a.txt") true)) w
  = (Some (Error msg_too_many), w).
Proof.
  intros w.
  apply (gate_rejects_when_full demo_cwd 4096 demo_now
           (call_deleteFile (js "a.txt") true) w); [reflexivity|].
  simpl. lia.
Defined.

(** X4. Every method, run alone to completion, leaves the manager object
    as it found it, whatever its outcome: the slot a gated method takes
    is given back on success and on every failure, and the configuration
    and the root are never assigned. *)
Theorem every_method_restores_manager (cwd : str) (dir_size : Z) (now : str) (c : Call)
    (w : World) :
  manager (snd (run_task dir_size now (method cwd c) w)) = manager w.
Proof.
  destruct (gated c) eqn:Hg.
  - destruct (method_gated cwd c Hg) as (A & body & -> & Hnw). unfold run_task.
    destruct (Z_lt_ge_dec (activeOperations (manager w))
                (maxConcurrentOperations (config (manager w)))) as [Hlt|Hge].
    + rewrite run_gate_admitted by done. by destruct (fst _).
    + by rewrite run_gate_rejected.
  - destruct (method_ungated cwd c Hg) as (A & m & -> & Hnw). unfold run_task.
    pose proof (run_never_writes dir_size now m w Hnw) as Hm.
    destruct (run dir_size now m w) as [[a|e] w']; exact Hm.
Qed.

(** ** What the handlers of the methods let through *)

Lemma includes_app_r s t p : includes t p = true -> includes (s ++ t) p = true.
Proof.
  intros H. induction s as [|c s IH]; [done|].
  change ((c :: s) ++ t) with (c :: (s ++ t)).
  rewrite includes_cons, IH. apply orb_true_r.
Qed.

Lemma includes_startsWith s p : startsWith s p = true -> includes s p = true.
Proof. intros H. unfold includes. destruct s; simpl; by rewrite H. Qed.

Lemma includes_app_l s t p : includes s p = true -> includes (s ++ t) p = true.
Proof.
  induction s as [|c s IH].
  - unfold includes. simpl. destruct (startsWith [] p) eqn:E; [|done]. intros _.
    apply includes_startsWith. apply startsWith_prefix.
    apply startsWith_prefix in E. exact (prefix_app_r p [] t E).
  - change ((c :: s) ++ t) with (c :: (s ++ t)). rewrite !includes_cons.
    intros [H|H]%orb_true_iff.
    + apply orb_true_iff. left. apply startsWith_prefix.
      apply startsWith_prefix in H.
      exact (prefix_app_r p (c :: s) t H).
    + rewrite IH by done. apply orb_true_r.
Qed.

Lemma includes_app s p t : includes (s ++ p ++ t) p = true.
Proof.
  apply includes_app_r, includes_app_l, includes_startsWith, startsWith_refl.
Qed.

Lemma missing_ENOENT syscall d p :
  below_a_file (length p) d p = false -> missing syscall d p = ENOENT syscall p.
Proof. intros H. unfold missing. by rewrite H. Qed.

Lemma below_a_file_in_directory fuel d p :
  d !! path.dirname p = Some Directory -> below_a_file fuel d p = false.
Proof. intros H. destruct fuel; simpl; by rewrite H. Qed.

Section Outcomes.

Variable cwd : str.
Variable dir_size : Z.
Variable now : str.

Local Abbreviation run := (run dir_size now).

Lemma run_gate_try_catch {A} (body : Async A) (h : JsError -> Async A) w :
  never_writes (try_catch body h) ->
  activeOperations (manager w) < maxConcurrentOperations (config (manager w)) ->
  run (gate (try_catch body h)) w =
  match run body (admitted w) with
  | (Ok a, w') => (Ok a, {| manager := manager w; disk := disk w' |})
  | (Throw e, w') =>
      (fst (run (h e) w'), {| manager := manager w; disk := disk (snd (run (h e) w')) |})
  end.
Proof.
  intros Hnw Hlt. rewrite run_gate_admitted by done. rewrite run_try_catch.
  by destruct (run body (admitted w)) as [[a|e] w'].
Qed.

Lemma validatePath_admitted w filePath b :
  validatePath cwd (manager (admitted w)) filePath b
  = validatePath cwd (manager w) filePath b.
Proof. apply validatePath_set_activeOperations. Qed.

Lemma admitted_back w :
  {| manager := manager w; disk := disk (admitted w) |} = w.
Proof. by destruct w. Qed.

Lemma run_readFile_body_missing filePath safePath w :
  validatePath cwd (manager w) filePath true = Ok safePath ->
  disk w !! safePath = None ->
  below_a_file (length safePath) (disk w) safePath = false ->
  run (readFile_body cwd filePath) w = (Throw (Error (msg_not_exist filePath)), w).
Proof.
  intros Hvalid Hnone Hparent. unfold readFile_body.
  rewrite run_bind, run_read_this, run_bind, run_lift, Hvalid.
  rewrite run_bind, run_try_catch, run_await. cbn [perform]. rewrite Hnone.
  cbn [fst snd]. rewrite missing_ENOENT by done.
  change (is_ENOENT (ENOENT "access" safePath)) with true. cbn match.
  by rewrite run_throw, world_eta.
Qed.


End Outcomes.

(** X5. [readFile] of a valid path at which nothing exists. When no
    regular file is on the way to it (the directories exist, or are
    missing too), it fails with the error "File '...' does not exist",
    not wrapped by the handler of the method; the path in the message
    is the one the caller gave. When a regular file is on the way,
    [fs.access] answers [ENOTDIR], which is not taken for a missing
    file: the error is that one, wrapped as a failed read unless its
    text happens to pass the filter of the handler. Nothing changes in
    either case. *)
Theorem readFile_missing_file (cwd : str) (dir_size : Z) (now : str) (w : World)
    (filePath safePath : str) :
  activeOperations (manager w) < maxConcurrentOperations (config (manager w)) ->
  validatePath cwd (manager w) filePath true = Ok safePath ->
  disk w !! safePath = None ->
  (below_a_file (length safePath) (disk w) safePath = false ->
   run dir_size now (readFile cwd filePath) w
   = (Throw (Error (msg_not_exist filePath)), w))
  ∧ (below_a_file (length safePath) (disk w) safePath = true ->
     ∃ e, run dir_size now (readFile cwd filePath) w = (Throw e, w)
          ∧ (e = ENOTDIR "access" safePath
             ∨ e = Error (msg_failed_read filePath (message (ENOTDIR "access" safePath))))
          ∧ e ≠ Error (msg_not_exist filePath)).
Proof.
  intros Hgate Hvalid Hnone.
  change (readFile cwd filePath)
    with (gate (try_catch (readFile_body cwd filePath) (readFile_catch filePath))).
  rewrite run_gate_try_catch by (apply never_writes_readFile_body || done).
  split; intros Hway.
  - rewrite run_readFile_body_missing with (safePath := safePath);
      [|by rewrite validatePath_admitted|done|done].
    unfold readFile_catch. cbn [message Error].
    assert (includes (msg_not_exist filePath) (js "does not exist") = true) as ->.
    { unfold msg_not_exist. apply includes_app_r, includes_app_r. reflexivity. }
    cbn [orb]. rewrite run_throw. cbn [fst snd]. by rewrite admitted_back.
  - assert (run dir_size now (readFile_body cwd filePath) (admitted w)
            = (Throw (ENOTDIR "access" safePath), admitted w)) as ->.
    { unfold readFile_body.
      rewrite run_bind, run_read_this, run_bind, run_lift, validatePath_admitted, Hvalid.
      rewrite run_bind, run_try_catch, run_await. cbn [perform admitted disk].
      rewrite Hnone. cbn [fst snd]. unfold missing. rewrite Hway.
      change (is_ENOENT (ENOTDIR "access" safePath)) with false. cbn match.
      by rewrite run_throw. }
    unfold readFile_catch. destruct (_ || _); rewrite run_throw; cbn [fst snd];
      rewrite admitted_back; eexists; (split; [reflexivity|]);
      (split; [by (left + right)|]).
    + discriminate.
    + unfold msg_failed_read, msg_not_exist. by intros [= H].
Qed.

Lemma readFile_missing_file_witness :
  let w := {| manager := manager demo_world;
              disk := <[js "/srv/ws/a.txt" := File (js "abcabd")]> demo_disk |} in
  run 4096 demo_now (readFile demo_cwd (js "sub/none.txt")) w
  = (Throw (Error (js "File 'sub/none.txt' does not exist")), w)
  ∧ ∃ e, run 4096 demo_now (readFile demo_cwd (js "a.txt/x/none.txt")) w = (Throw e, w)
         ∧ (e = ENOTDIR "access" (js "/srv/ws/a.txt/x/none.txt")
            ∨ e = Error (msg_failed_read (js "a.txt/x/none.txt")
                           (message (ENOTDIR "access" (js "/srv/ws/a.txt/x/none.txt")))))
         ∧ e ≠ Error (msg_not_exist (js "a.txt/x/none.txt")).
Proof.
  intros w. split.
  - apply (readFile_missing_file demo_cwd 4096 demo_now w (js "sub/none.txt")
             (js "/srv/ws/sub/none.txt")).
    + simpl. lia.
    + vm_compute. reflexivity.
    + vm_compute. reflexivity.
    + vm_compute. reflexivity.
  - apply (readFile_missing_file demo_cwd 4096 demo_now w (js "a.txt/x/none.txt")
             (js "/srv/ws/a.txt/x/none.txt")).
    + simpl. lia.
    + vm_compute. reflexivity.
    + vm_compute. reflexivity.
    + vm_compute. reflexivity.
Defined.

(** The file on the way makes the difference between the two errors. *)
Example readFile_below_a_file :
  run 4096 demo_now (readFile demo_cwd (js "a.txt/x/none.txt")) demo_world
  = (Throw (Error (js "Failed to read file 'a.txt/x/none.txt': ENOTDIR: not a directory, access '/srv/ws/a.txt/x/none.txt'")),
     demo_world).
Proof. vm_compute. reflexivity. Qed.



(** ** Deleting and renaming *)

Section DeleteRename.

Variable cwd : str.
Variable dir_size : Z.
Variable now : str.

Local Abbreviation run := (run dir_size now).

Lemma run_access_present (p : str) (h : JsError -> Async unit) v w :
  disk w !! p = Some v ->
  run (try_catch (await (fs_access p)) h) w = (Ok tt, w).
Proof.
  intros H. rewrite run_try_catch, run_await. cbn [perform]. rewrite H.
  cbn [fst snd]. by rewrite world_eta.
Qed.

Lemma run_deleteFile_body filePath safePath withBackup current w :
  validatePath cwd (manager w) filePath true = Ok safePath ->
  disk w !! safePath = Some (File current) ->
  run (deleteFile_body cwd filePath withBackup) w =
  match run (if withBackup then createBackup safePath else ret tt) w with
  | (Ok _, wb) => run (await (fs_unlink safePath)) wb
  | (Throw e, wb) => (Throw e, wb)
  end.
Proof.
  intros Hvalid Hfile. unfold deleteFile_body.
  rewrite run_bind, run_read_this, run_bind, run_lift, Hvalid.
  rewrite run_bind, (run_access_present _ _ _ _ Hfile).
  by rewrite run_bind.
Qed.

Lemma run_renameFile_body oldPath newPath safeOldPath safeNewPath withBackup v w :
  validatePath cwd (manager w) oldPath true = Ok safeOldPath ->
  validatePath cwd (manager w) newPath true = Ok safeNewPath ->
  disk w !! safeOldPath = Some v ->
  disk w !! safeNewPath = None ->
  below_a_file (length safeNewPath) (disk w) safeNewPath = false ->
  run (renameFile_body cwd oldPath newPath withBackup) w =
  match run (if withBackup then createBackup safeOldPath else ret tt) w with
  | (Ok _, wb) =>
      run (await (fs_mkdir (path.dirname safeNewPath)) ;;
           await (fs_rename safeOldPath safeNewPath))%async wb
  | (Throw e, wb) => (Throw e, wb)
  end.
Proof.
  intros Hold Hnew Hsrc Hdst Hparent. unfold renameFile_body.
  rewrite run_bind, run_read_this, run_bind, run_lift, Hold.
  rewrite run_bind, run_lift, Hnew.
  rewrite run_bind, (run_access_present _ _ _ _ Hsrc).
  rewrite run_bind, run_try_catch, run_bind, run_await. cbn [perform].
  rewrite Hdst. cbn [fst snd]. rewrite missing_ENOENT by done.
  change (is_ENOENT (ENOENT "access" safeNewPath)) with true. cbn [negb].
  rewrite run_ret, world_eta. by rewrite run_bind.
Qed.

End DeleteRename.

(** X7. [deleteFile] without a backup, of a valid path that holds a
    regular file, succeeds, and the store afterwards is the store from
    before without that one entry; the manager is as before. *)
Theorem deleteFile_removes_the_file (cwd : str) (dir_size : Z) (now : str) (w : World)
    (filePath safePath current : str) :
  activeOperations (manager w) < maxConcurrentOperations (config (manager w)) ->
  validatePath cwd (manager w) filePath true = Ok safePath ->
  disk w !! safePath = Some (File current) ->
  run dir_size now (deleteFile cwd filePath false) w
  = (Ok tt, {| manager := manager w; disk := delete safePath (disk w) |}).
Proof.
  intros Hgate Hvalid Hfile.
  change (deleteFile cwd filePath false)
    with (gate (try_catch (deleteFile_body cwd filePath false) (deleteFile_catch filePath))).
  rewrite run_gate_try_catch;
    [|apply never_writes_deleteFile_body|done].
  rewrite run_deleteFile_body with (safePath := safePath) (current := current);
    [|by rewrite validatePath_admitted|done].
  rewrite run_ret, run_await. cbn [perform admitted disk]. by rewrite Hfile.
Qed.

Lemma deleteFile_removes_the_file_witness :
  run 4096 demo_now (deleteFile demo_cwd (js "a.txt") false) demo_world
  = (Ok tt, {| manager := manager demo_world;
               disk := delete (js "/srv/ws/a.txt") (disk demo_world) |}).
Proof.
  apply (deleteFile_removes_the_file demo_cwd 4096 demo_now demo_world (js "a.txt")
           (js "/srv/ws/a.txt") (js "abcabd")).
  - simpl. lia.
  - reflexivity.
  - reflexivity.
Defined.

(** X8. [deleteFile] with a backup aborts when the backup cannot be
    made: if [createBackup] fails, in whatever way, the method fails and
    the file is still there with its content; the manager is as
    before. *)
Theorem deleteFile_aborts_when_backup_fails (cwd : str) (dir_size : Z) (now : str)
    (w wb : World) (filePath safePath current : str) (e : JsError) :
  activeOperations (manager w) < maxConcurrentOperations (config (manager w)) ->
  validatePath cwd (manager w) filePath true = Ok safePath ->
  disk w !! safePath = Some (File current) ->
  path.slash ∉ now ->
  run dir_size now (createBackup safePath) (admitted w) = (Throw e, wb) ->
  ∃ e' w',
    run dir_size now (deleteFile cwd filePath true) w = (Throw e', w')
    ∧ disk w' !! safePath = Some (File current)
    ∧ manager w' = manager w.
Proof.
  intros Hgate Hvalid Hfile Hnow Hbackup.
  change (deleteFile cwd filePath true)
    with (gate (try_catch (deleteFile_body cwd filePath true) (deleteFile_catch filePath))).
  rewrite run_gate_try_catch;
    [|apply never_writes_deleteFile_body|done].
  rewrite run_deleteFile_body with (safePath := safePath) (current := current);
    [|by rewrite validatePath_admitted|done].
  rewrite Hbackup.
  destruct (run_createBackup dir_size now safePath current (admitted w) _ _ Hbackup Hfile)
    as (_ & _ & Hkeep & _).
  assert (disk wb !! safePath = Some (File current)) as Hstill.
  { apply Hkeep; [|done]. intros Heq. symmetry in Heq. by apply (backupPath_not_source _ _ _ Hnow Heq). }
  unfold deleteFile_catch. destruct (_ || _); rewrite run_throw; cbn [fst snd];
    eexists _, _; (split; [reflexivity|]); by split.
Qed.

Lemma deleteFile_aborts_when_backup_fails_witness :
  ∃ e' w',
    run 4096 demo_now (deleteFile demo_cwd (js "a.txt") true) blocked_world = (Throw e', w')
    ∧ disk w' !! js "/srv/ws/a.txt" = Some (File (js "abcabd"))
    ∧ manager w' = manager blocked_world.
Proof.
  apply (deleteFile_aborts_when_backup_fails demo_cwd 4096 demo_now blocked_world
           (admitted blocked_world) (js "a.txt") (js "/srv/ws/a.txt") (js "abcabd")
           (EEXIST "mkdir" (js "/srv/ws/.backups"))).
  - vm_compute. reflexivity.
  - vm_compute. reflexivity.
  - vm_compute. reflexivity.
  - vm_compute. intros H. by repeat (apply elem_of_cons in H as [H|H]; [discriminate|]);
      apply elem_of_nil in H.
  - vm_compute. reflexivity.
Defined.

Lemma mkdir_p_present fuel d p :
  d !! p = Some Directory -> mkdir_p fuel d p = (Ok tt, d).
Proof. intros H. destruct fuel; simpl; by rewrite H. Qed.

(** X9. [renameFile] onto a path at which something exists (a file or a
    directory, the source itself included) fails with the error
    "Destination '...' already exists", not wrapped, and changes
    nothing, with or without a backup asked for: the test comes before
    the backup. *)
Theorem renameFile_destination_exists (cwd : str) (dir_size : Z) (now : str) (w : World)
    (oldPath newPath safeOldPath safeNewPath : str) (withBackup : bool) (v v' : node) :
  activeOperations (manager w) < maxConcurrentOperations (config (manager w)) ->
  validatePath cwd (manager w) oldPath true = Ok safeOldPath ->
  validatePath cwd (manager w) newPath true = Ok safeNewPath ->
  disk w !! safeOldPath = Some v ->
  disk w !! safeNewPath = Some v' ->
  run dir_size now (renameFile cwd oldPath newPath withBackup) w
  = (Throw (Error (msg_destination_exists newPath)), w).
Proof.
  intros Hgate Hold Hnew Hsrc Hdst.
  change (renameFile cwd oldPath newPath withBackup)
    with (gate (try_catch (renameFile_body cwd oldPath newPath withBackup)
                  (renameFile_catch oldPath newPath))).
  rewrite run_gate_try_catch; [|apply never_writes_renameFile_body|done].
  assert (run dir_size now (renameFile_body cwd oldPath newPath withBackup) (admitted w)
          = (Throw (Error (msg_destination_exists newPath)), admitted w)) as ->.
  { unfold renameFile_body.
    rewrite run_bind, run_read_this, run_bind, run_lift, validatePath_admitted, Hold.
    rewrite run_bind, run_lift, validatePath_admitted, Hnew.
    rewrite run_bind, (run_access_present _ _ _ _ _ (admitted w) Hsrc).
    rewrite run_bind, run_try_catch, run_bind, run_await. cbn [perform admitted disk].
    rewrite Hdst. cbn [fst snd]. rewrite run_throw.
    change (is_ENOENT (Error (msg_destination_exists newPath))) with false.
    cbn [negb]. by rewrite run_throw. }
  unfold renameFile_catch. cbn [message Error].
  assert (includes (msg_destination_exists newPath) (js "already exists") = true) as ->.
  { unfold msg_destination_exists. apply includes_app_r, includes_app_r. reflexivity. }
  rewrite orb_true_r. cbn [orb]. rewrite run_throw. cbn [fst snd].
  by rewrite admitted_back.
Qed.

Lemma renameFile_destination_exists_witness :
  run 4096 demo_now (renameFile demo_cwd (js "a.txt") (js "a.txt") true) demo_world
  = (Throw (Error (js "Destination 'a.txt' already exists")), demo_world).
Proof.
  apply (renameFile_destination_exists demo_cwd 4096 demo_now demo_world (js "a.txt")
           (js "a.txt") (js "/srv/ws/a.txt") (js "/srv/ws/a.txt") true
           (File (js "abcabd")) (File (js "abcabd"))).
  - simpl. lia.
  - reflexivity.
  - reflexivity.
  - reflexivity.
  - reflexivity.
Defined.

(** X10. [renameFile] without a backup, from a regular file to a free
    path in an existing directory, succeeds: afterwards the new path
    holds the content, the old path holds nothing, and all other entries
    and the manager are as before. *)
Theorem renameFile_moves_the_file (cwd : str) (dir_size : Z) (now : str) (w : World)
    (oldPath newPath safeOldPath safeNewPath current : str) :
  activeOperations (manager w) < maxConcurrentOperations (config (manager w)) ->
  validatePath cwd (manager w) oldPath true = Ok safeOldPath ->
  validatePath cwd (manager w) newPath true = Ok safeNewPath ->
  disk w !! safeOldPath = Some (File current) ->
  disk w !! safeNewPath = None ->
  disk w !! path.dirname safeNewPath = Some Directory ->
  run dir_size now (renameFile cwd oldPath newPath false) w
  = (Ok tt, {| manager := manager w;
               disk := <[safeNewPath := File current]> (delete safeOldPath (disk w)) |}).
Proof.
  intros Hgate Hold Hnew Hsrc Hdst Hparent.
  change (renameFile cwd oldPath newPath false)
    with (gate (try_catch (renameFile_body cwd oldPath newPath false)
                  (renameFile_catch oldPath newPath))).
  rewrite run_gate_try_catch; [|apply never_writes_renameFile_body|done].
  rewrite run_renameFile_body
    with (safeOldPath := safeOldPath) (safeNewPath := safeNewPath) (v := File current);
    [|by rewrite validatePath_admitted|by rewrite validatePath_admitted|done|done|].
  2:{ cbn [admitted disk]. by apply below_a_file_in_directory. }
  rewrite run_ret, run_bind, run_await. cbn [perform admitted disk manager].
  rewrite mkdir_p_present by done. cbn [fst snd].
  rewrite run_await. cbn [perform disk manager]. unfold store_rename.
  rewrite Hsrc. rewrite str_eqb_neq by (intros ->; congruence).
  by rewrite Hparent, Hdst.
Qed.

Lemma renameFile_moves_the_file_witness :
  run 4096 demo_now (renameFile demo_cwd (js "a.txt") (js "b.txt") false) demo_world
  = (Ok tt, {| manager := manager demo_world;
               disk := <[js "/srv/ws/b.txt" := File (js "abcabd")]>
                         (delete (js "/srv/ws/a.txt") (disk demo_world)) |}).
Proof.
  apply (renameFile_moves_the_file demo_cwd 4096 demo_now demo_world (js "a.txt")
           (js "b.txt") (js "/srv/ws/a.txt") (js "/srv/ws/b.txt") (js "abcabd")).
  - simpl. lia.
  - reflexivity.
  - reflexivity.
  - reflexivity.
  - reflexivity.
  - reflexivity.
Defined.

(** X11. [renameFile] with a backup aborts when the backup cannot be
    made: with a destination that is free to take (nothing at it, and
    no regular file on the way to it, so that [fs.access] answers
    [ENOENT]), if [createBackup] fails, the method fails, the source is
    still there with its content and the store is the one the backup
    left. *)
Theorem renameFile_aborts_when_backup_fails (cwd : str) (dir_size : Z) (now : str)
    (w wb : World) (oldPath newPath safeOldPath safeNewPath current : str) (e : JsError) :
  activeOperations (manager w) < maxConcurrentOperations (config (manager w)) ->
  validatePath cwd (manager w) oldPath true = Ok safeOldPath ->
  validatePath cwd (manager w) newPath true = Ok safeNewPath ->
  disk w !! safeOldPath = Some (File current) ->
  disk w !! safeNewPath = None ->
  below_a_file (length safeNewPath) (disk w) safeNewPath = false ->
  path.slash ∉ now ->
  run dir_size now (createBackup safeOldPath) (admitted w) = (Throw e, wb) ->
  ∃ e' w',
    run dir_size now (renameFile cwd oldPath newPath true) w = (Throw e', w')
    ∧ disk w' !! safeOldPath = Some (File current)
    ∧ disk w' = disk wb
    ∧ manager w' = manager w.
Proof.
  intros Hgate Hold Hnew Hsrc Hdst Hparent Hnow Hbackup.
  change (renameFile cwd oldPath newPath true)
    with (gate (try_catch (renameFile_body cwd oldPath newPath true)
                  (renameFile_catch oldPath newPath))).
  rewrite run_gate_try_catch; [|apply never_writes_renameFile_body|done].
  rewrite run_renameFile_body
    with (safeOldPath := safeOldPath) (safeNewPath := safeNewPath) (v := File current);
    [|by rewrite validatePath_admitted|by rewrite validatePath_admitted|done|done|done].
  rewrite Hbackup.
  destruct (run_createBackup dir_size now safeOldPath current (admitted w) _ _ Hbackup Hsrc)
    as (_ & _ & Hkeep & _).
  assert (disk wb !! safeOldPath = Some (File current)) as Hstill.
  { apply Hkeep; [|done]. intros Heq. symmetry in Heq.
    by apply (backupPath_not_source _ _ _ Hnow Heq). }
  unfold renameFile_catch. destruct (_ || _); rewrite run_throw; cbn [fst snd];
    eexists _, _; (split; [reflexivity|]); by repeat split.
Qed.

Lemma renameFile_aborts_when_backup_fails_witness :
  ∃ e' w',
    run 4096 demo_now (renameFile demo_cwd (js "a.txt") (js "b.txt") true) blocked_world
    = (Throw e', w')
    ∧ disk w' !! js "/srv/ws/a.txt" = Some (File (js "abcabd"))
    ∧ disk w' = disk (admitted blocked_world)
    ∧ manager w' = manager blocked_world.
Proof.
  apply (renameFile_aborts_when_backup_fails demo_cwd 4096 demo_now blocked_world
           (admitted blocked_world) (js "a.txt") (js "b.txt") (js "/srv/ws/a.txt")
           (js "/srv/ws/b.txt") (js "abcabd") (EEXIST "mkdir" (js "/srv/ws/.backups"))).
  - vm_compute. reflexivity.
  - vm_compute. reflexivity.
  - vm_compute. reflexivity.
  - vm_compute. reflexivity.
  - vm_compute. reflexivity.
  - vm_compute. reflexivity.
  - vm_compute. intros H. by repeat (apply elem_of_cons in H as [H|H]; [discriminate|]);
      apply elem_of_nil in H.
  - vm_compute. reflexivity.
Defined.

(** X12. [partialWriteFile] with the empty string as the old fragment
    never replaces anything: on every existing regular file, empty or
    not, it fails as ambiguous and changes nothing, because the second
    [indexOf ('', 1)] finds the empty string again. *)
Theorem partialWriteFile_empty_fragment (cwd : str) (dir_size : Z) (now : str) (w : World)
    (filePath newContent safePath current : str) :
  activeOperations (manager w) < maxConcurrentOperations (config (manager w)) ->
  validatePath cwd (manager w) filePath true = Ok safePath ->
  disk w !! safePath = Some (File current) ->
  run dir_size now (partialWriteFile cwd filePath [] newContent) w
  = (Throw (Error (msg_failed_partial filePath msg_ambiguous)), w).
Proof.
  intros Hgate Hvalid Hfile.
  change (partialWriteFile cwd filePath [] newContent)
    with (gate (try_catch (partialWriteFile_body cwd filePath [] newContent)
                  (λ error, throw (Error (msg_failed_partial filePath (message error)))))).
  rewrite run_gate_try_catch;
    [|apply never_writes_try_catch;
        [apply never_writes_partialWriteFile_body|intros e; constructor]
     |done].
  rewrite run_partialWriteFile_body with (safePath := safePath) (current := current);
    [|by rewrite validatePath_admitted|done].
  assert (indexOf current [] 0 = 0) as ->.
  { unfold indexOf. destruct current; reflexivity. }
  assert (indexOf current [] (0 + 1) ≠ -1) as Hsecond.
  { unfold indexOf. destruct (drop _ current); simpl; lia. }
  cbn zeta. change (0 =? -1) with false. cbn match.
  apply Z.eqb_neq in Hsecond. rewrite Hsecond. cbn [negb].
  rewrite run_throw. cbn [fst snd message Error]. by rewrite admitted_back.
Qed.

Lemma partialWriteFile_empty_fragment_witness :
  run 4096 demo_now (partialWriteFile demo_cwd (js "a.txt") [] (js "x")) demo_world
  = (Throw (Error (msg_failed_partial (js "a.txt") msg_ambiguous)), demo_world).
Proof.
  apply (partialWriteFile_empty_fragment demo_cwd 4096 demo_now demo_world (js "a.txt")
           (js "x") (js "/srv/ws/a.txt") (js "abcabd")).
  - simpl. lia.
  - reflexivity.
  - reflexivity.
Defined.

(** ** Writing a stream *)

Section Stream.

Variable dir_size : Z.
Variable now : str.

Local Abbreviation run := (run dir_size now).

(** The monitor in front of a file that holds [c]: a stream within the
    limit is added to the file as a whole; a stream over the limit is
    refused with the size error; only the target changes. *)
Lemma run_monitorStream safePath max chunks : ∀ bytesWritten c w,
  disk w !! safePath = Some (File c) ->
  ∃ r written,
    run (monitorStream safePath max chunks bytesWritten) w
    = (r, {| manager := manager w; disk := <[safePath := File (c ++ written)]> (disk w) |})
    ∧ (bytesWritten + Z.of_nat (length (concat chunks)) <= max ->
       r = Ok tt ∧ written = concat chunks)
    ∧ (bytesWritten <= max -> bytesWritten + Z.of_nat (length (concat chunks)) > max ->
       r = Throw (Error (msg_stream_too_large max))).
Proof.
  induction chunks as [|chunk rest IH]; intros bytesWritten c w Hfile.
  - exists (Ok tt), []. cbn [monitorStream concat]. rewrite run_ret, app_nil_r.
    rewrite insert_id by done. rewrite world_eta. split; [done|]. split; [done|].
    cbn [length]. lia.
  - cbn [monitorStream concat].
    destruct (bytesWritten + Z.of_nat (length chunk) >? max) eqn:Hover.
    + eexists _, []. rewrite run_throw, app_nil_r. rewrite insert_id by done.
      rewrite world_eta. split; [reflexivity|]. rewrite length_app. split; [lia | done].
    + rewrite run_bind, run_await. cbn [perform]. rewrite Hfile. cbn [fst snd].
      destruct (IH (bytesWritten + Z.of_nat (length chunk)) (c ++ chunk)
                  {| manager := manager w;
                     disk := <[safePath := File (c ++ chunk)]> (disk w) |})
        as (r & written & Hrun & Hall & Hrefused).
      { cbn [disk]. apply lookup_insert_eq. }
      exists r, (chunk ++ written). rewrite Hrun. cbn [manager disk].
      rewrite insert_insert_eq, <- app_assoc. split; [done|].
      rewrite length_app. split.
      * intros Hle. destruct Hall as [-> ->]; [lia | done].
      * intros Hb Hgt. apply Hrefused; lia.
Qed.

End Stream.

Lemma run_streamWriteFile (cwd : str) (dir_size : Z) (now : str) (w : World)
    (filePath safePath : str) (contentStream : list str) :
  activeOperations (manager w) < maxConcurrentOperations (config (manager w)) ->
  validatePath cwd (manager w) filePath true = Ok safePath ->
  disk w !! path.dirname safePath = Some Directory ->
  disk w !! safePath ≠ Some Directory ->
  ∃ r written,
    run dir_size now (streamWriteFile cwd filePath contentStream) w
    = (r, {| manager := manager w; disk := <[safePath := File written]> (disk w) |})
    ∧ (Z.of_nat (length (concat contentStream)) <= maxFileSize (config (manager w)) ->
       r = Ok tt ∧ written = concat contentStream)
    ∧ (0 <= maxFileSize (config (manager w)) ->
       Z.of_nat (length (concat contentStream)) > maxFileSize (config (manager w)) ->
       r = Throw (Error (msg_failed_stream filePath
                           (msg_stream_too_large (maxFileSize (config (manager w))))))).
Proof.
  intros Hgate Hvalid Hparent Hnodir.
  change (streamWriteFile cwd filePath contentStream)
    with (gate (try_catch (streamWriteFile_body cwd filePath contentStream)
                  (λ error, throw (Error (msg_failed_stream filePath (message error)))))).
  rewrite run_gate_try_catch;
    [|apply never_writes_try_catch;
        [apply never_writes_streamWriteFile_body|intros e; constructor]
     |done].
  unfold streamWriteFile_body.
  rewrite run_bind, run_read_this, run_bind, run_lift, validatePath_admitted, Hvalid.
  rewrite run_bind, run_await. cbn [perform admitted disk manager].
  rewrite mkdir_p_present by done. cbn [fst snd].
  rewrite run_bind, run_await. cbn [perform disk manager]. unfold store_file.
  destruct (disk w !! safePath) as [[c0|]|] eqn:Hsafe; [|done|]; rewrite Hparent;
    cbn [fst snd]; rewrite run_bind, run_read_this; cbn [manager config set_activeOperations].
  all: match goal with
       | |- context [run _ _ (monitorStream ?p ?max ?chunks ?b) ?w'] =>
           destruct (run_monitorStream dir_size now p max chunks b [] w')
             as (r & written & Hrun & Hall & Hrefused);
             [cbn [disk]; apply lookup_insert_eq|]
       end.
  all: rewrite Hrun; cbn [manager disk app]; rewrite insert_insert_eq.
  all: destruct r as [[]|e];
    [exists (Ok tt), written
    |rewrite run_throw; cbn [fst snd disk];
     exists (Throw (Error (msg_failed_stream filePath (message e)))), written].
  all: split; [reflexivity|]; split.
  all: try (intros Hle; destruct Hall as [Hr ->]; [lia|]; by (done || discriminate)).
  all: intros Hmax Hgt; specialize (Hrefused ltac:(lia) ltac:(lia)); try discriminate.
  all: by injection Hrefused as ->.
Qed.

(** X13. [streamWriteFile] of a stream whose chunks together hold at
    most [maxFileSize] bytes, to a valid path in an existing directory,
    succeeds, and the file then holds the chunks one after the other;
    what was in the file before is gone. *)
Theorem streamWriteFile_writes_the_stream (cwd : str) (dir_size : Z) (now : str)
    (w : World) (filePath safePath : str) (contentStream : list str) :
  activeOperations (manager w) < maxConcurrentOperations (config (manager w)) ->
  validatePath cwd (manager w) filePath true = Ok safePath ->
  disk w !! path.dirname safePath = Some Directory ->
  disk w !! safePath ≠ Some Directory ->
  Z.of_nat (length (concat contentStream)) <= maxFileSize (config (manager w)) ->
  run dir_size now (streamWriteFile cwd filePath contentStream) w
  = (Ok tt, {| manager := manager w;
               disk := <[safePath := File (concat contentStream)]> (disk w) |}).
Proof.
  intros Hgate Hvalid Hparent Hnodir Hsize.
  destruct (run_streamWriteFile cwd dir_size now w filePath safePath contentStream
              Hgate Hvalid Hparent Hnodir) as (r & written & -> & Hall & _).
  by destruct (Hall Hsize) as [-> ->].
Qed.

Lemma streamWriteFile_writes_the_stream_witness :
  run 4096 demo_now (streamWriteFile demo_cwd (js "a.txt") [js "01234"; js "56789"])
    demo_world
  = (Ok tt, {| manager := manager demo_world;
               disk := <[js "/srv/ws/a.txt" := File (js "0123456789")]>
                         (disk demo_world) |}).
Proof.
  apply (streamWriteFile_writes_the_stream demo_cwd 4096 demo_now demo_world (js "a.txt")
           (js "/srv/ws/a.txt") [js "01234"; js "56789"]).
  - simpl. lia.
  - reflexivity.
  - reflexivity.
  - vm_compute. discriminate.
  - simpl. lia.
Defined.

(** X14. [streamWriteFile] of a stream whose chunks together hold more
    than [maxFileSize] bytes, to a valid path in an existing directory,
    fails with the size error of the monitor, wrapped as a failed
    stream write. The manager is as before, and no entry of the store
    other than the target has changed. *)
Theorem streamWriteFile_over_limit (cwd : str) (dir_size : Z) (now : str)
    (w : World) (filePath safePath : str) (contentStream : list str) :
  activeOperations (manager w) < maxConcurrentOperations (config (manager w)) ->
  validatePath cwd (manager w) filePath true = Ok safePath ->
  disk w !! path.dirname safePath = Some Directory ->
  disk w !! safePath ≠ Some Directory ->
  0 <= maxFileSize (config (manager w)) ->
  Z.of_nat (length (concat contentStream)) > maxFileSize (config (manager w)) ->
  ∃ w',
    run dir_size now (streamWriteFile cwd filePath contentStream) w
    = (Throw (Error (msg_failed_stream filePath
                       (msg_stream_too_large (maxFileSize (config (manager w)))))), w')
    ∧ manager w' = manager w
    ∧ ∀ q, q ≠ safePath -> disk w' !! q = disk w !! q.
Proof.
  intros Hgate Hvalid Hparent Hnodir Hmax Hsize.
  destruct (run_streamWriteFile cwd dir_size now w filePath safePath contentStream
              Hgate Hvalid Hparent Hnodir) as (r & written & Hrun & _ & Hrefused).
  rewrite (Hrefused Hmax Hsize) in Hrun. eexists. split; [exact Hrun|].
  split; [done|]. intros q Hq. cbn [disk]. by rewrite lookup_insert_ne.
Qed.

Lemma streamWriteFile_over_limit_witness :
  ∃ w',
    run 4096 demo_now
      (streamWriteFile demo_cwd (js "a.txt") [js "01234"; js "56789"; js "A"]) demo_world
    = (Throw (Error (js "Failed to stream write file 'a.txt': Stream size exceeds maximum allowed size (10 bytes)")),
       w')
    ∧ manager w' = manager demo_world
    ∧ ∀ q, q ≠ js "/srv/ws/a.txt" -> disk w' !! q = disk demo_world !! q.
Proof.
  apply (streamWriteFile_over_limit demo_cwd 4096 demo_now demo_world (js "a.txt")
           (js "/srv/ws/a.txt") [js "01234"; js "56789"; js "A"]).
  - simpl. lia.
  - reflexivity.
  - reflexivity.
  - vm_compute. discriminate.
  - simpl. lia.
  - simpl. lia.
Defined.

(** ** Backups *)

(** X15. [createBackup] never touches the file it copies: after the
    call, failed or not, the source holds the content it had, the
    manager is as before, and when the call succeeds the backup, at a
    path other than the source, holds that same content. *)
Theorem createBackup_keeps_source (dir_size : Z) (now : str) (w wb : World)
    (filePath current : str) (r : result unit) :
  disk w !! filePath = Some (File current) ->
  path.slash ∉ now ->
  run dir_size now (createBackup filePath) w = (r, wb) ->
  disk wb !! filePath = Some (File current)
  ∧ manager wb = manager w
  ∧ backupPath_of (manager w) now filePath ≠ filePath
  ∧ (r = Ok tt ->
     disk wb !! backupPath_of (manager w) now filePath = Some (File current)).
Proof.
  intros Hfile Hnow Hrun.
  destruct (run_createBackup dir_size now filePath current w r wb Hrun Hfile)
    as (Hm & _ & Hkeep & Hcopy).
  pose proof (backupPath_not_source (manager w) now filePath Hnow) as Hne.
  split; [|done]. apply Hkeep; [|done]. intros Heq. by apply Hne.
Qed.

Lemma createBackup_keeps_source_witness :
  let wb := snd (run 4096 demo_now (createBackup (js "/srv/ws/a.txt")) demo_world) in
  disk wb !! js "/srv/ws/a.txt" = Some (File (js "abcabd"))
  ∧ manager wb = manager demo_world
  ∧ backupPath_of (manager demo_world) demo_now (js "/srv/ws/a.txt") ≠ js "/srv/ws/a.txt"
  ∧ (Ok tt = Ok tt ->
     disk wb !! backupPath_of (manager demo_world) demo_now (js "/srv/ws/a.txt")
     = Some (File (js "abcabd"))).
Proof.
  intros wb.
  apply (createBackup_keeps_source 4096 demo_now demo_world wb (js "/srv/ws/a.txt")
           (js "abcabd") (Ok tt)).
  - reflexivity.
  - vm_compute. intros H. by repeat (apply elem_of_cons in H as [H|H]; [discriminate|]);
      apply elem_of_nil in H.
  - vm_compute. reflexivity.
Defined.

(** ** Validation of a relative path below the root *)

Lemma canonical_no_slash segs :
  Forall canonical_seg segs -> Forall (λ seg, path.slash ∉ seg) segs.
Proof. intros H. eapply Forall_impl; [exact H|]. by intros ? [[_ ?] _]. Qed.

Lemma canonical_plain segs : Forall canonical_seg segs -> Forall plain_seg segs.
Proof. intros H. eapply Forall_impl; [exact H|]. by intros ? [? _]. Qed.

Lemma join_with_app sep a b :
  a ≠ [] -> b ≠ [] ->
  join_with sep (a ++ b) = join_with sep a ++ sep ++ join_with sep b.
Proof.
  intros Ha Hb. induction a as [|x a IH]; [done|].
  destruct a as [|y a].
  - simpl. destruct b; done.
  - change ((x :: y :: a) ++ b) with (x :: ((y :: a) ++ b)).
    rewrite !join_with_cons by done. rewrite IH by done. by rewrite <- !app_assoc.
Qed.

Lemma abs_path_app segs names :
  segs ≠ [] -> names ≠ [] ->
  abs_path (segs ++ names) = abs_path segs ++ path.sep ++ join_with path.sep names.
Proof. intros Hs Hn. unfold abs_path. by rewrite join_with_app. Qed.

Lemma isAbsolute_join names :
  names ≠ [] -> Forall canonical_seg names ->
  path.isAbsolute (join_with path.sep names) = false.
Proof.
  intros Hne Hall. destruct names as [|seg names]; [done|].
  inversion Hall as [|? ? [[Hn Hs] _] _]; subst.
  destruct seg as [|c seg]; [done|].
  assert (c ≠ path.slash) as Hc by (intros ->; apply Hs; by left).
  destruct names; simpl; by apply bool_decide_eq_false.
Qed.

Lemma join_not_nil names :
  names ≠ [] -> Forall canonical_seg names -> join_with path.sep names ≠ [].
Proof.
  intros Hne Hall. destruct names as [|seg names]; [done|].
  inversion Hall as [|? ? [[Hn Hs] _] _]; subst.
  destruct seg; [done|]. by destruct names.
Qed.

Lemma normalize_join names :
  names ≠ [] -> Forall canonical_seg names ->
  path.normalize (join_with path.sep names) = join_with path.sep names.
Proof.
  intros Hne Hall. pose proof (join_not_nil names Hne Hall) as Hnn.
  unfold path.normalize. destruct (join_with path.sep names) as [|c p] eqn:E; [done|].
  rewrite <- E. rewrite isAbsolute_join by done. cbn [negb].
  assert (path.hasTrailingSep (join_with path.sep names) = false) as ->.
  { unfold path.hasTrailingSep.
    destruct (join_plain_last names Hne (canonical_plain _ Hall)) as (d & -> & Hd).
    by apply bool_decide_eq_false. }
  unfold path.normalizeString, path.normalize_segments.
  change path.sep with [path.slash].
  rewrite split_join by (done || by apply canonical_no_slash).
  rewrite fold_push_id by done. rewrite app_nil_r, rev_involutive.
  change [path.slash] with path.sep. by rewrite E.
Qed.

Lemma resolve_abs_path_join cwd segs names :
  Forall canonical_seg segs -> names ≠ [] -> Forall canonical_seg names ->
  path.resolve cwd [abs_path segs; join_with path.sep names] = abs_path (segs ++ names).
Proof.
  intros Hall Hne Hnames.
  rewrite resolve_two_absolute;
    [|apply isAbsolute_abs_path|by apply join_not_nil|by apply isAbsolute_join].
  rewrite normalizeString_abs_path by done.
  change (join_with path.sep names ++ [path.slash])
    with (join_with [path.slash] names ++ path.slash :: []).
  rewrite split_on_app, split_join by (done || by apply canonical_no_slash).
  rewrite fold_left_app, (fold_push_id false names) by done. simpl.
  rewrite push_segment_empty. by rewrite rev_app_distr, !rev_involutive.
Qed.

Lemma abs_path_app_neq segs names :
  segs ≠ [] -> names ≠ [] -> Forall canonical_seg names ->
  abs_path segs ≠ abs_path (segs ++ names).
Proof.
  intros Hs Hn Hall E. rewrite abs_path_app in E by done.
  apply (f_equal length) in E. rewrite !length_app in E. simpl in E. lia.
Qed.

Lemma relative_abs_path_join cwd segs names :
  segs ≠ [] -> Forall canonical_seg segs -> names ≠ [] -> Forall canonical_seg names ->
  path.relative cwd (abs_path segs) (abs_path (segs ++ names)) = join_with path.sep names.
Proof.
  intros Hs Hall Hn Hnames. unfold path.relative.
  assert (Forall canonical_seg (segs ++ names)) as Hall' by (apply Forall_app; by split).
  rewrite str_eqb_neq by by apply abs_path_app_neq.
  rewrite !resolve_abs_path by done.
  rewrite str_eqb_neq by by apply abs_path_app_neq.
  rewrite !segments_abs_path by done.
  by rewrite drop_common_app.
Qed.

Lemma basename_abs_path_join segs names :
  Forall canonical_seg segs -> names ≠ [] -> Forall canonical_seg names ->
  path.basename (abs_path (segs ++ names)) = default [] (last names).
Proof.
  intros Hall Hne Hnames. unfold path.basename.
  rewrite segments_abs_path by (apply Forall_app; by split).
  destruct names as [|x l _] using rev_ind; [done|].
  by rewrite app_assoc, rev_app_distr, last_snoc.
Qed.

(** X16. What [validatePath] does with a relative path made of proper
    names [a/b/c] (no empty name, [.] or [..]) when the root is a
    canonical directory other than [/]: containment always passes; the
    blacklist is applied to the path as given and the extension rule to
    its last name; otherwise the result is the root, a separator and the
    path. *)
Theorem validatePath_below_root (cwd : str) (this : SecureFileManager)
    (segs names : list str) (isFileOperation : bool) :
  normalizedAllowedDir this = abs_path segs ->
  segs ≠ [] -> Forall canonical_seg segs ->
  names ≠ [] -> Forall canonical_seg names ->
  let filePath := join_with path.sep names in
  let fileName := default [] (last names) in
  validatePath cwd this filePath isFileOperation
  = if isPathBlacklisted this filePath then Throw (Error msg_blacklisted)
    else if isFileOperation && negb (isFileExtensionAllowed this fileName)
         then Throw (Error (msg_extension (toLowerCase (path.extname fileName))))
         else Ok (normalizedAllowedDir this ++ path.sep ++ filePath).
Proof.
  intros Hroot Hs Hall Hn Hnames filePath fileName.
  rewrite validatePath_unfold. unfold within_root, validatePath_inside.
  unfold filePath. rewrite normalize_join by done.
  rewrite Hroot, resolve_abs_path_join by done.
  rewrite relative_abs_path_join, basename_abs_path_join by done.
  rewrite abs_path_app by done.
  assert (startsWith (abs_path segs ++ path.sep ++ join_with path.sep names)
                     (abs_path segs ++ path.sep) = true) as ->.
  { apply startsWith_prefix. exists (join_with path.sep names). by rewrite <- app_assoc. }
  cbn [orb].
  assert (join_with path.sep names ≠ []) as Hne by by apply join_not_nil.
  assert (join_with path.sep names ≠ js ".") as Hnd.
  { intros E. destruct names as [|seg names]; [done|].
    inversion Hnames as [|? ? [[Hn1 Hs1] [Hd _]] Hrest]; subst.
    destruct names as [|seg' names]; [by apply Hd|].
    rewrite join_with_cons in E by done.
    destruct seg as [|c seg]; [done|]. injection E as _ E.
    by destruct seg. }
  rewrite (str_eqb_neq _ _ Hne), (str_eqb_neq _ _ Hnd). cbn [negb andb].
  fold fileName. by destruct (isPathBlacklisted this (join_with path.sep names)).
Qed.

Lemma validatePath_below_root_witness :
  validatePath demo_cwd (manager demo_world) (js "docs/notes.txt") true
  = Ok (js "/srv/ws/docs/notes.txt").
Proof.
  apply (validatePath_below_root demo_cwd (manager demo_world) [js "srv"; js "ws"]
           [js "docs"; js "notes.txt"] true).
  - reflexivity.
  - done.
  - repeat constructor; try done; vm_compute; intros H;
      by repeat (apply elem_of_cons in H as [H|H]; [discriminate|]); apply elem_of_nil in H.
  - done.
  - repeat constructor; try done; vm_compute; intros H;
      by repeat (apply elem_of_cons in H as [H|H]; [discriminate|]); apply elem_of_nil in H.
Defined.

(** X17. When the root is the root of the file system, [/], the
    containment test compares with [//], which no resolved path starts
    with: [validatePath] then refuses, as outside the allowed directory,
    every path that does not resolve to [/] itself. *)
Theorem root_slash_admits_only_the_root (cwd : str) (this : SecureFileManager)
    (filePath : str) (isFileOperation : bool) :
  path.isAbsolute cwd = true ->
  normalizedAllowedDir this = js "/" ->
  path.resolve cwd [js "/"; path.normalize filePath] ≠ js "/" ->
  validatePath cwd this filePath isFileOperation
  = Throw (Error (msg_outside_root filePath)).
Proof.
  intros Hcwd Hroot Hother. rewrite validatePath_unfold. unfold within_root.
  rewrite Hroot.
  destruct (resolve_canonical cwd [js "/"; path.normalize filePath] Hcwd)
    as (segs & Hall & Hres).
  rewrite Hres in *.
  assert (startsWith (abs_path segs) (js "/" ++ path.sep) = false) as ->.
  { unfold abs_path. destruct segs as [|seg segs]; [done|].
    inversion Hall as [|? ? [[Hn Hs] _] _]; subst.
    destruct seg as [|c seg]; [done|].
    assert (c ≠ path.slash) as Hc by (intros ->; apply Hs; by left).
    assert (ascii_eqb path.slash c = false) as Hf
      by (apply bool_decide_eq_false; congruence).
    change (js "/" ++ path.sep) with [path.slash; path.slash].
    destruct segs; cbn [join_with startsWith app]; rewrite Hf; by rewrite andb_false_r. }
  by rewrite (str_eqb_neq _ _ Hother).
Qed.

Lemma root_slash_admits_only_the_root_witness :
  validatePath (js "/srv")
    (new_SecureFileManager (js "/srv")
       {| allowedDirectory := js "/"; maxFileSize := 10; maxConcurrentOperations := 2;
          allowedExtensions := []; blacklistedPaths := [] |})
    (js "etc/hosts") true
  = Throw (Error (js "Access denied: Path 'etc/hosts' is outside allowed directory")).
Proof.
  apply (root_slash_admits_only_the_root (js "/srv")
           (new_SecureFileManager (js "/srv")
              {| allowedDirectory := js "/"; maxFileSize := 10;
                 maxConcurrentOperations := 2; allowedExtensions := [];
                 blacklistedPaths := [] |})
           (js "etc/hosts") true).
  - reflexivity.
  - reflexivity.
  - vm_compute. discriminate.
Defined.

(** X18. A path that passes validation for a file operation passes it
    for a directory operation, with the same result: the two differ in
    the extension rule only. *)
Theorem validatePath_file_then_directory (cwd : str) (this : SecureFileManager)
    (filePath resolved : str) :
  validatePath cwd this filePath true = Ok resolved ->
  validatePath cwd this filePath false = Ok resolved.
Proof.
  rewrite !validatePath_unfold. destruct (within_root _ _); [|done].
  unfold validatePath_inside. destruct (_ && isPathBlacklisted _ _); [done|].
  cbn [andb]. by destruct (negb _).
Qed.

Lemma validatePath_file_then_directory_witness :
  validatePath demo_cwd (manager demo_world) (js "a.txt") false = Ok (js "/srv/ws/a.txt").
Proof.
  apply (validatePath_file_then_directory demo_cwd (manager demo_world) (js "a.txt")).
  reflexivity.
Defined.

(** X19. With an absolute working directory, what [validatePath]
    returns is an absolute path in canonical form, whatever the caller
    wrote: its segments are proper names, none empty, none [.] or
    [..]. *)
Theorem validatePath_returns_canonical (cwd : str) (this : SecureFileManager)
    (filePath resolved : str) (isFileOperation : bool) :
  path.isAbsolute cwd = true ->
  validatePath cwd this filePath isFileOperation = Ok resolved ->
  ∃ segs, Forall canonical_seg segs ∧ resolved = abs_path segs
          ∧ path.resolve cwd [resolved] = resolved.
Proof.
  intros Hcwd. rewrite validatePath_unfold. destruct (within_root _ _); [|done].
  unfold validatePath_inside.
  destruct (resolve_canonical cwd [normalizedAllowedDir this; path.normalize filePath] Hcwd)
    as (segs & Hall & Hres).
  intros H. exists segs. split; [done|].
  assert (resolved = abs_path segs) as ->.
  { rewrite <- Hres. repeat case_match; try done. congruence. }
  split; [done|]. by apply resolve_abs_path.
Qed.

Lemma validatePath_returns_canonical_witness :
  ∃ segs, Forall canonical_seg segs ∧ js "/srv/ws/a.txt" = abs_path segs
          ∧ path.resolve demo_cwd [js "/srv/ws/a.txt"] = js "/srv/ws/a.txt".
Proof.
  apply (validatePath_returns_canonical demo_cwd (manager demo_world)
           (js "x/../sub/.././a.txt") (js "/srv/ws/a.txt") true).
  - reflexivity.
  - reflexivity.
Defined.

(** ** What the search returns *)

Lemma returns_bind {A B} (Q : A -> Prop) (P : B -> Prop) (m : Async A)
    (f : A -> Async B) :
  returns Q m -> (∀ a, Q a -> returns P (f a)) -> returns P (bind m f).
Proof.
  intros H Hf. induction H; simpl; try (constructor; auto); auto.
Qed.

Lemma returns_try_catch {A} (P : A -> Prop) (m : Async A) (h : JsError -> Async A) :
  returns P m -> (∀ e, returns P (h e)) -> returns P (try_catch m h).
Proof.
  intros H Hh. induction H; simpl; try (constructor; auto); auto.
Qed.

Lemma returns_any {A} (m : Async A) : returns (λ _, True) m.
Proof. induction m as [[a|e]| | | |]; constructor; auto. Qed.

Lemma returns_traces {A} (P : A -> Prop) (m : Async A) t a :
  returns P m -> traces m t (Ok a) -> P a.
Proof.
  intros H. revert t. induction H as [a' Ha|e|B c k _ IH|k _ IH|this k _ IH|k _ IH];
    intros t; simpl.
  - by intros [_ [= ->]].
  - by intros [_ ?].
  - intros (r & t' & _ & Ht). eauto.
  - intros (this & Ht). eauto.
  - eauto.
  - intros (now & Ht). eauto.
Qed.

Lemma returns_unfolds {A} (P : A -> Prop) (m : Async A) t a :
  returns P m -> unfolds m t (Ok a) -> P a.
Proof. intros H Hu. apply unfolds_traces in Hu. by eapply returns_traces. Qed.

Lemma length_slice {A} (l : list A) (a b : Z) :
  0 <= a -> a <= b -> b <= Z.of_nat (length l) ->
  Z.of_nat (length (slice l a b)) = b - a.
Proof.
  intros Ha Hab Hb. unfold slice.
  destruct (Z.ltb_spec a 0), (Z.ltb_spec b 0); try lia.
  rewrite length_take, length_drop. lia.
Qed.

Lemma scan_lines_well_formed searchPattern contextLines lines rest : ∀ i,
  0 <= i -> i + Z.of_nat (length rest) = Z.of_nat (length lines) ->
  Forall (λ m, i < lineNumber m ∧ well_formed_match contextLines m)
    (scan_lines searchPattern contextLines lines i rest)
  ∧ StronglySorted (λ a b, lineNumber a < lineNumber b)
      (scan_lines searchPattern contextLines lines i rest).
Proof.
  induction rest as [|l rest IH]; intros i Hi Hlen; cbn [scan_lines].
  - split; constructor.
  - cbn [length] in Hlen. destruct (IH (i + 1)) as [Hall Hsorted]; [lia | lia |].
    assert (Forall (λ m, i < lineNumber m ∧ well_formed_match contextLines m)
              (scan_lines searchPattern contextLines lines (i + 1) rest)) as Hall'.
    { eapply Forall_impl; [exact Hall|]. intros m [? ?]. split; [lia | done]. }
    destruct (RegExp.test searchPattern l); cbn [app]; [|done].
    split.
    + constructor; [|done]. cbn [lineNumber]. split; [lia|].
      unfold well_formed_match. cbn [lineNumber context]. split; [lia|].
      destruct (contextLines >? 0) eqn:Hctx; [|lia].
      apply Z.gtb_lt in Hctx. split; [lia|].
      rewrite !length_slice by lia. lia.
    + constructor; [done|]. eapply Forall_impl; [exact Hall|].
      intros m [? _]. cbn [lineNumber]. lia.
Qed.

Lemma returns_searchInFile filePath pattern ignoreCase contextLines :
  returns (λ found,
             Forall (well_formed_match contextLines) found
             ∧ StronglySorted (λ a b, lineNumber a < lineNumber b) found)
    (searchInFile filePath pattern ignoreCase contextLines).
Proof.
  unfold searchInFile. apply returns_try_catch.
  - apply rt_await. intros [content|e]; [|constructor]. cbn [bind lift].
    destruct (new_RegExp _ _) as [re|e]; [|constructor]. cbn [bind ret].
    constructor.
    destruct (scan_lines_well_formed re contextLines (split_on "010"%char content)
                (split_on "010"%char content) 0) as [Hall Hsorted]; [lia | lia |].
    split; [|done]. eapply Forall_impl; [exact Hall|]. by intros m [_ ?].
  - intros e. constructor. split; constructor.
Qed.

(** X20. [searchInFile] never fails: whatever [fs.readFile] answers it
    returns a list of matches, the empty one when the file cannot be
    read. The matches are in the order of the lines, no line twice, and
    each is well formed: numbered from one, with a context exactly when
    lines of context were asked for, of at most that many lines on each
    side. *)
Theorem searchInFile_never_fails (filePath pattern : str) (ignoreCase : bool)
    (contextLines : Z) (t : list event) (res : result (list Match)) :
  unfolds (searchInFile filePath pattern ignoreCase contextLines) t res ->
  ∃ found,
    res = Ok found
    ∧ (∀ e, t = [Called (fs_readFile filePath) (Throw e)] -> found = [])
    ∧ Forall (well_formed_match contextLines) found
    ∧ StronglySorted (λ a b, lineNumber a < lineNumber b) found.
Proof.
  intros Hu.
  assert (∃ found, res = Ok found
                   ∧ (∀ e, t = [Called (fs_readFile filePath) (Throw e)] -> found = []))
    as (found & -> & Hunread).
  { apply unfolds_traces in Hu. unfold searchInFile in Hu.
    cbn [traces bind try_catch await] in Hu.
    destruct Hu as ([content|e] & t' & -> & Hu); cbn [traces bind try_catch lift] in Hu.
    - unfold new_RegExp in Hu. rewrite parse_escape_special in Hu.
      cbn [traces bind try_catch ret] in Hu.
      destruct Hu as [-> ->]. eexists. split; [done|]. intros e [=].
    - cbn [traces ret] in Hu. destruct Hu as [-> ->]. exists []. split; [done|]. done. }
  exists found. split; [done|]. split; [done|].
  exact (returns_unfolds _ _ _ _ (returns_searchInFile _ _ _ _) Hu).
Qed.

Lemma searchInFile_never_fails_witness :
  let t := [Called (fs_readFile (js "/srv/ws/a.txt"))
              (Throw (ENOENT "open" (js "/srv/ws/a.txt")))] in
  ∃ found,
    Ok [] = Ok found
    ∧ (∀ e, t = [Called (fs_readFile (js "/srv/ws/a.txt")) (Throw e)] -> found = [])
    ∧ Forall (well_formed_match 2) found
    ∧ StronglySorted (λ a b, lineNumber a < lineNumber b) found.
Proof.
  intros t.
  apply (searchInFile_never_fails (js "/srv/ws/a.txt") (js "c.b") false 2 t (Ok [])).
  unfold searchInFile. cbn [bind try_catch await]. apply unfolds_await.
  cbn [bind try_catch ret]. apply unfolds_settle.
Defined.

Lemma returns_process_entries (P : list str -> list FileMatches -> Prop)
    cwd pattern ignoreCase contextLines recursive currentDir entries :
  (∀ queue results this entry found,
     P queue results -> entry ∈ entries ->
     found ≠ [] ->
     P queue (results ++ [{| file := path.relative cwd (normalizedAllowedDir this)
                                       (path.join [currentDir; name entry]);
                             matches := found |}])) ->
  (∀ queue results entry,
     P queue results -> entry ∈ entries -> recursive = true ->
     isDirectory entry = true ->
     (startsWith (name entry) (js ".")
      && negb (bool_decide (name entry ∈ [js ".."; js "."]))) = false ->
     P (queue ++ [path.join [currentDir; name entry]]) results) ->
  ∀ queue results,
    P queue results ->
    returns (λ pushed, P (fst pushed) (snd pushed))
      (process_entries cwd pattern ignoreCase contextLines recursive currentDir
         entries queue results).
Proof.
  induction entries as [|entry rest IH]; intros Hfile Hdir queue results HP.
  - by constructor.
  - assert (∀ queue results, P queue results ->
              returns (λ pushed, P (fst pushed) (snd pushed))
                (process_entries cwd pattern ignoreCase contextLines recursive currentDir
                   rest queue results)) as IH'.
    { apply IH.
      - intros ? ? ? e ? ? He ?. apply Hfile; [done| |done]. by right.
      - intros ? ? e ? He. apply Hdir; [done|]. by right. }
    cbn [process_entries]. apply rt_read. intros this. cbn [bind ret].
    destruct (isFile entry).
    + destruct (_ || _); [by apply IH'|].
      eapply returns_bind with
        (Q := λ found, found = []
                       ∨ ∃ ms, ms ≠ []
                               ∧ found = [{| file := path.relative cwd
                                                       (normalizedAllowedDir this)
                                                       (path.join [currentDir; name entry]);
                                             matches := ms |}]).
      * apply returns_try_catch; [|intros e; constructor; by left].
        apply rt_await. intros [stats|e]; [|constructor]. cbn [bind].
        apply rt_read. intros this'. cbn [bind ret].
        destruct (_ >? _); [constructor; by left|].
        eapply returns_bind; [apply returns_any|]. intros ms _.
        destruct (Z.of_nat (length ms) >? 0) eqn:Hms; constructor; [|by left].
        right. exists ms. split; [|done]. intros ->. done.
      * intros found [->|(ms & Hms & ->)]; apply IH'.
        -- by rewrite app_nil_r.
        -- apply Hfile; [done | by left | done].
    + destruct (isDirectory entry && recursive) eqn:Hd; [|by apply IH'].
      apply andb_true_iff in Hd as [Hd ->].
      destruct (isPathBlacklisted _ _); cbn [orb]; [by apply IH'|].
      destruct (_ && _) eqn:Hhidden; [by apply IH'|].
      apply IH'. apply Hdir; [done | by left | done | done | done].
Qed.

Lemma returns_walk (P : list FileMatches -> Prop) cwd pattern ignoreCase contextLines
    recursive budget :
  (∀ results file found, P results -> found ≠ [] ->
     P (results ++ [{| file := file; matches := found |}])) ->
  ∀ queue processedPaths results,
    P results ->
    returns P (walk cwd pattern ignoreCase contextLines recursive budget queue
                 processedPaths results).
Proof.
  intros Hstep. induction budget as [|budget IH]; intros queue V results HP;
    [by constructor|].
  destruct queue as [|currentDir queue]; [by constructor|].
  cbn [walk]. eapply returns_bind; [apply returns_any|]. intros [realPath|] _; [|by apply IH].
  destruct (bool_decide _); [by apply IH|].
  eapply returns_bind; [apply returns_any|]. intros [entries|] _; [|by apply IH].
  eapply returns_bind.
  - apply (returns_process_entries (λ _ results, P results)); [| |exact HP].
    + intros ? ? ? ? ? ? _ ?. by apply Hstep.
    + by intros.
  - intros pushed Hp. by apply IH.
Qed.

(** X21. [searchInFiles] reports a file only when something matched in
    it: whatever the file system answers, no entry of the result has an
    empty list of matches. *)
Theorem searchInFiles_reports_matches_only (cwd pattern searchDir : str)
    (ignoreCase recursive : bool) (contextLines : Z) (t : list event)
    (found : list FileMatches) :
  unfolds (searchInFiles cwd pattern ignoreCase contextLines recursive searchDir) t
    (Ok found) ->
  Forall (λ entry, matches entry ≠ []) found.
Proof.
  apply returns_unfolds. unfold searchInFiles.
  apply returns_try_catch; [|intros e; constructor].
  apply rt_read. intros this. cbn [bind ret].
  eapply returns_bind; [apply returns_any|]. intros searchPath _.
  unfold searchInDirectorySafe. apply returns_walk; [|constructor].
  intros results file ms Hall Hms. apply Forall_app. split; [done|].
  by repeat constructor.
Qed.

Lemma unfolds_try_catch_ok {A} (m : Async A) (h : JsError -> Async A) t a :
  unfolds m t (Ok a) -> unfolds (try_catch m h) t (Ok a).
Proof.
  intros H. remember (Ok a) as res eqn:E. induction H; subst; cbn [try_catch];
    econstructor; eauto.
Qed.

Lemma walk_one_file (budget : nat) :
  unfolds (walk demo_cwd (js "ca") false 0 false (S budget) [js "/srv/ws"] ∅ [])
    [Called (fs_realpath (js "/srv/ws")) (Ok (js "/srv/ws"));
     Called (fs_readdir (js "/srv/ws")) (Ok [{| name := js "a.txt"; kind := IsFile |}]);
     Called (fs_stat (js "/srv/ws/a.txt")) (Ok {| size := 6 |});
     Called (fs_readFile (js "/srv/ws/a.txt")) (Ok (js "abcabd"))]
    (Ok [{| file := js "a.txt";
            matches := [{| lineNumber := 1; line := js "abcabd"; context := None |}] |}]).
Proof.
  unfolds_head. apply unfolds_await.
  unfolds_head. apply unfolds_await.
  unfolds_head. apply unfolds_read with (this := manager demo_world).
  unfolds_head. apply unfolds_await.
  unfolds_head. apply unfolds_read with (this := manager demo_world).
  unfolds_head. apply unfolds_await.
  unfolds_head. destruct budget; apply unfolds_settle.
Qed.

Lemma searchInFiles_reports_matches_only_witness :
  Forall (λ entry, matches entry ≠ [])
    [{| file := js "a.txt";
        matches := [{| lineNumber := 1; line := js "abcabd"; context := None |}] |}].
Proof.
  apply (searchInFiles_reports_matches_only demo_cwd (js "ca") [] false false 0
           [Called (fs_realpath (js "/srv/ws")) (Ok (js "/srv/ws"));
            Called (fs_readdir (js "/srv/ws")) (Ok [{| name := js "a.txt"; kind := IsFile |}]);
            Called (fs_stat (js "/srv/ws/a.txt")) (Ok {| size := 6 |});
            Called (fs_readFile (js "/srv/ws/a.txt")) (Ok (js "abcabd"))]).
  unfold searchInFiles. apply unfolds_try_catch_ok.
  cbn [bind read_this ret]. apply unfolds_read with (this := manager demo_world).
  rewrite str_eqb_refl. cbn [orb bind ret].
  unfold searchInDirectorySafe, maxDirectories.
  exact (walk_one_file 999).
Defined.





(** ** Writing with a backup *)

Lemma mkdir_p_made fuel d p d' :
  mkdir_p fuel d p = (Ok tt, d') -> d' !! p = Some Directory.
Proof.
  destruct fuel as [|fuel]; simpl.
  all: destruct (d !! p) as [[c|]|] eqn:E; try done.
  all: try (intros [= <-]; done).
  all: destruct (str_eqb (path.dirname p) p); try done.
  all: try (intros [= <-]; apply lookup_insert_eq).
  destruct (mkdir_p fuel d (path.dirname p)) as [[[]|e] d1]; [|done].
  intros [= <-]. apply lookup_insert_eq.
Qed.

(** X23. After a successful [writeFile] the directory of the file
    exists: missing directories on the way are created, and the file is
    an entry other than its directory. *)
Theorem writeFile_makes_the_directory (cwd : str) (dir_size : Z) (now : str)
    (w w1 : World) (filePath content : str) (withBackup : bool) :
  run dir_size now (writeFile cwd filePath content withBackup) w = (Ok tt, w1) ->
  ∃ safePath,
    validatePath cwd (manager w) filePath true = Ok safePath
    ∧ disk w1 !! path.dirname safePath = Some Directory
    ∧ disk w1 !! safePath = Some (File content)
    ∧ path.dirname safePath ≠ safePath.
Proof.
  intros Hrun.
  destruct (Z_lt_ge_dec (activeOperations (manager w))
              (maxConcurrentOperations (config (manager w)))) as [Hlt|Hge].
  2:{ change (writeFile cwd filePath content withBackup)
        with (gate (try_catch (writeFile_body cwd filePath content withBackup)
                      (λ error, throw (Error (msg_failed_write filePath (message error))))))
        in Hrun.
      by rewrite run_gate_rejected in Hrun. }
  change (writeFile cwd filePath content withBackup)
    with (gate (try_catch (writeFile_body cwd filePath content withBackup)
                  (λ error, throw (Error (msg_failed_write filePath (message error))))))
    in Hrun.
  rewrite run_gate_try_catch in Hrun;
    [|apply never_writes_try_catch;
        [apply never_writes_writeFile_body|intros e; constructor]
     |done].
  destruct (run dir_size now (writeFile_body cwd filePath content withBackup) (admitted w))
    as [[[]|e] w'] eqn:Hbody; [|by rewrite run_throw in Hrun].
  injection Hrun as <-. revert Hbody. unfold writeFile_body.
  rewrite run_bind, run_read_this, run_bind, run_lift, validatePath_admitted.
  destruct (validatePath cwd (manager w) filePath true) as [safePath|e] eqn:Hvalid; [|done].
  exists safePath. split; [done|]. revert Hbody. rewrite run_bind.
  destruct (run dir_size now (if _ >? _ then _ else ret tt) (admitted w))
    as [[[]|e] w2]; [|done].
  rewrite run_bind.
  destruct (run dir_size now (if withBackup then _ else ret tt) w2) as [[[]|e] w3]; [|done].
  rewrite run_bind, run_await. cbn [perform].
  destruct (mkdir_p _ (disk w3) (path.dirname safePath)) as [[[]|e] d4] eqn:Hmk; [|done].
  apply mkdir_p_made in Hmk. cbn [fst snd]. rewrite run_await. cbn [perform disk].
  unfold store_file. destruct (d4 !! safePath) as [[c|]|] eqn:Hsafe; try done.
  all: rewrite Hmk; cbn [fst snd]; intros [= <-]; cbn [disk].
  all: assert (path.dirname safePath ≠ safePath) as Hne by (intros E; congruence).
  all: rewrite lookup_insert_ne by done.
  all: by rewrite lookup_insert_eq.
Qed.

Lemma writeFile_makes_the_directory_witness :
  let w1 := snd (run 4096 demo_now
                   (writeFile demo_cwd (js "sub/deep/b.txt") (js "0123") false)
                   demo_world) in
  ∃ safePath,
    validatePath demo_cwd (manager demo_world) (js "sub/deep/b.txt") true = Ok safePath
    ∧ disk w1 !! path.dirname safePath = Some Directory
    ∧ disk w1 !! safePath = Some (File (js "0123"))
    ∧ path.dirname safePath ≠ safePath.
Proof.
  intros w1.
  apply (writeFile_makes_the_directory demo_cwd 4096 demo_now demo_world w1
           (js "sub/deep/b.txt") (js "0123") false).
  vm_compute. reflexivity.
Defined.

(** X24. [writeFile] with a backup over an existing file, when the
    backup can be made: the call succeeds, the file holds the new
    content, and the backup holds, under another path, what the file
    held before. *)
Theorem writeFile_keeps_a_backup (cwd : str) (dir_size : Z) (now : str)
    (w wb : World) (filePath content safePath previous : str) :
  activeOperations (manager w) < maxConcurrentOperations (config (manager w)) ->
  validatePath cwd (manager w) filePath true = Ok safePath ->
  Z.of_nat (length content) <= maxFileSize (config (manager w)) ->
  disk w !! safePath = Some (File previous) ->
  disk w !! path.dirname safePath = Some Directory ->
  path.slash ∉ now ->
  run dir_size now (createBackup safePath) (admitted w) = (Ok tt, wb) ->
  run dir_size now (writeFile cwd filePath content true) w
  = (Ok tt, {| manager := manager w; disk := <[safePath := File content]> (disk wb) |})
  ∧ <[safePath := File content]> (disk wb) !! backupPath_of (manager w) now safePath
    = Some (File previous).
Proof.
  intros Hgate Hvalid Hsize Hfile Hparent Hnow Hbackup.
  destruct (run_createBackup dir_size now safePath previous (admitted w) _ _ Hbackup Hfile)
    as (Hm & Hdirs & Hkeep & Hcopy).
  pose proof (backupPath_not_source (manager w) now safePath Hnow) as Hne.
  split.
  - change (writeFile cwd filePath content true)
      with (gate (try_catch (writeFile_body cwd filePath content true)
                    (λ error, throw (Error (msg_failed_write filePath (message error)))))).
    rewrite run_gate_try_catch;
      [|apply never_writes_try_catch;
          [apply never_writes_writeFile_body|intros e; constructor]
       |done].
    unfold writeFile_body.
    rewrite run_bind, run_read_this, run_bind, run_lift, validatePath_admitted, Hvalid.
    cbn [admitted manager config set_activeOperations].
    assert ((Z.of_nat (length content) >? maxFileSize (config (manager w))) = false) as ->.
    { rewrite Z.gtb_ltb. apply Z.ltb_ge. lia. }
    rewrite run_bind, run_ret. rewrite run_bind, run_try_catch, run_bind, run_await.
    cbn [perform disk admitted]. rewrite Hfile. cbn [fst snd manager].
    change {| manager := manager (admitted w); disk := disk w |} with (admitted w).
    rewrite Hbackup. rewrite run_bind, run_await. cbn [perform].
    rewrite mkdir_p_present by (apply Hdirs; exact Hparent). cbn [fst snd].
    rewrite run_await. cbn [perform disk]. unfold store_file.
    assert (disk wb !! safePath = Some (File previous)) as ->.
    { apply Hkeep; [|done]. intros E. by apply Hne. }
    by rewrite (Hdirs _ Hparent).
  - rewrite lookup_insert_ne by done. by apply Hcopy.
Qed.

Lemma writeFile_keeps_a_backup_witness :
  let wb := snd (run 4096 demo_now (createBackup (js "/srv/ws/a.txt"))
                   (admitted demo_world)) in
  run 4096 demo_now (writeFile demo_cwd (js "a.txt") (js "new") true) demo_world
  = (Ok tt, {| manager := manager demo_world;
               disk := <[js "/srv/ws/a.txt" := File (js "new")]> (disk wb) |})
  ∧ <[js "/srv/ws/a.txt" := File (js "new")]> (disk wb)
      !! backupPath_of (manager demo_world) demo_now (js "/srv/ws/a.txt")
    = Some (File (js "abcabd")).
Proof.
  intros wb.
  apply (writeFile_keeps_a_backup demo_cwd 4096 demo_now demo_world wb (js "a.txt")
           (js "new") (js "/srv/ws/a.txt") (js "abcabd")).
  - simpl. lia.
  - vm_compute. reflexivity.
  - simpl. lia.
  - vm_compute. reflexivity.
  - vm_compute. reflexivity.
  - vm_compute. intros H. by repeat (apply elem_of_cons in H as [H|H]; [discriminate|]);
      apply elem_of_nil in H.
  - vm_compute. reflexivity.
Defined.

(** ** Listing a directory *)

Lemma run_changes_nothing {A} dir_size now (m : Async A) w :
  never_writes m -> only_queries m -> snd (run dir_size now m w) = w.
Proof.
  intros Hnw Hoq.
  pose proof (run_never_writes dir_size now m w Hnw) as Hm.
  pose proof (run_only_queries dir_size now m w Hoq) as Hd.
  destruct (snd _) as [m' d']. simpl in *. subst. by destruct w.
Qed.

Lemma never_writes_list_entries safePath entries fileInfos :
  never_writes (list_entries safePath entries fileInfos).
Proof.
  revert fileInfos. induction entries as [|entry rest IH]; intros fileInfos;
    cbn [list_entries]; [constructor|].
  apply never_writes_bind; [apply never_writes_read_this|]. intros this.
  destruct (isFile entry); [|apply IH].
  destruct (negb _); [apply IH|]. destruct (isPathBlacklisted _ _); [apply IH|].
  apply never_writes_bind; [|intros; apply IH].
  apply never_writes_try_catch; [|intros; constructor].
  apply never_writes_bind; [apply never_writes_await|]. intros; constructor.
Qed.

Lemma only_queries_list_entries safePath entries fileInfos :
  only_queries (list_entries safePath entries fileInfos).
Proof.
  revert fileInfos. induction entries as [|entry rest IH]; intros fileInfos;
    cbn [list_entries]; [constructor|].
  apply only_queries_bind; [apply only_queries_read_this|]. intros this.
  destruct (isFile entry); [|apply IH].
  destruct (negb _); [apply IH|]. destruct (isPathBlacklisted _ _); [apply IH|].
  apply only_queries_bind; [|intros; apply IH].
  apply only_queries_try_catch; [|intros; constructor].
  apply only_queries_bind; [by apply only_queries_await|]. intros; constructor.
Qed.

Lemma never_writes_listFiles cwd dirPath : never_writes (listFiles cwd dirPath).
Proof.
  unfold listFiles. apply never_writes_try_catch; [|intros; constructor].
  apply never_writes_bind; [apply never_writes_read_this|]. intros this.
  apply never_writes_bind; [destruct (_ || _); constructor|]. intros safePath.
  apply never_writes_bind; [apply never_writes_await|]. intros entries.
  apply never_writes_list_entries.
Qed.

Lemma only_queries_listFiles cwd dirPath : only_queries (listFiles cwd dirPath).
Proof.
  unfold listFiles. apply only_queries_try_catch; [|intros; constructor].
  apply only_queries_bind; [apply only_queries_read_this|]. intros this.
  apply only_queries_bind; [destruct (_ || _); constructor|]. intros safePath.
  apply only_queries_bind; [by apply only_queries_await|]. intros entries.
  apply only_queries_list_entries.
Qed.

(** ** The extension rule and the case of letters *)

Lemma lower_char_is c d :
  (d = "/"%char ∨ d = "."%char) -> lower_char c = d <-> c = d.
Proof.
  intros [->| ->]; destruct c as [[] [] [] [] [] [] [] []]; vm_compute; split; congruence.
Qed.

Lemma lower_char_idem c : lower_char (lower_char c) = lower_char c.
Proof. destruct c as [[] [] [] [] [] [] [] []]; reflexivity. Qed.

Lemma ascii_eqb_lower c d :
  d = "/"%char ∨ d = "."%char -> ascii_eqb (lower_char c) d = ascii_eqb c d.
Proof.
  intros Hd. unfold ascii_eqb. apply bool_decide_ext. by apply lower_char_is.
Qed.

Lemma toLowerCase_is_nil s : toLowerCase s = [] <-> s = [].
Proof. destruct s; split; done. Qed.

Lemma split_on_lower s :
  split_on path.slash (toLowerCase s) = map toLowerCase (split_on path.slash s).
Proof.
  induction s as [|d s IH]; [done|]. cbn [toLowerCase map split_on].
  rewrite ascii_eqb_lower by by left. destruct (ascii_eqb d path.slash); cbn [map].
  - by rewrite <- IH.
  - fold (toLowerCase s). rewrite IH. by destruct (split_on path.slash s).
Qed.

Lemma segments_lower p :
  path.segments (toLowerCase p) = map toLowerCase (path.segments p).
Proof.
  unfold path.segments. rewrite split_on_lower.
  induction (split_on path.slash p) as [|seg segs IH]; [done|].
  cbn [map]. destruct seg as [|c seg].
  - rewrite !filter_cons_False by (intros H; by apply H). exact IH.
  - rewrite !filter_cons_True by done. cbn [map]. by rewrite IH.
Qed.

Lemma basename_lower p : path.basename (toLowerCase p) = toLowerCase (path.basename p).
Proof.
  unfold path.basename. rewrite segments_lower, <- map_rev.
  by destruct (rev (path.segments p)).
Qed.

Lemma split_last_dot_lower r after :
  path.split_last_dot (toLowerCase r) (toLowerCase after)
  = match path.split_last_dot r after with
    | Some (before, ext) => Some (toLowerCase before, toLowerCase ext)
    | None => None
    end.
Proof.
  revert after. induction r as [|c r IH]; intros after; [done|].
  cbn [toLowerCase map path.split_last_dot].
  rewrite ascii_eqb_lower by by right. destruct (ascii_eqb c path.dot).
  - unfold toLowerCase. by rewrite map_rev.
  - apply (IH (c :: after)).
Qed.

Lemma toLowerCase_dotdot b : toLowerCase b = js ".." <-> b = js "..".
Proof.
  split; [|by intros ->].
  destruct b as [|c1 [|c2 [|c3 b]]]; try done. cbn [toLowerCase map].
  intros [= H1 H2]. apply (lower_char_is c1 "."%char) in H1; [|by right].
  apply (lower_char_is c2 "."%char) in H2; [|by right]. by subst.
Qed.

Lemma extname_lower p : path.extname (toLowerCase p) = toLowerCase (path.extname p).
Proof.
  unfold path.extname. rewrite basename_lower.
  set (b := path.basename p).
  assert (rev (toLowerCase b) = toLowerCase (rev b)) as -> by (unfold toLowerCase; by rewrite map_rev).
  pose proof (split_last_dot_lower (rev b) []) as H. cbn [toLowerCase map] in H.
  fold (toLowerCase (rev b)) in H. rewrite H.
  destruct (path.split_last_dot (rev b) []) as [[before after]|]; [|done].
  assert (str_eqb (toLowerCase b) (js "..") = str_eqb b (js "..")) as ->.
  { unfold str_eqb. apply bool_decide_ext. apply toLowerCase_dotdot. }
  destruct before as [|c before]; [done|]. cbn [toLowerCase map].
  destruct (str_eqb b (js "..")); [done|].
  reflexivity.
Qed.

(** X26. The extension rule does not see the case of ASCII letters in
    the file name: a name is allowed exactly when its lower-case form
    is, since [path.extname] cuts at the same dot and the extension is
    put in lower case before it is looked up. *)
Theorem isFileExtensionAllowed_ignores_case (this : SecureFileManager) (fileName : str) :
  isFileExtensionAllowed this (toLowerCase fileName)
  = isFileExtensionAllowed this fileName.
Proof.
  unfold isFileExtensionAllowed. destruct (allowedExtensions (config this)); [done|].
  rewrite extname_lower. unfold toLowerCase. rewrite map_map.
  by rewrite (map_ext _ lower_char lower_char_idem).
Qed.

(** ** Methods that do not look at the counter *)

Lemma run_counter_blind {A} dir_size now (m : Async A) w n :
  counter_blind m ->
  run dir_size now m (with_counter n w)
  = (fst (run dir_size now m w), with_counter n (snd (run dir_size now m w))).
Proof.
  intros H. revert w. induction H as [r|B c k _ IH|k Hk _ IH|k _ IH]; intros w; simpl.
  - done.
  - destruct (perform dir_size c (disk w)) as [r d].
    exact (IH r {| manager := manager w; disk := d |}).
  - rewrite Hk. apply IH.
  - apply IH.
Qed.

Lemma counter_blind_bind {A B} (m : Async A) (f : A -> Async B) :
  counter_blind m -> (∀ a, counter_blind (f a)) -> counter_blind (bind m f).
Proof.
  intros H Hf. induction H as [[a|e]|? c k _ IH|k Hk _ IH|k _ IH]; simpl; auto.
  - constructor.
  - constructor. auto.
  - apply cb_read; [|auto]. intros this n. by rewrite Hk.
  - constructor. auto.
Qed.

Lemma counter_blind_try_catch {A} (m : Async A) (h : JsError -> Async A) :
  counter_blind m -> (∀ e, counter_blind (h e)) -> counter_blind (try_catch m h).
Proof.
  intros H Hh. induction H as [[a|e]|? c k _ IH|k Hk _ IH|k _ IH]; simpl; auto.
  - constructor.
  - constructor. auto.
  - apply cb_read; [|auto]. intros this n. by rewrite Hk.
  - constructor. auto.
Qed.

Lemma counter_blind_await {B} (c : fs_call B) : counter_blind (await c).
Proof. apply cb_await. intros r. constructor. Qed.

(** [const this = this; ...]: the rest of the method must not tell two
    managers apart that differ in the counter only. *)
Lemma counter_blind_this {A} (f : SecureFileManager -> Async A) :
  (∀ this n, f (set_activeOperations n this) = f this) ->
  (∀ this, counter_blind (f this)) ->
  counter_blind (bind read_this f).
Proof. intros Hf H. cbn [bind read_this ret]. by apply cb_read. Qed.

Lemma counter_blind_searchInFile filePath pattern ignoreCase contextLines :
  counter_blind (searchInFile filePath pattern ignoreCase contextLines).
Proof.
  unfold searchInFile. apply counter_blind_try_catch; [|intros e; constructor].
  apply counter_blind_bind; [apply counter_blind_await|]. intros content.
  apply counter_blind_bind; [constructor|]. intros re. constructor.
Qed.

Lemma counter_blind_process_entries cwd pattern ignoreCase contextLines recursive
    currentDir entries queue results :
  counter_blind (process_entries cwd pattern ignoreCase contextLines recursive
                   currentDir entries queue results).
Proof.
  revert queue results. induction entries as [|entry rest IH]; intros queue results.
  - constructor.
  - cbn [process_entries]. apply counter_blind_this; [intros this n; reflexivity|].
    intros this. destruct (isFile entry).
    + destruct (_ || _); [apply IH|].
      apply counter_blind_bind; [|intros found; apply IH].
      apply counter_blind_try_catch; [|intros e; constructor].
      apply counter_blind_bind; [apply counter_blind_await|]. intros stats.
      apply counter_blind_this; [intros this' n; reflexivity|]. intros this'.
      destruct (_ >? _); [constructor|].
      apply counter_blind_bind; [apply counter_blind_searchInFile|]. intros found.
      destruct (_ >? _); constructor.
    + destruct (_ && _); [|apply IH]. destruct (_ || _); apply IH.
Qed.

Lemma counter_blind_walk (cwd pattern : str) (ignoreCase : bool) (contextLines : Z)
    (recursive : bool) (budget : nat) (queue : list str) (processedPaths : gset str)
    (results : list FileMatches) :
  counter_blind (walk cwd pattern ignoreCase contextLines recursive budget queue
                   processedPaths results).
Proof.
  revert queue processedPaths results.
  induction budget as [|budget IH]; intros queue processedPaths results;
    [constructor|].
  destruct queue as [|currentDir queue]; [constructor|].
  cbn [walk]. apply counter_blind_bind.
  - apply counter_blind_try_catch; [|intros e; constructor].
    apply counter_blind_bind; [apply counter_blind_await|]. intros r. constructor.
  - intros [realPath|]; [|apply IH]. destruct (bool_decide _); [apply IH|].
    apply counter_blind_bind.
    + apply counter_blind_try_catch; [|intros e; constructor].
      apply counter_blind_bind; [apply counter_blind_await|]. intros r. constructor.
    + intros [entries|]; [|apply IH].
      apply counter_blind_bind; [apply counter_blind_process_entries|].
      intros pushed. apply IH.
Qed.

Lemma counter_blind_searchInFiles cwd pattern ignoreCase contextLines recursive searchDir :
  counter_blind (searchInFiles cwd pattern ignoreCase contextLines recursive searchDir).
Proof.
  unfold searchInFiles. apply counter_blind_try_catch; [|intros e; constructor].
  apply counter_blind_this.
  - intros this n. by rewrite validatePath_set_activeOperations.
  - intros this. apply counter_blind_bind.
    + destruct (_ || _); constructor.
    + intros searchPath. unfold searchInDirectorySafe. apply counter_blind_walk.
Qed.

(** X2. [searchInFiles] changes nothing, and it does not look at the
    counter: whatever its outcome the store and the manager are
    afterwards what they were, and started with any value [n] of the
    counter, at or above the maximum included, it has the same outcome
    and leaves the counter at [n]. It does not pass the admission
    gate. *)
Theorem searchInFiles_changes_nothing (cwd : str) (dir_size : Z) (now : str) (w : World)
    (pattern searchDir : str) (ignoreCase recursive : bool) (contextLines : Z) :
  snd (run dir_size now
         (searchInFiles cwd pattern ignoreCase contextLines recursive searchDir) w) = w
  ∧ ∀ n,
      run dir_size now
        (searchInFiles cwd pattern ignoreCase contextLines recursive searchDir)
        (with_counter n w)
      = (fst (run dir_size now
                (searchInFiles cwd pattern ignoreCase contextLines recursive searchDir) w),
         with_counter n w).
Proof.
  assert (snd (run dir_size now
                 (searchInFiles cwd pattern ignoreCase contextLines recursive searchDir) w)
          = w) as Hsame.
  { apply run_changes_nothing;
      [apply never_writes_searchInFiles | apply only_queries_searchInFiles]. }
  split; [done|]. intros n.
  rewrite run_counter_blind by apply counter_blind_searchInFiles. by rewrite Hsame.
Qed.

Lemma counter_blind_list_entries safePath entries fileInfos :
  counter_blind (list_entries safePath entries fileInfos).
Proof.
  revert fileInfos. induction entries as [|entry rest IH]; intros fileInfos;
    cbn [list_entries]; [constructor|].
  apply counter_blind_this; [intros this n; reflexivity|]. intros this.
  destruct (isFile entry); [|apply IH].
  destruct (negb _); [apply IH|]. destruct (isPathBlacklisted _ _); [apply IH|].
  apply counter_blind_bind; [|intros; apply IH].
  apply counter_blind_try_catch; [|intros; constructor].
  apply counter_blind_bind; [apply counter_blind_await|]. intros; constructor.
Qed.

Lemma counter_blind_listFiles cwd dirPath : counter_blind (listFiles cwd dirPath).
Proof.
  unfold listFiles. apply counter_blind_try_catch; [|intros; constructor].
  apply counter_blind_this.
  - intros this n. by rewrite validatePath_set_activeOperations.
  - intros this. apply counter_blind_bind; [destruct (_ || _); constructor|].
    intros safePath. apply counter_blind_bind; [apply counter_blind_await|].
    intros entries. apply counter_blind_list_entries.
Qed.

Lemma run_list_entries_listed dir_size now safePath entries : ∀ fileInfos w,
  run dir_size now (list_entries safePath entries fileInfos) w
  = (Ok (fileInfos ++ flat_map (listed dir_size (manager w) (disk w) safePath) entries), w).
Proof.
  induction entries as [|entry rest IH]; intros fileInfos w; cbn [list_entries flat_map].
  - by rewrite run_ret, app_nil_r.
  - rewrite run_bind, run_read_this. unfold listed at 1.
    destruct (isFile entry); cbn [andb]; [|apply IH].
    destruct (isFileExtensionAllowed (manager w) (name entry)); cbn [negb andb];
      [|apply IH].
    destruct (isPathBlacklisted (manager w) (name entry)); cbn [negb]; [apply IH|].
    rewrite run_bind, run_try_catch, run_bind, run_await.
    assert (snd (perform dir_size (fs_stat (path.join [safePath; name entry])) (disk w))
            = disk w) as Hd by by apply perform_query.
    destruct (perform dir_size (fs_stat (path.join [safePath; name entry])) (disk w))
      as [[stats|e] d]; cbn [fst snd] in *; subst d; rewrite world_eta, run_ret.
    + rewrite IH. by rewrite <- app_assoc.
    + rewrite IH. by rewrite app_nil_r.
Qed.

(** X25. What [listFiles] returns. The directory listed is the root
    for the paths [''] and ['.'], and otherwise the one [validatePath]
    gives for the path as a directory operation; when validation or
    [readdir] fails, the call fails with that error wrapped as a failed
    listing. Otherwise it returns, in the order of [readdir], one entry
    for each regular file whose name the extension rule allows and the
    blacklist does not match and of which [stat] succeeds, with the
    size [stat] reports. Store and manager are afterwards what they
    were. The method does not look at the counter: started with any
    value [n] of it, at or above the maximum included, it has the same
    outcome; it does not pass the admission gate. *)
Theorem listFiles_lists_allowed_files (cwd : str) (dir_size : Z) (now : str) (w : World)
    (dirPath : str) :
  let this := manager w in
  let target :=
    if str_eqb dirPath [] || str_eqb dirPath (js ".")
    then Ok (normalizedAllowedDir this)
    else validatePath cwd this dirPath false in
  let failed (e : JsError) : result (list FileInfo) :=
    Throw (Error (msg_failed_list dirPath (message e))) in
  run dir_size now (listFiles cwd dirPath) w
  = (match target with
     | Throw e => failed e
     | Ok safePath =>
         match fst (perform dir_size (fs_readdir safePath) (disk w)) with
         | Throw e => failed e
         | Ok entries => Ok (flat_map (listed dir_size this (disk w) safePath) entries)
         end
     end, w)
  ∧ ∀ n, run dir_size now (listFiles cwd dirPath) (with_counter n w)
         = (fst (run dir_size now (listFiles cwd dirPath) w), with_counter n w).
Proof.
  intros this target failed.
  assert (run dir_size now (listFiles cwd dirPath) w
          = (match target with
             | Throw e => failed e
             | Ok safePath =>
                 match fst (perform dir_size (fs_readdir safePath) (disk w)) with
                 | Throw e => failed e
                 | Ok entries =>
                     Ok (flat_map (listed dir_size this (disk w) safePath) entries)
                 end
             end, w)) as Hrun.
  { unfold listFiles. rewrite run_try_catch, run_bind, run_read_this, run_bind.
    fold this.
    assert (run dir_size now
              (if str_eqb dirPath [] || str_eqb dirPath (js ".")
               then ret (normalizedAllowedDir this)
               else lift (validatePath cwd this dirPath false)) w = (target, w)) as ->.
    { unfold target. destruct (_ || _); [apply run_ret | apply run_lift]. }
    destruct target as [safePath|e]; [|by rewrite run_throw].
    rewrite run_bind, run_await.
    assert (snd (perform dir_size (fs_readdir safePath) (disk w)) = disk w) as Hd
      by by apply perform_query.
    destruct (perform dir_size (fs_readdir safePath) (disk w)) as [[entries|e] d];
      cbn [fst snd] in *; subst d; rewrite world_eta; [|by rewrite run_throw].
    by rewrite run_list_entries_listed. }
  split; [exact Hrun|]. intros n.
  rewrite run_counter_blind by apply counter_blind_listFiles. by rewrite Hrun.
Qed.

Lemma listFiles_lists_allowed_files_witness :
  let w := {| manager := manager demo_world;
              disk := <[js "/srv/ws/sub/b.exe" := File (js "MZ")]>
                        (<[js "/srv/ws/sub/c.txt" := File (js "0123")]>
                           (<[js "/srv/ws/sub" := Directory]> demo_disk)) |} in
  run 4096 demo_now (listFiles demo_cwd (js "sub")) w
  = (Ok [{| info_name := js "c.txt"; info_size := 4 |}], w)
  ∧ run 4096 demo_now (listFiles demo_cwd (js "sub")) (with_counter 2 w)
    = (Ok [{| info_name := js "c.txt"; info_size := 4 |}], with_counter 2 w).
Proof.
  intros w.
  destruct (listFiles_lists_allowed_files demo_cwd 4096 demo_now w (js "sub"))
    as [Hrun Hblind].
  assert (run 4096 demo_now (listFiles demo_cwd (js "sub")) w
          = (Ok [{| info_name := js "c.txt"; info_size := 4 |}], w)) as H.
  { rewrite Hrun. vm_compute. reflexivity. }
  split; [exact H|]. rewrite (Hblind 2). by rewrite H.
Defined.
